(** * Tic-Tac-Toe smart bot: a shallow embedding of [smart_bot.py]

    The move-selection engine of the repository is embedded function by
    function.  Python integers are [Z], cell contents and player symbols are
    [string], a grid is a list of rows.  Python dictionaries keep their
    insertion order and the engine returns the first key of one, so a
    dictionary is an association list with unique keys, in insertion order.
    An [IndexError] is an explicit result.  The iteration order of a Python
    [set] is not fixed by the language: it is a parameter of the development
    ([set_to_list]), constrained only to enumerate the set.

    Two further readings of the same code serve the claims that need them:
    [random.randint] as a uniform draw, with [make_random_move] as the
    distribution of its results, and the board as a list object in a heap
    ([Module Heap]), for the claim that the engine never writes to it.

    The game around the engine, [board.py] and the loops of [main.py], is
    embedded after it with the board passed by value, the draws of the dumb
    player read from a tape, and every [while True] bounded by fuel.  The
    functions that only print are left out, and so is [accuracy_rate], whose
    result is a floating-point number. *)

From Stdlib Require Import QArith Qfield Lqa ZArith List String Bool Lia Permutation Sorted.
Import ListNotations.
Local Open Scope Z_scope.

(** ** Exceptions

    [IndexError]: a list index out of range.  [TypeError]: an object of the
    wrong kind where a list is read (only the heap model can tell). *)

Inductive exn : Type := IndexError | TypeError.

Inductive res (A : Type) : Type :=
| Ok (a : A)
| Raise (e : exn).
Arguments Ok {A} a.
Arguments Raise {A} e.

Definition bind {A B : Type} (c : res A) (k : A -> res B) : res B :=
  match c with
  | Ok a => k a
  | Raise e => Raise e
  end.

Declare Scope res_scope.
Delimit Scope res_scope with res.
Notation "x <- c ;; k" := (bind c (fun x => k))
  (at level 100, c at next level, right associativity) : res_scope.
Local Open Scope res_scope.

(** A [for] loop whose body may raise and that threads an accumulator. *)
Fixpoint foldM {A S : Type} (body : S -> A -> res S) (s : S) (l : list A) : res S :=
  match l with
  | [] => Ok s
  | a :: l' => s' <- body s a ;; foldM body s' l'
  end.

(** A list comprehension whose element expression may raise. *)
Fixpoint mapM {A B : Type} (f : A -> res B) (l : list A) : res (list B) :=
  match l with
  | [] => Ok []
  | a :: l' => b <- f a ;; bs <- mapM f l' ;; Ok (b :: bs)
  end.

(** ** Python built-ins used by the module *)

Fixpoint range_from (start : Z) (n : nat) : list Z :=
  match n with
  | O => []
  | S n' => start :: range_from (start + 1) n'
  end.

(** [range(a, b)] *)
Definition range (a b : Z) : list Z := range_from a (Z.to_nat (b - a)).

(** [len(l)] *)
Definition len {A : Type} (l : list A) : Z := Z.of_nat (List.length l).

(** [l[i]], negative indices counting from the end as in Python. *)
Definition index {A : Type} (l : list A) (i : Z) : res A :=
  let j := if i <? 0 then i + len l else i in
  if j <? 0 then Raise IndexError
  else match nth_error l (Z.to_nat j) with
       | Some a => Ok a
       | None => Raise IndexError
       end.

(** [x in l] for a list of integers *)
Definition mem (x : Z) (l : list Z) : bool := existsb (Z.eqb x) l.

(** *** Dictionaries *)

Definition dict : Type := list (Z * Z).

Definition keys (d : dict) : list Z := map fst d.

(** [d.get(k)] *)
Fixpoint lookup (k : Z) (d : dict) : option Z :=
  match d with
  | [] => None
  | (k', v) :: d' => if k =? k' then Some v else lookup k d'
  end.

(** [d.get(k, default)] *)
Definition get (d : dict) (k default : Z) : Z :=
  match lookup k d with
  | Some v => v
  | None => default
  end.

(** [d[k] = v]: an existing key keeps its position, a new key goes last. *)
Fixpoint dict_set (d : dict) (k v : Z) : dict :=
  match d with
  | [] => [(k, v)]
  | (k', v') :: d' => if k =? k' then (k', v) :: d' else (k', v') :: dict_set d' k v
  end.

(** [dict(items)] *)
Definition dict_of_items (items : list (Z * Z)) : dict :=
  fold_left (fun d kv => dict_set d (fst kv) (snd kv)) items [].

(** [d[k]] on a [defaultdict(int)]: a missing key is inserted with 0. *)
Definition defaultdict_getitem (d : dict) (k : Z) : Z * dict :=
  match lookup k d with
  | Some v => (v, d)
  | None => (0, dict_set d k 0)
  end.

(** [sorted(items, key=lambda item: item[1], reverse=True)].  Python's sort
    is stable, also with [reverse=True]; a stable sort has one possible
    result, computed here by insertion. *)
Fixpoint insert_desc (x : Z * Z) (l : list (Z * Z)) : list (Z * Z) :=
  match l with
  | [] => [x]
  | y :: l' => if snd x <? snd y then y :: insert_desc x l' else x :: y :: l'
  end.

Fixpoint sorted_by_value_desc (items : list (Z * Z)) : list (Z * Z) :=
  match items with
  | [] => []
  | x :: items' => insert_desc x (sorted_by_value_desc items')
  end.

(** ** The module [smart_bot.py] *)

Definition board : Type := list (list string).

Fixpoint player_fields_row (row : list string) (player_symbol : string)
    (row_index prev_rows col_index : Z) : list Z :=
  match row with
  | [] => []
  | c :: row' =>
      (if String.eqb c player_symbol
       then [row_index + prev_rows + col_index + 1] else [])
      ++ player_fields_row row' player_symbol row_index prev_rows (col_index + 1)
  end.

Fixpoint player_fields_rows (rows : list (list string)) (player_symbol : string)
    (row_index prev_rows : Z) : list Z :=
  match rows with
  | [] => []
  | row :: rows' =>
      player_fields_row row player_symbol row_index prev_rows 0
      ++ player_fields_rows rows' player_symbol (row_index + 1) (prev_rows + 2)
  end.

Definition get_player_fields (game_board : board) (player_symbol : string) : list Z :=
  player_fields_rows game_board player_symbol 0 0.

Definition sort_dictonary (dictionary : dict) : dict :=
  dict_of_items (sorted_by_value_desc dictionary).

Definition count_row (row : list string) (player_symbol : string) : Z :=
  fold_left (fun num_of_appearances c =>
               if String.eqb c player_symbol
               then num_of_appearances + 1 else num_of_appearances) row 0.

Fixpoint count_each_row_from (rows : list (list string)) (player_symbol : string)
    (row_index : Z) (count_each_row : dict) : dict :=
  match rows with
  | [] => count_each_row
  | row :: rows' =>
      count_each_row_from rows' player_symbol (row_index + 1)
        (dict_set count_each_row row_index (count_row row player_symbol))
  end.

Definition get_horizontal_counts (game_board : board) (player_symbol : string) : dict :=
  sort_dictonary (count_each_row_from game_board player_symbol 0 []).

Definition get_diagonal_counts (game_board : board) (player_symbol : string) : res dict :=
  counts <- foldM (fun (counts : Z * Z) i =>
                     let (count_diag1, count_diag2) := counts in
                     row <- index game_board i ;;
                     c1 <- index row i ;;
                     let count_diag1 :=
                       if String.eqb c1 player_symbol then count_diag1 + 1 else count_diag1 in
                     row <- index game_board i ;;
                     c2 <- index row (2 - i) ;;
                     let count_diag2 :=
                       if String.eqb c2 player_symbol then count_diag2 + 1 else count_diag2 in
                     Ok (count_diag1, count_diag2))
                  (0, 0) (range 0 3) ;;
  Ok (dict_set (dict_set [] 0 (fst counts)) 1 (snd counts)).

Definition transposed {A : Type} (game_board : list (list A)) : res (list (list A)) :=
  row0 <- index game_board 0 ;;
  mapM (fun i =>
          mapM (fun j => row <- index game_board j ;; index row i)
               (range 0 (len game_board)))
       (range 0 (len row0)).

Definition get_vertical_counts (game_board : board) (player_symbol : string) : res dict :=
  t <- transposed game_board ;;
  Ok (get_horizontal_counts t player_symbol).

(** The two nested loops shared by the straight and the diagonal scorer:
    [for index, count in sorted_fields.items(): for move in possible_moves:
     if move in lines[index]: best_moves[move] = count]. *)
Definition score_lines (lines : list (list Z)) (sorted_fields : dict)
    (possible_moves : list Z) : res dict :=
  foldM (fun best_moves (item : Z * Z) =>
           let (line_index, appearance_count) := item in
           foldM (fun best_moves move =>
                    line <- index lines line_index ;;
                    Ok (if mem move line
                        then dict_set best_moves move appearance_count
                        else best_moves))
                 best_moves possible_moves)
        [] sorted_fields.

Definition get_optimized_diagonal_moves (sorted_fields : dict)
    (possible_moves : list Z) : res dict :=
  let diagonal_moves := [[1; 5; 9]; [3; 5; 7]] in
  best_moves <- score_lines diagonal_moves sorted_fields possible_moves ;;
  Ok (sort_dictonary best_moves).

Definition get_optimized_straight_moves (sorted_fields : dict)
    (possible_moves : list Z) (horizontal : bool) : res dict :=
  let all_moves := [[1; 2; 3]; [4; 5; 6]; [7; 8; 9]] in
  all_moves <- (if negb horizontal then transposed all_moves else Ok all_moves) ;;
  score_lines all_moves sorted_fields possible_moves.

Definition get_sorted_moves (optimized_horizontal_moves optimized_vertical_moves : dict)
    : dict :=
  let combined_moves :=
    fold_left
      (fun combined_moves moves =>
         fold_left (fun combined_moves (item : Z * Z) =>
                      let (key, value) := item in
                      let (old, combined_moves) := defaultdict_getitem combined_moves key in
                      dict_set combined_moves key (Z.max old value))
                   moves combined_moves)
      [optimized_horizontal_moves; optimized_vertical_moves] [] in
  sort_dictonary combined_moves.

(** ** Random choice

    [random.randint] is a uniform draw; a computation that draws is the
    finite distribution of its results, with rational weights. *)

Definition dist (A : Type) : Type := list (A * Q).

Definition dret {A : Type} (a : A) : dist A := [(a, 1%Q)].

Definition dbind {A B : Type} (d : dist A) (k : A -> dist B) : dist B :=
  flat_map (fun ap => map (fun bq => (fst bq, (snd ap * snd bq)%Q)) (k (fst ap))) d.

(** [random.randint(a, b)] *)
Definition randint (a b : Z) : dist Z :=
  map (fun r => (r, (1 / inject_Z (b - a + 1))%Q)) (range a (b + 1)).

(** The weight of the results that satisfy [ev]. *)
Fixpoint prob {A : Type} (ev : A -> bool) (d : dist A) : Q :=
  match d with
  | [] => 0%Q
  | (a, p) :: d' => ((if ev a then p else 0) + prob ev d')%Q
  end.

(** The loop [while True] of [make_random_move], cut after [fuel] draws:
    [None] stands for the runs that are still in the loop. *)
Fixpoint random_move_loop (fuel : nat) (possible_moves : list Z) : dist (option Z) :=
  match fuel with
  | O => dret None
  | S fuel' =>
      dbind (randint 1 9)
            (fun random_move =>
               if mem random_move possible_moves
               then dret (Some random_move)
               else random_move_loop fuel' possible_moves)
  end.

Section SetOrder.

(** [list(s)] for a set [s] of integers, given by its members in ascending
    order: some enumeration of the members. *)
Variable set_to_list : list Z -> list Z.

Definition get_possible_moves (game_board : board) : list Z :=
  let occupied_fields_other := get_player_fields game_board "X"%string in
  let occupied_fields_KI := get_player_fields game_board "O"%string in
  let occupied_fields_all := occupied_fields_other ++ occupied_fields_KI in
  let all_fields := range 1 10 in
  set_to_list (filter (fun m => negb (mem m occupied_fields_all)) all_fields).

Definition make_random_move (fuel : nat) (game_board : board) : dist (option Z) :=
  let possible_moves := get_possible_moves game_board in
  random_move_loop fuel possible_moves.

Definition calc_optimized_move (game_board : board) (player_symbol : string) : res dict :=
  let possible_moves := get_possible_moves game_board in
  let sorted_horizontal_fields := get_horizontal_counts game_board player_symbol in
  sorted_vertical_fields <- get_vertical_counts game_board player_symbol ;;
  sorted_diagonal_fields <- get_diagonal_counts game_board player_symbol ;;
  optimized_hori_moves <-
    get_optimized_straight_moves sorted_horizontal_fields possible_moves true ;;
  optimized_verti_moves <-
    get_optimized_straight_moves sorted_vertical_fields possible_moves false ;;
  optimized_diag_moves <-
    get_optimized_diagonal_moves sorted_diagonal_fields possible_moves ;;
  let optimized_diag_pref_moves :=
    get_sorted_moves optimized_diag_moves optimized_verti_moves in
  let optimized_final_moves :=
    get_sorted_moves optimized_diag_pref_moves optimized_hori_moves in
  Ok optimized_final_moves.

Definition make_smart_move (game_board : board) (player_symbol opponent_symbol : string)
    : res Z :=
  curr_player_optimized_moves <- calc_optimized_move game_board player_symbol ;;
  opponent_optimized_moves <- calc_optimized_move game_board opponent_symbol ;;
  let min_max_sorted_moves :=
    get_sorted_moves curr_player_optimized_moves opponent_optimized_moves in
  let final_moves := keys min_max_sorted_moves in
  Ok (match final_moves with
      | m :: _ => m
      | [] => -1
      end).

End SetOrder.

(** ** The board as a shared mutable object

    The caller owns the board as a Python list of row lists and passes a
    reference to it.  Here the list objects live in a heap, by address; the
    functions that receive the board read it through the heap, and what they
    build ([transposed]) is allocated there.  The functions that only receive
    dictionaries and move lists are the ones above. *)

Module Heap.

(** A value is a string or a reference to a list object. *)
Inductive value : Type :=
| VStr (s : string)
| VRef (l : nat).

(** The list objects, each at the address that is its position. *)
Definition heap : Type := list (list value).

(** A computation reads and changes the heap and returns or raises. *)
Definition M (A : Type) : Type := heap -> res A * heap.

Definition ret {A : Type} (a : A) : M A := fun h => (Ok a, h).

Definition lift {A : Type} (r : res A) : M A := fun h => (r, h).

Definition bind {A B : Type} (c : M A) (k : A -> M B) : M B :=
  fun h => match c h with
           | (Ok a, h') => k a h'
           | (Raise e, h') => (Raise e, h')
           end.

Declare Scope heap_scope.
Delimit Scope heap_scope with heap.
Notation "x <- c ;; k" := (bind c (fun x => k))
  (at level 100, c at next level, right associativity) : heap_scope.
Local Open Scope heap_scope.

(** The object at an address. *)
Definition lookup (h : heap) (l : nat) : option (list value) := nth_error h l.

(** The list object a value refers to. *)
Definition load (v : value) : M (list value) :=
  fun h => match v with
           | VRef l => match lookup h l with
                       | Some o => (Ok o, h)
                       | None => (Raise TypeError, h)
                       end
           | VStr _ => (Raise TypeError, h)
           end.

(** The next free address, and the heap with one more object there. *)
Definition size (h : heap) : nat := List.length h.

Definition extend (h : heap) (o : list value) : heap := h ++ [o].

(** A new list object: a list display or a comprehension. *)
Definition alloc (o : list value) : M value :=
  fun h => (Ok (VRef (size h)), extend h o).

(** Replacing the content of a list object: an assignment to an item. *)
Definition store (v : value) (o : list value) : M unit :=
  fun h => match v with
           | VRef l => match lookup h l with
                       | Some _ => (Ok tt, firstn l h ++ o :: skipn (S l) h)
                       | None => (Raise TypeError, h)
                       end
           | VStr _ => (Raise TypeError, h)
           end.

(** [v[i]] *)
Definition getitem (v : value) (i : Z) : M value := o <- load v ;; lift (index o i).

(** [len(v)] *)
Definition len_of (v : value) : M Z := o <- load v ;; ret (len o).

(** [v == s] for a string [s] *)
Definition value_eqb (v : value) (s : string) : bool :=
  match v with
  | VStr s' => String.eqb s' s
  | VRef _ => false
  end.

Fixpoint foldM {A S : Type} (body : S -> A -> M S) (s : S) (l : list A) : M S :=
  match l with
  | [] => ret s
  | a :: l' => s' <- body s a ;; foldM body s' l'
  end.

Fixpoint mapM {A B : Type} (f : A -> M B) (l : list A) : M (list B) :=
  match l with
  | [] => ret []
  | a :: l' => b <- f a ;; bs <- mapM f l' ;; ret (b :: bs)
  end.

Definition get_player_fields (game_board : value) (player_symbol : string) : M (list Z) :=
  n <- len_of game_board ;;
  st <- foldM (fun (st : list Z * Z) row_index =>
                 let (elements, prev_rows) := st in
                 row <- getitem game_board row_index ;;
                 ncols <- len_of row ;;
                 elements <-
                   foldM (fun elements col_index =>
                            row <- getitem game_board row_index ;;
                            cell <- getitem row col_index ;;
                            ret (if value_eqb cell player_symbol
                                 then elements ++ [row_index + prev_rows + col_index + 1]
                                 else elements))
                         elements (range 0 ncols) ;;
                 ret (elements, prev_rows + 2))
              ([], 0) (range 0 n) ;;
  ret (fst st).

Definition get_horizontal_counts (game_board : value) (player_symbol : string) : M dict :=
  n <- len_of game_board ;;
  count_each_row <-
    foldM (fun count_each_row row_index =>
             row <- getitem game_board row_index ;;
             ncols <- len_of row ;;
             num_of_appearances <-
               foldM (fun num_of_appearances col_index =>
                        row <- getitem game_board row_index ;;
                        cell <- getitem row col_index ;;
                        ret (if value_eqb cell player_symbol
                             then num_of_appearances + 1 else num_of_appearances))
                     0 (range 0 ncols) ;;
             ret (dict_set count_each_row row_index num_of_appearances))
          [] (range 0 n) ;;
  ret (sort_dictonary count_each_row).

Definition get_diagonal_counts (game_board : value) (player_symbol : string) : M dict :=
  counts <- foldM (fun (counts : Z * Z) i =>
                     let (count_diag1, count_diag2) := counts in
                     row <- getitem game_board i ;;
                     c1 <- getitem row i ;;
                     let count_diag1 :=
                       if value_eqb c1 player_symbol then count_diag1 + 1 else count_diag1 in
                     row <- getitem game_board i ;;
                     c2 <- getitem row (2 - i) ;;
                     let count_diag2 :=
                       if value_eqb c2 player_symbol then count_diag2 + 1 else count_diag2 in
                     ret (count_diag1, count_diag2))
                  (0, 0) (range 0 3) ;;
  ret (dict_set (dict_set [] 0 (fst counts)) 1 (snd counts)).

Definition transposed (game_board : value) : M value :=
  row0 <- getitem game_board 0 ;;
  ncols <- len_of row0 ;;
  rows <- mapM (fun i =>
                  n <- len_of game_board ;;
                  cells <- mapM (fun j => row <- getitem game_board j ;; getitem row i)
                                (range 0 n) ;;
                  alloc cells)
               (range 0 ncols) ;;
  alloc rows.

Definition get_vertical_counts (game_board : value) (player_symbol : string) : M dict :=
  t <- transposed game_board ;;
  get_horizontal_counts t player_symbol.

Section SetOrder.

Variable set_to_list : list Z -> list Z.

Definition get_possible_moves (game_board : value) : M (list Z) :=
  occupied_fields_other <- get_player_fields game_board "X" ;;
  occupied_fields_KI <- get_player_fields game_board "O" ;;
  let occupied_fields_all := occupied_fields_other ++ occupied_fields_KI in
  let all_fields := range 1 10 in
  ret (set_to_list (filter (fun m => negb (mem m occupied_fields_all)) all_fields)).

Definition calc_optimized_move (game_board : value) (player_symbol : string) : M dict :=
  possible_moves <- get_possible_moves game_board ;;
  sorted_horizontal_fields <- get_horizontal_counts game_board player_symbol ;;
  sorted_vertical_fields <- get_vertical_counts game_board player_symbol ;;
  sorted_diagonal_fields <- get_diagonal_counts game_board player_symbol ;;
  optimized_hori_moves <-
    lift (get_optimized_straight_moves sorted_horizontal_fields possible_moves true) ;;
  optimized_verti_moves <-
    lift (get_optimized_straight_moves sorted_vertical_fields possible_moves false) ;;
  optimized_diag_moves <-
    lift (get_optimized_diagonal_moves sorted_diagonal_fields possible_moves) ;;
  let optimized_diag_pref_moves :=
    get_sorted_moves optimized_diag_moves optimized_verti_moves in
  let optimized_final_moves :=
    get_sorted_moves optimized_diag_pref_moves optimized_hori_moves in
  ret optimized_final_moves.

Definition make_smart_move (game_board : value) (player_symbol opponent_symbol : string)
    : M Z :=
  curr_player_optimized_moves <- calc_optimized_move game_board player_symbol ;;
  opponent_optimized_moves <- calc_optimized_move game_board opponent_symbol ;;
  let min_max_sorted_moves :=
    get_sorted_moves curr_player_optimized_moves opponent_optimized_moves in
  let final_moves := keys min_max_sorted_moves in
  ret (match final_moves with
       | m :: _ => m
       | [] => -1
       end).

End SetOrder.

(** [game_board[row][col] = symbol], the assignment of [board.make_move]. *)
Definition set_cell (game_board : value) (row col : Z) (symbol : string) : M unit :=
  r <- getitem game_board row ;;
  cells <- load r ;;
  _ <- lift (index cells col) ;;
  store r (firstn (Z.to_nat col) cells ++ VStr symbol :: skipn (S (Z.to_nat col)) cells).

(** A computation that leaves every object of the heap it starts from as
    it is: the final heap is the initial one followed by new objects. *)
Definition preserves {A : Type} (c : M A) : Prop :=
  forall h, exists fresh, snd (c h) = h ++ fresh.

End Heap.

(** ** Vocabulary of the statements *)

(** One pass of the outer loop of [get_sorted_moves]: the scores of [moves]
    merged into [combined]. *)
Definition merge_into (combined moves : dict) : dict :=
  fold_left (fun combined_moves (item : Z * Z) =>
               let (key, value) := item in
               let (old, combined_moves) := defaultdict_getitem combined_moves key in
               dict_set combined_moves key (Z.max old value))
            moves combined.

(** The inner loop, once the line of the current index is known. *)
Definition assign_line (best_moves : dict) (possible_moves line : list Z) (count : Z) : dict :=
  fold_left (fun best_moves move =>
               if mem move line then dict_set best_moves move count else best_moves)
            possible_moves best_moves.

(** The count a move ends up with: the one of the last line, in the
    iteration order of the counts, that contains the move. *)
Fixpoint last_hit (lines : list (list Z)) (fields : dict) (m : Z) : option Z :=
  match fields with
  | [] => None
  | (i, c) :: fields' =>
      match last_hit lines fields' m with
      | Some c' => Some c'
      | None =>
          match index lines i with
          | Ok line => if mem m line then Some c else None
          | Raise _ => None
          end
      end
  end.

Definition valid_fields (lines : list (list Z)) (fields : dict) : Prop :=
  forall i c, In (i, c) fields -> exists line, index lines i = Ok line.

(** The grid is 3 by 3. *)
Definition is_board (b : board) : Prop :=
  List.length b = 3%nat /\ Forall (fun row => List.length row = 3%nat) b.

(** The cell a move addresses, as [board.make_move] finds it: moves outside
    1..9 address nothing, [row = (move - 1) // 3], [col = (move - 1) % 3]. *)
Definition cell_at (b : board) (move : Z) : option string :=
  if (move <? 1) || (move >? 9) then None
  else match nth_error b (Z.to_nat ((move - 1) / 3)) with
       | Some row => nth_error row (Z.to_nat ((move - 1) mod 3))
       | None => None
       end.

(** The move's cell holds the symbol. *)
Definition holds (b : board) (sym : string) (m : Z) : bool :=
  match cell_at b m with
  | Some c => String.eqb c sym
  | None => false
  end.

(** The move's cell holds neither "X" nor "O". *)
Definition free (b : board) (m : Z) : bool :=
  match cell_at b m with
  | Some c => negb (String.eqb c "X") && negb (String.eqb c "O")
  | None => false
  end.

(** The three families of lines, each line a triple of moves. *)
Inductive family : Type := Rows | Columns | Diagonals.

Definition lines_of (fam : family) : list (list Z) :=
  match fam with
  | Rows => [[1; 2; 3]; [4; 5; 6]; [7; 8; 9]]
  | Columns => [[1; 4; 7]; [2; 5; 8]; [3; 6; 9]]
  | Diagonals => [[1; 5; 9]; [3; 5; 7]]
  end.

(** The score dictionary of one family, as [calc_optimized_move] computes it. *)
Definition priority_map (set_to_list : list Z -> list Z) (b : board) (sym : string) (fam : family) : res dict :=
  match fam with
  | Rows =>
      get_optimized_straight_moves (get_horizontal_counts b sym) (get_possible_moves set_to_list b) true
  | Columns =>
      sorted_vertical_fields <- get_vertical_counts b sym ;;
      get_optimized_straight_moves sorted_vertical_fields (get_possible_moves set_to_list b) false
  | Diagonals =>
      sorted_diagonal_fields <- get_diagonal_counts b sym ;;
      get_optimized_diagonal_moves sorted_diagonal_fields (get_possible_moves set_to_list b)
  end.

Definition all_lines : list (list Z) :=
  lines_of Rows ++ lines_of Columns ++ lines_of Diagonals.

(** How many cells of the line hold the symbol. *)
Definition occupancy (b : board) (sym : string) (line : list Z) : Z :=
  len (filter (holds b sym) line).

(** The counts of a family in the order of its lines. *)
Definition counts_of (b : board) (sym : string) (fam : family) : dict :=
  combine (range 0 (len (lines_of fam))) (map (occupancy b sym) (lines_of fam)).

(** The score the family's loops leave on a move. *)
Definition family_score (b : board) (sym : string) (fam : family) (m : Z) : option Z :=
  last_hit (lines_of fam) (counts_of b sym fam) m.

(** The family's score of a move, 0 when the family leaves it unscored. *)
Definition fscore (b : board) (sym : string) (fam : family) (m : Z) : Z :=
  match family_score b sym fam m with
  | Some v => v
  | None => 0
  end.

(** The score [calc_optimized_move] gives a free move. *)
Definition score (b : board) (sym : string) (m : Z) : Z :=
  Z.max (Z.max (fscore b sym Diagonals m) (fscore b sym Columns m)) (fscore b sym Rows m).

(** A priority map: a dictionary of non-negative scores. *)
Definition priority_dict (d : dict) : Prop :=
  NoDup (keys d) /\ forall k v, In (k, v) d -> 0 <= v.

(** The score on which the final choice is made. *)
Definition final_score (b : board) (s o : string) (m : Z) : Z :=
  Z.max (score b s m) (score b o m).

(** Every cell is one of "_", "X", "O". *)
Definition valid_cells (b : board) : Prop :=
  Forall (Forall (fun c => c = "_"%string \/ c = "X"%string \/ c = "O"%string)) b.

(** Every cell is taken by "X" or "O". *)
Definition fully_occupied (b : board) : Prop :=
  Forall (Forall (fun c => c = "X"%string \/ c = "O"%string)) b.

Definition branch_prob (ev : option Z -> bool) (poss : list Z) (rest : Q) (r : Z) : Q :=
  if mem r poss then (if ev (Some r) then 1 else 0)%Q else rest.

(** ** Concrete boards *)

Definition cX : string := "X"%string.
Definition cO : string := "O"%string.
Definition c_ : string := "_"%string.

(** The iteration order in which the members of a set come out ascending. *)
Definition ascending (l : list Z) : list Z := l.

Definition corner_board : board := [[cX; c_; c_]; [c_; c_; c_]; [c_; c_; c_]].

(** The example board of the module's closing comment. *)
Definition example_board : board := [[cO; cO; cX]; [cX; c_; cX]; [c_; cO; c_]].

Definition full_board : board := [[cO; cO; cX]; [cX; cO; cX]; [cX; cO; cO]].

Definition empty_board : board := [[c_; c_; c_]; [c_; c_; c_]; [c_; c_; c_]].

(** "O" holds both ends of the main diagonal, the centre is empty, "O" moves. *)
Definition own_diagonal_board : board := [[cO; cX; c_]; [cX; c_; c_]; [c_; c_; cO]].

(** "X" holds both ends of the main diagonal, the centre is empty, "O" moves. *)
Definition threat_diagonal_board : board := [[cX; c_; c_]; [cO; c_; c_]; [c_; c_; cX]].

(** The same threat with no stone of "O" on the board. *)
Definition bare_diagonal_board : board := [[cX; c_; c_]; [c_; c_; c_]; [c_; c_; cX]].

(** The grid object [g] of heap [h] holds the board [b]: a list of references
    to the rows, each row a list of strings. *)
Definition is_grid (h : Heap.heap) (g : Heap.value) (b : board) : Prop :=
  exists l rows,
    g = Heap.VRef l /\ Heap.lookup h l = Some (map Heap.VRef rows)
    /\ Forall2 (fun r row => Heap.lookup h r = Some (map Heap.VStr row)) rows b.

(** The cell in row [i] and column [j] of a grid. *)
Definition grid_cell {A : Type} (g : list (list A)) (i j : nat) : option A :=
  match nth_error g i with
  | Some row => nth_error row j
  | None => None
  end.

(** Column [i] of a grid. *)
Definition column {A : Type} (g : list (list A)) (i : nat) : list A :=
  flat_map (fun row => match nth_error row i with Some a => [a] | None => [] end) g.

(** The example board in a heap: rows at addresses 0 to 2, the board at 3. *)
Definition example_heap : Heap.heap :=
  [[Heap.VStr "O"; Heap.VStr "O"; Heap.VStr "X"];
   [Heap.VStr "X"; Heap.VStr "_"; Heap.VStr "X"];
   [Heap.VStr "_"; Heap.VStr "O"; Heap.VStr "_"];
   [Heap.VRef 0; Heap.VRef 1; Heap.VRef 2]].

Definition returns (m : Z) (r : option Z) : bool :=
  match r with Some r' => r' =? m | None => false end.
Definition still_looping (r : option Z) : bool :=
  match r with Some _ => false | None => true end.

Fixpoint qpow (q : Q) (n : nat) : Q :=
  match n with O => 1%Q | S n' => (q * qpow q n')%Q end.

(** Sums over a list of moves. *)
Fixpoint qsum (f : Z -> Q) (l : list Z) : Q :=
  match l with [] => 0%Q | r :: l' => (f r + qsum f l')%Q end.

(** ** The module [board.py]

    The functions that print are left out, and so are the prints inside the
    others.  The board is passed and returned by value: the rows of the
    boards the program makes are separate list objects ([get_board] copies
    each row), so an assignment to a cell changes that cell only. *)

(** [l[i] = v], negative indices counting from the end as in Python. *)
Definition setitem {A : Type} (l : list A) (i : Z) (v : A) : res (list A) :=
  let j := if i <? 0 then i + len l else i in
  if (j <? 0) || (len l <=? j) then Raise IndexError
  else Ok (firstn (Z.to_nat j) l ++ v :: skipn (S (Z.to_nat j)) l).

(** [game_board[row][col]] *)
Definition get_cell (game_board : board) (row col : Z) : res string :=
  r <- index game_board row ;; index r col.

(** [game_board[row][col] = v] *)
Definition set_cell (game_board : board) (row col : Z) (v : string) : res board :=
  r <- index game_board row ;;
  r' <- setitem r col v ;;
  setitem game_board row r'.

(** The dictionary [initialize_bot] returns. *)
Record player : Type := {
  name : string;
  number : Z;
  wins : Z;
  symbol : string;
  IQ : string
}.

Definition initialize_bot (player_number : Z) (name_KI symbol IQ : string) : player :=
  {| name := name_KI; number := player_number; wins := 0; symbol := symbol; IQ := IQ |}.

(** [[row[:] for row in tic_tac_toe_board]], by value. *)
Definition get_board (tic_tac_toe_board : board) : board :=
  map (fun row => row) tic_tac_toe_board.

Definition init_board (game_board : board) : res board :=
  foldM (fun game_board row =>
           foldM (fun game_board col => set_cell game_board row col "_")
                 game_board (range 0 3))
        game_board (range 0 3).

(** [all(test(x) for x in l)]: stops at the first false, or at an error. *)
Fixpoint allM {A : Type} (test : A -> res bool) (l : list A) : res bool :=
  match l with
  | [] => Ok true
  | a :: l' => t <- test a ;; if t then allM test l' else Ok false
  end.

(** A sequence of [if test: return True], ended by [return False]. *)
Fixpoint first_true (tests : list (res bool)) : res bool :=
  match tests with
  | [] => Ok false
  | t :: tests' => b <- t ;; if b then Ok true else first_true tests'
  end.

Definition check_win (game_board : board) (p : player) : res bool :=
  first_true
    (flat_map (fun i =>
                 [allM (fun j => c <- get_cell game_board i j ;; Ok (String.eqb c (symbol p)))
                       (range 0 3);
                  allM (fun j => c <- get_cell game_board j i ;; Ok (String.eqb c (symbol p)))
                       (range 0 3)])
              (range 0 3)
     ++ [allM (fun i => c <- get_cell game_board i i ;; Ok (String.eqb c (symbol p)))
              (range 0 3);
         allM (fun i => c <- get_cell game_board i (2 - i) ;; Ok (String.eqb c (symbol p)))
              (range 0 3)]).

Definition check_draw (game_board : board) : bool :=
  forallb (fun row => forallb (fun cell => negb (String.eqb cell "_")) row) game_board.

(** [player['wins'] += 1] of [print_winner] *)
Definition print_winner (p : player) : player :=
  {| name := name p; number := number p; wins := wins p + 1;
     symbol := symbol p; IQ := IQ p |}.

(** [sorted(l, key=key, reverse=True)]: stable, by insertion as above. *)
Fixpoint insert_by {A : Type} (key : A -> Z) (x : A) (l : list A) : list A :=
  match l with
  | [] => [x]
  | y :: l' => if key x <? key y then y :: insert_by key x l' else x :: y :: l'
  end.

Fixpoint sorted_by_desc {A : Type} (key : A -> Z) (l : list A) : list A :=
  match l with
  | [] => []
  | x :: l' => insert_by key x (sorted_by_desc key l')
  end.

Definition get_winners (player_1 player_2 : player) : list player :=
  let players := [player_1; player_2] in
  sorted_by_desc wins players.

(** *** Moves

    The draws of [random.randint] are taken from a tape; a loop that is
    still running when the tape or the fuel ends has no result yet. *)

Inductive failure : Type :=
| Raised (e : exn)
| UnboundLocalError.

Inductive run (A : Type) : Type :=
| Returned (a : A)
| Failed (f : failure)
| StillRunning.
Arguments Returned {A} a.
Arguments Failed {A} f.
Arguments StillRunning {A}.

(** [make_random_move] on a tape of draws: the move and the rest of the tape. *)
Fixpoint random_move_from (draws possible_moves : list Z) : run (Z * list Z) :=
  match draws with
  | [] => StillRunning
  | random_move :: draws' =>
      if mem random_move possible_moves then Returned (random_move, draws')
      else random_move_from draws' possible_moves
  end.

(** [str(n).isdigit()] for an integer [n]: a minus sign is not a digit. *)
Definition isdigit_of_int (n : Z) : bool := 0 <=? n.

Section Game.

Variable set_to_list : list Z -> list Z.

(** [make_move]: [fuel] bounds the passes through its [while True]. *)
Fixpoint make_move (fuel : nat) (draws : list Z) (curr_player : player)
    (game_board : board) (opponent : player) : run (board * list Z) :=
  match fuel with
  | O => StillRunning
  | S fuel' =>
      let chosen : run (Z * list Z) :=
        if String.eqb (IQ curr_player) "dumb" then
          random_move_from draws (get_possible_moves set_to_list game_board)
        else if String.eqb (IQ curr_player) "smart" then
          match make_smart_move set_to_list game_board (symbol curr_player)
                  (symbol opponent) with
          | Ok m => Returned (m, draws)
          | Raise e => Failed (Raised e)
          end
        else Failed UnboundLocalError in
      match chosen with
      | Returned (move, draws') =>
          if negb (isdigit_of_int move) then
            make_move fuel' draws' curr_player game_board opponent
          else if (move <? 1) || (move >? 9) then
            make_move fuel' draws' curr_player game_board opponent
          else
            let row := (move - 1) / 3 in
            let col := (move - 1) mod 3 in
            match get_cell game_board row col with
            | Raise e => Failed (Raised e)
            | Ok c =>
                if negb (String.eqb c "_") then
                  make_move fuel' draws' curr_player game_board opponent
                else
                  match set_cell game_board row col (symbol curr_player) with
                  | Raise e => Failed (Raised e)
                  | Ok game_board' => Returned (game_board', draws')
                  end
            end
      | Failed f => Failed f
      | StillRunning => StillRunning
      end
  end.

(** How a round of [main.py] ends. *)
Inductive round_end : Type :=
| Won (winner loser : player) (game_board : board)
| Drawn (player_1 player_2 : player) (game_board : board).

(** The inner [while True] of [main.py]: [moves] bounds its passes, [fuel]
    the passes through the loop of each [make_move]. *)
Fixpoint play_round (moves fuel : nat) (draws : list Z) (player_1 player_2 : player)
    (game_board : board) : run (round_end * list Z) :=
  match moves with
  | O => StillRunning
  | S moves' =>
      match make_move fuel draws player_1 game_board player_2 with
      | Returned (game_board', draws') =>
          match check_win game_board' player_1 with
          | Raise e => Failed (Raised e)
          | Ok true => Returned (Won (print_winner player_1) player_2 game_board', draws')
          | Ok false =>
              if check_draw game_board'
              then Returned (Drawn player_1 player_2 game_board', draws')
              else play_round moves' fuel draws' player_2 player_1 game_board'
          end
      | Failed f => Failed f
      | StillRunning => StillRunning
      end
  end.

(** The board of [board.py] that every round copies. *)
Definition tic_tac_toe_board : board :=
  [["_"; "_"; "_"]; ["_"; "_"; "_"]; ["_"; "_"; "_"]]%string.

(** The outer loop of [main.py], for [rounds] more rounds; the players keep
    the order the last round left them in. *)
Fixpoint play_rounds (rounds moves fuel : nat) (draws : list Z) (player_1 player_2 : player)
    : run (player * player * list Z) :=
  match rounds with
  | O => Returned (player_1, player_2, draws)
  | S rounds' =>
      let game_board := get_board tic_tac_toe_board in
      match init_board game_board with
      | Raise e => Failed (Raised e)
      | Ok game_board =>
          match play_round moves fuel draws player_1 player_2 game_board with
          | Returned (Won player_1 player_2 _, draws') =>
              play_rounds rounds' moves fuel draws' player_1 player_2
          | Returned (Drawn player_1 player_2 _, draws') =>
              play_rounds rounds' moves fuel draws' player_1 player_2
          | Failed f => Failed f
          | StillRunning => StillRunning
          end
      end
  end.

(** [main.py] without its prints: the winner and the loser over all rounds
    and the number of draws it reports. *)
Definition main (round_limit moves fuel : nat) (draws : list Z)
    : run (player * player * Z) :=
  let player_1 := initialize_bot 0 "Patric Star" "X" "dumb" in
  let player_2 := initialize_bot 1 "Spock" "O" "smart" in
  match play_rounds round_limit moves fuel draws player_1 player_2 with
  | Returned (player_1, player_2, _) =>
      let round := Z.of_nat round_limit in
      let winners := get_winners player_1 player_2 in
      match winners with
      | winner :: loser :: _ =>
          Returned (winner, loser, round - wins player_1 - wins player_2)
      | _ => Failed (Raised IndexError)
      end
  | Failed f => Failed f
  | StillRunning => StillRunning
  end.

End Game.

(** The moves whose cell is empty, in ascending order. *)
Definition empty_cells (b : board) : list Z :=
  filter (fun m => match cell_at b m with
                   | Some c => String.eqb c "_"
                   | None => false
                   end) (range 1 10).

(** The board [b'] is [b] with [sym] put on the cell of move [m]. *)
Definition placed (b : board) (m : Z) (sym : string) (b' : board) : Prop :=
  is_board b' /\ cell_at b' m = Some sym
  /\ forall m', m' <> m -> cell_at b' m' = cell_at b m'.

(** The symbol fills a line. *)
Definition has_line (b : board) (sym : string) : bool :=
  existsb (fun line => occupancy b sym line =? 3) all_lines.

(** Every stone of [b] is still where it was in [b']. *)
Definition extends (b b' : board) : Prop :=
  is_board b'
  /\ forall m c, cell_at b m = Some c -> c <> "_"%string -> cell_at b' m = Some c.

(** A round that started on [b] with [p1] to move ended properly. *)
Definition round_ok (p1 p2 : player) (b : board) (e : round_end) : Prop :=
  match e with
  | Won w l b' =>
      ((w = print_winner p1 /\ l = p2) \/ (w = print_winner p2 /\ l = p1))
      /\ extends b b' /\ has_line b' (symbol w) = true
  | Drawn a c b' =>
      ((a = p1 /\ c = p2) \/ (a = p2 /\ c = p1))
      /\ extends b b' /\ empty_cells b' = [] /\ has_line b' (symbol a) = false
  end.

(** The player [a] is the player [p] some rounds later. *)
Definition same_bot (p a : player) : Prop :=
  name a = name p /\ number a = number p /\ symbol a = symbol p /\ IQ a = IQ p
  /\ wins p <= wins a.

(** The order [sort_dictonary] aims at: counts from high to low. *)
Definition by_count_desc (x y : Z * Z) : Prop := snd y <= snd x.

(** The items of a dictionary that carry the count [v], in their order. *)
Definition with_count (v : Z) (d : dict) : dict := filter (fun kv => snd kv =? v) d.

(** The sum of the counts of a dictionary. *)
Definition total (d : dict) : Z := fold_right (fun kv acc => snd kv + acc) 0 d.

(** The cells that [get_diagonal_counts] reads exist: three rows, the first
    and the third with three cells, the second with two. *)
Definition diagonals_readable (b : board) : bool :=
  match b with
  | r0 :: r1 :: r2 :: _ =>
      (3 <=? List.length r0)%nat && (2 <=? List.length r1)%nat && (3 <=? List.length r2)%nat
  | _ => false
  end.

(** The grid has the three rows of three cells that [init_board] writes. *)
Definition resettable (b : board) : bool :=
  match b with
  | r0 :: r1 :: r2 :: _ =>
      (3 <=? List.length r0)%nat && (3 <=? List.length r1)%nat && (3 <=? List.length r2)%nat
  | _ => false
  end.

(** A row with its first three cells emptied. *)
Definition reset_row (row : list string) : list string :=
  ["_"; "_"; "_"]%string ++ skipn 3 row.

(** A board on which "O" can complete the first row. *)
Definition winning_board : board := [[cO; cO; c_]; [cX; c_; c_]; [c_; cX; c_]].

(** A board on which "X" threatens to complete the first row. *)
Definition threat_board : board := [[cX; cX; c_]; [c_; cO; c_]; [c_; c_; c_]].

(** Draws that name the cells 1 to 9 in turn, four times over. *)
Definition cycling_draws : list Z :=
  range 1 10 ++ range 1 10 ++ range 1 10 ++ range 1 10.

(** The two players of [main.py], and a smart player for "X". *)
Definition patric_star : player := initialize_bot 0 "Patric Star" "X" "dumb".
Definition spock : player := initialize_bot 1 "Spock" "O" "smart".
Definition smart_x : player := initialize_bot 0 "Patric Star" "X" "smart".

(** ** The board of [board.py] as a shared object

    [get_board] in the heap of [Module Heap]: the caller gets a new list of
    new rows. *)

Module BoardHeap.
Import Heap.
Local Open Scope heap_scope.

(** [row[:]]: a new list object with the items of [row]; the slice of a
    string is a string. *)
Definition copy (row : value) : M value :=
  match row with
  | VStr s => ret (VStr s)
  | VRef _ => cells <- load row ;; alloc cells
  end.

(** [[row[:] for row in tic_tac_toe_board]]; a string iterates over its
    characters. *)
Definition get_board (tic_tac_toe_board : value) : M value :=
  match tic_tac_toe_board with
  | VStr s =>
      alloc (map (fun ch => VStr (String ch EmptyString)) (list_ascii_of_string s))
  | VRef _ =>
      rows <- load tic_tac_toe_board ;;
      copies <- mapM copy rows ;;
      alloc copies
  end.

(** Assignments [game_board[row][col] = sym] one after the other, as
    [init_board] and the moves of a round make them; the first that raises
    ends the run. *)
Fixpoint set_cells (game_board : value) (writes : list (Z * Z * string)) : M unit :=
  match writes with
  | [] => ret tt
  | (row, col, sym) :: writes' =>
      _ <- Heap.set_cell game_board row col sym ;; set_cells game_board writes'
  end.

End BoardHeap.

(** * Proofs *)

(** ** Results of the exception monad *)

Lemma bind_Ok (A B : Type) (c : res A) (k : A -> res B) (b : B) :
  bind c k = Ok b -> exists a, c = Ok a /\ k a = Ok b.
Proof. destruct c as [a|e]; simpl; [eauto | discriminate]. Qed.

(** ** Dictionaries as finite maps *)

Lemma mem_In (x : Z) (l : list Z) : mem x l = true <-> In x l.
Proof.
  unfold mem. rewrite existsb_exists. split.
  - intros (y & Hy & Heq). apply Z.eqb_eq in Heq. now subst.
  - intros H. exists x. split; [assumption | apply Z.eqb_refl].
Qed.

Lemma mem_false (x : Z) (l : list Z) : mem x l = false <-> ~ In x l.
Proof.
  rewrite <- mem_In. destruct (mem x l); split; congruence.
Qed.

Lemma mem_app (x : Z) (l1 l2 : list Z) : mem x (l1 ++ l2) = mem x l1 || mem x l2.
Proof. unfold mem. apply existsb_app. Qed.

Lemma lookup_dict_set (d : dict) (k k' v : Z) :
  lookup k (dict_set d k' v) = if k =? k' then Some v else lookup k d.
Proof.
  induction d as [|[k0 v0] d IH]; simpl.
  - reflexivity.
  - destruct (k' =? k0) eqn:E0; simpl.
    + apply Z.eqb_eq in E0. subst k0. destruct (k =? k'); reflexivity.
    + rewrite IH. destruct (k =? k0) eqn:E1; [|reflexivity].
      apply Z.eqb_eq in E1. subst k0.
      rewrite Z.eqb_sym, E0. reflexivity.
Qed.

Lemma lookup_None (k : Z) (d : dict) : lookup k d = None <-> ~ In k (keys d).
Proof.
  induction d as [|[k0 v0] d IH]; simpl.
  - tauto.
  - destruct (k =? k0) eqn:E0.
    + apply Z.eqb_eq in E0. subst. split; [discriminate | tauto].
    + apply Z.eqb_neq in E0. rewrite IH. split; [intros H [?|?]; subst; tauto | tauto].
Qed.

Lemma lookup_Some_key (k v : Z) (d : dict) : lookup k d = Some v -> In k (keys d).
Proof.
  intros H. destruct (in_dec Z.eq_dec k (keys d)) as [|Hn]; [assumption|].
  apply lookup_None in Hn. congruence.
Qed.

Lemma In_keys_lookup (k : Z) (d : dict) : In k (keys d) -> exists v, lookup k d = Some v.
Proof.
  intros H. destruct (lookup k d) as [v|] eqn:E; [eauto|].
  apply lookup_None in E. contradiction.
Qed.

Lemma lookup_In (k v : Z) (d : dict) : lookup k d = Some v -> In (k, v) d.
Proof.
  induction d as [|[k0 v0] d IH]; simpl; [discriminate|].
  destruct (k =? k0) eqn:E0.
  - apply Z.eqb_eq in E0. intros [= ->]. subst. now left.
  - auto.
Qed.

Lemma In_lookup (k v : Z) (d : dict) : NoDup (keys d) -> In (k, v) d -> lookup k d = Some v.
Proof.
  induction d as [|[k0 v0] d IH]; simpl; [tauto|].
  intros Hnd [Heq|Hin].
  - injection Heq as -> ->. now rewrite Z.eqb_refl.
  - inversion Hnd as [|? ? Hnotin Hnd']; subst.
    destruct (k =? k0) eqn:E0.
    + apply Z.eqb_eq in E0. subst k0. exfalso. apply Hnotin.
      change k with (fst (k, v)). now apply in_map.
    + auto.
Qed.

Lemma keys_dict_set (d : dict) (k v : Z) :
  keys (dict_set d k v) = if mem k (keys d) then keys d else keys d ++ [k].
Proof.
  unfold keys. induction d as [|[k0 v0] d IH]; simpl; [reflexivity|].
  destruct (k =? k0) eqn:E0; simpl; [reflexivity|].
  rewrite IH. now destruct (mem k (map fst d)).
Qed.

Lemma In_keys_dict_set (d : dict) (k v x : Z) :
  In x (keys (dict_set d k v)) <-> In x (keys d) \/ x = k.
Proof.
  rewrite keys_dict_set. destruct (mem k (keys d)) eqn:E.
  - apply mem_In in E. split; [tauto | intros [?| ->]; assumption].
  - rewrite in_app_iff. simpl. intuition.
Qed.

Lemma NoDup_dict_set (d : dict) (k v : Z) :
  NoDup (keys d) -> NoDup (keys (dict_set d k v)).
Proof.
  intros H. rewrite keys_dict_set. destruct (mem k (keys d)) eqn:E; [assumption|].
  apply mem_false in E.
  apply NoDup_rev in H. rewrite <- (rev_involutive (keys d ++ [k])).
  apply NoDup_rev. rewrite rev_app_distr. simpl. constructor; [|assumption].
  now rewrite <- in_rev.
Qed.

Lemma dict_set_fresh (d : dict) (k v : Z) :
  ~ In k (keys d) -> dict_set d k v = d ++ [(k, v)].
Proof.
  induction d as [|[k0 v0] d IH]; simpl; [reflexivity|].
  intros H. destruct (k =? k0) eqn:E0.
  - apply Z.eqb_eq in E0. subst. tauto.
  - rewrite IH by tauto. reflexivity.
Qed.

Lemma dict_of_items_from (items acc : list (Z * Z)) :
  NoDup (keys (acc ++ items)) ->
  fold_left (fun d kv => dict_set d (fst kv) (snd kv)) items acc = acc ++ items.
Proof.
  revert acc. induction items as [|[k v] items IH]; intros acc H; simpl.
  - now rewrite app_nil_r.
  - rewrite dict_set_fresh.
    + rewrite IH; rewrite <- app_assoc; [reflexivity | exact H].
    + unfold keys in H. rewrite map_app in H. simpl in H.
      apply NoDup_remove_2 in H. rewrite in_app_iff in H. tauto.
Qed.

(** Building a dictionary from items with distinct keys keeps the items. *)
Lemma dict_of_items_NoDup (items : list (Z * Z)) :
  NoDup (keys items) -> dict_of_items items = items.
Proof. intros H. unfold dict_of_items. now rewrite dict_of_items_from. Qed.

(** ** The stable descending sort *)

Lemma insert_desc_perm (x : Z * Z) (l : list (Z * Z)) : Permutation (insert_desc x l) (x :: l).
Proof.
  induction l as [|y l IH]; simpl; [reflexivity|].
  destruct (snd x <? snd y); [|reflexivity].
  rewrite IH. apply perm_swap.
Qed.

Lemma sorted_by_value_desc_perm (l : list (Z * Z)) : Permutation (sorted_by_value_desc l) l.
Proof.
  induction l as [|x l IH]; simpl; [reflexivity|].
  rewrite insert_desc_perm. now constructor.
Qed.

Lemma sort_dictonary_sorted (d : dict) :
  NoDup (keys d) -> sort_dictonary d = sorted_by_value_desc d.
Proof.
  intros H. unfold sort_dictonary. apply dict_of_items_NoDup.
  unfold keys. eapply Permutation_NoDup; [|exact H].
  apply Permutation_map. symmetry. apply sorted_by_value_desc_perm.
Qed.

Lemma sort_dictonary_perm (d : dict) : NoDup (keys d) -> Permutation (sort_dictonary d) d.
Proof. intros H. rewrite sort_dictonary_sorted by exact H. apply sorted_by_value_desc_perm. Qed.

Lemma NoDup_sort_dictonary (d : dict) : NoDup (keys d) -> NoDup (keys (sort_dictonary d)).
Proof.
  intros H. eapply Permutation_NoDup; [|exact H].
  apply Permutation_map. symmetry. now apply sort_dictonary_perm.
Qed.

Lemma lookup_perm (d d' : dict) (k : Z) :
  NoDup (keys d) -> Permutation d' d -> lookup k d' = lookup k d.
Proof.
  intros Hnd Hp.
  assert (Hnd' : NoDup (keys d')).
  { eapply Permutation_NoDup; [|exact Hnd]. apply Permutation_map. now symmetry. }
  destruct (lookup k d) as [v|] eqn:E.
  - apply In_lookup; [assumption|]. eapply Permutation_in; [symmetry; exact Hp|].
    now apply lookup_In.
  - apply lookup_None. apply lookup_None in E. intros Hin. apply E.
    eapply Permutation_in; [|exact Hin]. now apply Permutation_map.
Qed.

(** Sorting changes the order of a dictionary, not the mapping. *)
Lemma lookup_sort_dictonary (d : dict) (k : Z) :
  NoDup (keys d) -> lookup k (sort_dictonary d) = lookup k d.
Proof. intros H. apply lookup_perm; [assumption | now apply sort_dictonary_perm]. Qed.

Lemma In_keys_sort_dictonary (d : dict) (k : Z) :
  NoDup (keys d) -> In k (keys (sort_dictonary d)) <-> In k (keys d).
Proof.
  intros H. split; intros Hin; (eapply Permutation_in; [|exact Hin]);
    apply Permutation_map; [|symmetry]; now apply sort_dictonary_perm.
Qed.

Lemma insert_desc_head (x : Z * Z) (l : list (Z * Z)) :
  (forall y, In y l -> snd y <= snd x) -> insert_desc x l = x :: l.
Proof.
  destruct l as [|y l]; simpl; [reflexivity|].
  intros H. assert (snd y <= snd x) by (apply H; now left).
  destruct (snd x <? snd y) eqn:E; [apply Z.ltb_lt in E; lia | reflexivity].
Qed.

(** Stability at the head: an item that no later item beats stays first. *)
Lemma sorted_by_value_desc_head (x : Z * Z) (l : list (Z * Z)) :
  (forall y, In y l -> snd y <= snd x) ->
  sorted_by_value_desc (x :: l) = x :: sorted_by_value_desc l.
Proof.
  intros H. simpl. apply insert_desc_head. intros y Hy. apply H.
  eapply Permutation_in; [apply sorted_by_value_desc_perm | exact Hy].
Qed.

Lemma insert_desc_head_max (x : Z * Z) (l : list (Z * Z)) (h : Z * Z) (t : list (Z * Z)) :
  (forall h' t', l = h' :: t' -> forall y, In y l -> snd y <= snd h') ->
  insert_desc x l = h :: t -> forall y, In y (x :: l) -> snd y <= snd h.
Proof.
  intros Hl. destruct l as [|y0 l]; simpl.
  - intros [= <- <-] y [<-|[]]. lia.
  - specialize (Hl y0 l eq_refl).
    destruct (snd x <? snd y0) eqn:E.
    + apply Z.ltb_lt in E. intros [= <- <-] y [<-|Hy]; [lia | now apply Hl].
    + apply Z.ltb_ge in E. intros [= <- <-] y [<-|Hy]; [lia|].
      specialize (Hl y Hy). lia.
Qed.

(** The first item of the sorted list carries a maximal value. *)
Lemma sorted_by_value_desc_head_max (l : list (Z * Z)) (h : Z * Z) (t : list (Z * Z)) :
  sorted_by_value_desc l = h :: t -> forall y, In y l -> snd y <= snd h.
Proof.
  revert h t. induction l as [|x l IH]; simpl; [discriminate|].
  intros h t Heq y Hy.
  assert (Hy' : In y (x :: sorted_by_value_desc l)).
  { destruct Hy as [->|Hy]; [now left | right].
    eapply Permutation_in; [symmetry; apply sorted_by_value_desc_perm | exact Hy]. }
  eapply insert_desc_head_max; [|exact Heq | exact Hy'].
  intros h' t' Heq' z Hz. eapply IH; [exact Heq'|].
  eapply Permutation_in; [apply sorted_by_value_desc_perm | exact Hz].
Qed.

(** ** Merging two score dictionaries *)

Lemma get_sorted_moves_unfold (a b : dict) :
  get_sorted_moves a b = sort_dictonary (merge_into (merge_into [] a) b).
Proof. reflexivity. Qed.

Lemma dict_set_twice (d : dict) (k v w : Z) : dict_set (dict_set d k v) k w = dict_set d k w.
Proof.
  induction d as [|[k0 v0] d IH]; simpl.
  - now rewrite Z.eqb_refl.
  - destruct (k =? k0) eqn:E0; simpl; rewrite E0; [reflexivity | now rewrite IH].
Qed.

Lemma merge_step (c : dict) (k v : Z) :
  (let (old, c') := defaultdict_getitem c k in dict_set c' k (Z.max old v))
  = dict_set c k (Z.max (get c k 0) v).
Proof.
  unfold defaultdict_getitem, get. destruct (lookup k c); [reflexivity|].
  apply dict_set_twice.
Qed.

Lemma merge_into_cons (c : dict) (k v : Z) (moves : dict) :
  merge_into c ((k, v) :: moves) = merge_into (dict_set c k (Z.max (get c k 0) v)) moves.
Proof. unfold merge_into. simpl. now rewrite merge_step. Qed.

Lemma get_dict_set (d : dict) (k k' v default : Z) :
  get (dict_set d k' v) k default = if k =? k' then v else get d k default.
Proof. unfold get. rewrite lookup_dict_set. now destruct (k =? k'). Qed.

Lemma lookup_merge_into (moves c : dict) (k : Z) :
  NoDup (keys moves) ->
  lookup k (merge_into c moves) =
  match lookup k moves with
  | Some v => Some (Z.max (get c k 0) v)
  | None => lookup k c
  end.
Proof.
  revert c. induction moves as [|[k0 v0] moves IH]; intros c Hnd; [reflexivity|].
  rewrite merge_into_cons. inversion Hnd as [|? ? Hnotin Hnd']; subst.
  rewrite IH by assumption. simpl. rewrite get_dict_set, lookup_dict_set.
  destruct (k =? k0) eqn:E0; [|reflexivity].
  apply Z.eqb_eq in E0. subst k0.
  assert (Hn : lookup k moves = None) by now apply lookup_None.
  now rewrite Hn.
Qed.

Lemma In_keys_merge_into (moves c : dict) (k : Z) :
  In k (keys (merge_into c moves)) <-> In k (keys c) \/ In k (keys moves).
Proof.
  revert c. induction moves as [|[k0 v0] moves IH]; intros c.
  - simpl. tauto.
  - rewrite merge_into_cons, IH, In_keys_dict_set. simpl. intuition.
Qed.

Lemma NoDup_merge_into (moves c : dict) :
  NoDup (keys c) -> NoDup (keys (merge_into c moves)).
Proof.
  revert c. induction moves as [|[k0 v0] moves IH]; intros c H; [assumption|].
  rewrite merge_into_cons. apply IH. now apply NoDup_dict_set.
Qed.

(** Merging scores for keys that are all present keeps the order of the keys. *)
Lemma keys_merge_into_incl (moves c : dict) :
  incl (keys moves) (keys c) -> keys (merge_into c moves) = keys c.
Proof.
  revert c. induction moves as [|[k0 v0] moves IH]; intros c H; [reflexivity|].
  rewrite merge_into_cons.
  assert (Hk : keys (dict_set c k0 (Z.max (get c k0 0) v0)) = keys c).
  { rewrite keys_dict_set.
    assert (Hin : In k0 (keys c)) by (apply H; now left).
    apply mem_In in Hin. now rewrite Hin. }
  rewrite IH; [exact Hk|]. rewrite Hk. intros x Hx. apply H. now right.
Qed.

Lemma keys_merge_into_nil (moves : dict) :
  NoDup (keys moves) -> keys (merge_into [] moves) = keys moves.
Proof.
  intros H.
  assert (G : forall c, NoDup (keys c ++ keys moves) ->
                        keys (merge_into c moves) = keys c ++ keys moves).
  { clear H. induction moves as [|[k0 v0] moves IH]; intros c H.
    - simpl. now rewrite app_nil_r.
    - rewrite merge_into_cons. simpl in *.
      assert (Hk : keys (dict_set c k0 (Z.max (get c k0 0) v0)) = keys c ++ [k0]).
      { rewrite keys_dict_set.
        assert (Hn : ~ In k0 (keys c)).
        { apply NoDup_remove_2 in H. rewrite in_app_iff in H. tauto. }
        apply mem_false in Hn. now rewrite Hn. }
      rewrite IH; rewrite Hk, <- app_assoc; [reflexivity | exact H]. }
  apply (G []). exact H.
Qed.

(** The merged dictionary as a mapping. *)
Lemma lookup_get_sorted_moves (a b : dict) (k : Z) :
  NoDup (keys a) -> NoDup (keys b) ->
  lookup k (get_sorted_moves a b) =
  match lookup k a, lookup k b with
  | Some va, Some vb => Some (Z.max (Z.max 0 va) vb)
  | Some va, None => Some (Z.max 0 va)
  | None, Some vb => Some (Z.max 0 vb)
  | None, None => None
  end.
Proof.
  intros Ha Hb. rewrite get_sorted_moves_unfold.
  rewrite lookup_sort_dictonary by (apply NoDup_merge_into, NoDup_merge_into; constructor).
  rewrite lookup_merge_into by assumption.
  unfold get. rewrite !lookup_merge_into by assumption. simpl.
  destruct (lookup k a), (lookup k b); reflexivity.
Qed.

Lemma In_keys_get_sorted_moves (a b : dict) (k : Z) :
  In k (keys (get_sorted_moves a b)) <-> In k (keys a) \/ In k (keys b).
Proof.
  rewrite get_sorted_moves_unfold.
  rewrite In_keys_sort_dictonary by (apply NoDup_merge_into, NoDup_merge_into; constructor).
  rewrite !In_keys_merge_into. simpl. tauto.
Qed.

Lemma NoDup_get_sorted_moves (a b : dict) : NoDup (keys (get_sorted_moves a b)).
Proof.
  rewrite get_sorted_moves_unfold.
  apply NoDup_sort_dictonary, NoDup_merge_into, NoDup_merge_into. constructor.
Qed.

(** ** The nested scoring loops *)

Lemma lookup_assign_line (possible_moves line : list Z) (count : Z) (best_moves : dict) (m : Z) :
  lookup m (assign_line best_moves possible_moves line count) =
  if mem m possible_moves && mem m line then Some count else lookup m best_moves.
Proof.
  unfold assign_line. revert best_moves.
  induction possible_moves as [|p ps IH]; intros best_moves; [reflexivity|].
  simpl. rewrite IH. destruct (m =? p) eqn:E2; simpl.
  - apply Z.eqb_eq in E2. subst p.
    destruct (mem m ps), (mem m line); simpl; try reflexivity.
    now rewrite lookup_dict_set, Z.eqb_refl.
  - destruct (mem m ps && mem m line); [reflexivity|].
    destruct (mem p line); [|reflexivity].
    now rewrite lookup_dict_set, E2.
Qed.

Lemma NoDup_assign_line (possible_moves line : list Z) (count : Z) (best_moves : dict) :
  NoDup (keys best_moves) -> NoDup (keys (assign_line best_moves possible_moves line count)).
Proof.
  unfold assign_line. revert best_moves.
  induction possible_moves as [|p ps IH]; intros best_moves H; [assumption|].
  simpl. apply IH. destruct (mem p line); [now apply NoDup_dict_set | assumption].
Qed.

Lemma inner_loop_ok (lines : list (list Z)) (i count : Z) (line possible_moves : list Z)
    (best_moves : dict) :
  index lines i = Ok line ->
  foldM (fun best_moves move =>
           line <- index lines i ;;
           Ok (if mem move line then dict_set best_moves move count else best_moves))
        best_moves possible_moves
  = Ok (assign_line best_moves possible_moves line count).
Proof.
  intros Hi. unfold assign_line. rewrite Hi. revert best_moves.
  induction possible_moves as [|p ps IH]; intros best_moves; [reflexivity|].
  simpl. apply IH.
Qed.

Lemma score_lines_from (lines : list (list Z)) (possible_moves : list Z) (fields best_moves : dict) :
  valid_fields lines fields -> NoDup (keys best_moves) ->
  exists d,
    foldM (fun best_moves (item : Z * Z) =>
             let (line_index, appearance_count) := item in
             foldM (fun best_moves move =>
                      line <- index lines line_index ;;
                      Ok (if mem move line
                          then dict_set best_moves move appearance_count
                          else best_moves))
                   best_moves possible_moves)
          best_moves fields = Ok d
    /\ NoDup (keys d)
    /\ forall m, lookup m d =
                 if mem m possible_moves
                 then match last_hit lines fields m with
                      | Some c => Some c
                      | None => lookup m best_moves
                      end
                 else lookup m best_moves.
Proof.
  revert best_moves. induction fields as [|[i c] fields IH]; intros best_moves Hv Hnd.
  - exists best_moves. simpl. repeat split; [assumption|].
    intros m. now destruct (mem m possible_moves).
  - destruct (Hv i c (or_introl eq_refl)) as [line Hline].
    simpl. rewrite (inner_loop_ok lines i c line possible_moves best_moves Hline). simpl.
    destruct (IH (assign_line best_moves possible_moves line c)) as (d & Hd & Hnd' & Hl).
    + intros i' c' Hin. apply (Hv i' c'). now right.
    + now apply NoDup_assign_line.
    + exists d. repeat split; [assumption | assumption|].
      intros m. rewrite Hl, lookup_assign_line, Hline.
      destruct (mem m possible_moves); simpl; [|reflexivity].
      destruct (last_hit lines fields m); [reflexivity|].
      now destruct (mem m line).
Qed.

(** What [score_lines] returns, as a mapping. *)
Lemma score_lines_spec (lines : list (list Z)) (fields : dict) (possible_moves : list Z) :
  valid_fields lines fields ->
  exists d, score_lines lines fields possible_moves = Ok d
            /\ NoDup (keys d)
            /\ forall m, lookup m d =
                         if mem m possible_moves then last_hit lines fields m else None.
Proof.
  intros Hv. destruct (score_lines_from lines possible_moves fields [] Hv)
    as (d & Hd & Hnd & Hl); [constructor|].
  exists d. repeat split; [exact Hd | exact Hnd|].
  intros m. rewrite Hl. simpl.
  destruct (mem m possible_moves); [|reflexivity]. now destruct (last_hit lines fields m).
Qed.

Lemma last_hit_In (lines : list (list Z)) (fields : dict) (m c : Z) :
  last_hit lines fields m = Some c ->
  exists i line, In (i, c) fields /\ index lines i = Ok line /\ mem m line = true.
Proof.
  induction fields as [|[i0 c0] fields IH]; simpl; [discriminate|].
  destruct (last_hit lines fields m) as [c'|].
  - intros [= ->]. destruct (IH eq_refl) as (i & line & Hin & Hi & Hm).
    exists i, line. auto.
  - destruct (index lines i0) as [line|] eqn:Hi; [|discriminate].
    destruct (mem m line) eqn:Hm; [|discriminate].
    intros [= ->]. exists i0, line. auto.
Qed.

Lemma last_hit_None (lines : list (list Z)) (fields : dict) (m : Z) :
  last_hit lines fields m = None ->
  forall i c line, In (i, c) fields -> index lines i = Ok line -> mem m line = false.
Proof.
  induction fields as [|[i0 c0] fields IH]; simpl; [tauto|].
  destruct (last_hit lines fields m) as [c'|]; [discriminate|].
  intros H i c line [Heq|Hin] Hi.
  - injection Heq as -> ->. rewrite Hi in H. now destruct (mem m line).
  - eapply IH; eauto.
Qed.

(** When the move lies on one line only, the order of the counts is immaterial. *)
Lemma last_hit_unique (lines : list (list Z)) (fields : dict) (m i c : Z) (line : list Z) :
  NoDup (keys fields) ->
  (forall j cj lj, In (j, cj) fields -> index lines j = Ok lj -> mem m lj = true -> j = i) ->
  In (i, c) fields -> index lines i = Ok line -> mem m line = true ->
  last_hit lines fields m = Some c.
Proof.
  intros Hnd Huniq Hin Hi Hm.
  destruct (last_hit lines fields m) as [c'|] eqn:E.
  - destruct (last_hit_In _ _ _ _ E) as (i' & line' & Hin' & Hi' & Hm').
    rewrite (Huniq _ _ _ Hin' Hi' Hm') in Hin'.
    apply (In_lookup _ _ _ Hnd) in Hin. apply (In_lookup _ _ _ Hnd) in Hin'. congruence.
  - rewrite (last_hit_None _ _ _ E _ _ _ Hin Hi) in Hm. discriminate.
Qed.

(** Lines that do not share the move: any order of the counts scores it alike. *)
Lemma last_hit_perm (lines : list (list Z)) (f1 f2 : dict) (m : Z) :
  NoDup (keys f1) -> Permutation f1 f2 ->
  (forall j1 c1 l1 j2 c2 l2,
      In (j1, c1) f2 -> In (j2, c2) f2 ->
      index lines j1 = Ok l1 -> index lines j2 = Ok l2 ->
      mem m l1 = true -> mem m l2 = true -> j1 = j2) ->
  last_hit lines f1 m = last_hit lines f2 m.
Proof.
  intros Hnd Hp Hdis.
  destruct (last_hit lines f2 m) as [c|] eqn:E.
  - destruct (last_hit_In _ _ _ _ E) as (i & line & Hin & Hi & Hm).
    apply last_hit_unique with (i := i) (line := line); try assumption.
    + intros j cj lj Hj Hlj Hmj. apply (Hdis j cj lj i c line); try assumption.
      eapply Permutation_in; [exact Hp | exact Hj].
    + eapply Permutation_in; [symmetry; exact Hp | exact Hin].
  - destruct (last_hit lines f1 m) as [c|] eqn:E1; [|reflexivity].
    destruct (last_hit_In _ _ _ _ E1) as (i & line & Hin & Hi & Hm).
    rewrite (last_hit_None _ _ _ E i c line) in Hm; [discriminate | | exact Hi].
    eapply Permutation_in; [exact Hp | exact Hin].
Qed.

(** ** Boards, moves and lines *)

Lemma is_board_inv (b : board) :
  is_board b ->
  exists c1 c2 c3 c4 c5 c6 c7 c8 c9,
    b = [[c1; c2; c3]; [c4; c5; c6]; [c7; c8; c9]].
Proof.
  intros [Hl Hr].
  destruct b as [|r1 [|r2 [|r3 [|]]]]; try discriminate.
  inversion Hr as [|? ? H1 Hr1]; subst. inversion Hr1 as [|? ? H2 Hr2]; subst.
  inversion Hr2 as [|? ? H3 _]; subst.
  destruct r1 as [|c1 [|c2 [|c3 [|]]]]; try discriminate.
  destruct r2 as [|c4 [|c5 [|c6 [|]]]]; try discriminate.
  destruct r3 as [|c7 [|c8 [|c9 [|]]]]; try discriminate.
  repeat eexists.
Qed.

Lemma move_cases (m : Z) :
  1 <= m <= 9 -> m = 1 \/ m = 2 \/ m = 3 \/ m = 4 \/ m = 5 \/ m = 6 \/ m = 7 \/ m = 8 \/ m = 9.
Proof. lia. Qed.

Lemma cell_at_range (b : board) (m : Z) (c : string) : cell_at b m = Some c -> 1 <= m <= 9.
Proof.
  unfold cell_at. destruct (m <? 1) eqn:E1; [discriminate|].
  destruct (m >? 9) eqn:E2; [discriminate|]. intros _.
  apply Z.ltb_ge in E1. rewrite Z.gtb_ltb in E2. apply Z.ltb_ge in E2. lia.
Qed.

Lemma holds_range (b : board) (sym : string) (m : Z) : holds b sym m = true -> 1 <= m <= 9.
Proof.
  unfold holds. destruct (cell_at b m) eqn:E; [|discriminate].
  intros _. eapply cell_at_range; eauto.
Qed.

Lemma free_range (b : board) (m : Z) : free b m = true -> 1 <= m <= 9.
Proof.
  unfold free. destruct (cell_at b m) eqn:E; [|discriminate].
  intros _. eapply cell_at_range; eauto.
Qed.

Lemma mem_single_if (m k : Z) (c : bool) :
  mem m (if c then [k] else []) = c && (m =? k).
Proof. destruct c; simpl; [apply orb_false_r | reflexivity]. Qed.

(** [get_player_fields] lists the moves whose cell holds the symbol. *)
Lemma mem_get_player_fields (b : board) (sym : string) (m : Z) :
  is_board b -> mem m (get_player_fields b sym) = holds b sym m.
Proof.
  intros Hb. destruct (is_board_inv b Hb) as (c1 & c2 & c3 & c4 & c5 & c6 & c7 & c8 & c9 & ->).
  unfold get_player_fields. cbn [player_fields_rows player_fields_row].
  rewrite !mem_app, !mem_single_if. cbn [mem existsb].
  destruct (Z_le_dec 1 m) as [H1|H1]; [destruct (Z_le_dec m 9) as [H9|H9]|].
  - destruct (move_cases m (conj H1 H9)) as [->|[->|[->|[->|[->|[->|[->|[->| ->]]]]]]]];
      cbn; rewrite ?andb_true_r, ?andb_false_r, ?orb_false_r; reflexivity.
  - unfold holds, cell_at. replace (m >? 9) with true by (symmetry; apply Z.gtb_lt; lia).
    rewrite orb_true_r.
    repeat match goal with
           | |- context [m =? ?k] => replace (m =? k) with false by (symmetry; apply Z.eqb_neq; lia)
           end.
    rewrite ?andb_false_r. reflexivity.
  - unfold holds, cell_at. replace (m <? 1) with true by (symmetry; apply Z.ltb_lt; lia).
    cbn [orb].
    repeat match goal with
           | |- context [m =? ?k] => replace (m =? k) with false by (symmetry; apply Z.eqb_neq; lia)
           end.
    rewrite ?andb_false_r. reflexivity.
Qed.

Lemma cell_at_some (b : board) (m : Z) :
  is_board b -> 1 <= m <= 9 -> exists c, cell_at b m = Some c.
Proof.
  intros Hb Hm. destruct (is_board_inv b Hb) as (c1 & c2 & c3 & c4 & c5 & c6 & c7 & c8 & c9 & ->).
  destruct (move_cases m Hm) as [->|[->|[->|[->|[->|[->|[->|[->| ->]]]]]]]];
    eexists; reflexivity.
Qed.

Lemma free_holds (b : board) (m : Z) :
  is_board b -> 1 <= m <= 9 -> free b m = negb (holds b "X" m || holds b "O" m).
Proof.
  intros Hb Hm. destruct (cell_at_some b m Hb Hm) as [c Hc].
  unfold free, holds. rewrite Hc. now rewrite negb_orb.
Qed.

Lemma occupancy_nonneg (b : board) (sym : string) (line : list Z) : 0 <= occupancy b sym line.
Proof. unfold occupancy, len. lia. Qed.

Lemma counts_of_In (b : board) (sym : string) (fam : family) (i c : Z) (line : list Z) :
  In (i, c) (counts_of b sym fam) -> index (lines_of fam) i = Ok line ->
  In line (lines_of fam) /\ c = occupancy b sym line.
Proof.
  intros Hin Hi. destruct fam; cbn in Hin;
    repeat (destruct Hin as [Hin|Hin];
            [injection Hin as <- <-; cbv in Hi; injection Hi as <-;
             split; [simpl; tauto | reflexivity]|]);
    destruct Hin.
Qed.

(** A family's score is the occupancy of one of its lines through the move. *)
Lemma family_score_In (b : board) (sym : string) (fam : family) (m v : Z) :
  family_score b sym fam m = Some v ->
  exists line, In line (lines_of fam) /\ In m line /\ v = occupancy b sym line.
Proof.
  intros H. destruct (last_hit_In _ _ _ _ H) as (i & line & Hin & Hi & Hm).
  destruct (counts_of_In b sym fam i v line Hin Hi) as [Hl Hv].
  exists line. repeat split; [assumption | now apply mem_In | assumption].
Qed.

(** On a row or a column, the score is the occupancy of the line of the move. *)
Lemma family_score_straight (b : board) (sym : string) (fam : family) (m : Z) (line : list Z) :
  fam <> Diagonals -> In line (lines_of fam) -> In m line ->
  family_score b sym fam m = Some (occupancy b sym line).
Proof.
  intros Hfam Hl Hm.
  destruct fam; [| |congruence]; simpl in Hl;
    repeat (destruct Hl as [Hl|Hl]; [subst line; simpl in Hm;
      repeat (destruct Hm as [Hm|Hm]; [subst m; reflexivity|]); destruct Hm|]);
    destruct Hl.
Qed.

(** On the diagonals the second diagonal is scored last: the centre, which
    lies on both, keeps the count of the second. *)
Lemma family_score_diagonal (b : board) (sym : string) (m : Z) :
  family_score b sym Diagonals m =
  if mem m [3; 5; 7] then Some (occupancy b sym [3; 5; 7])
  else if mem m [1; 5; 9] then Some (occupancy b sym [1; 5; 9])
       else None.
Proof.
  unfold family_score.
  change (counts_of b sym Diagonals)
    with [(0, occupancy b sym [1; 5; 9]); (1, occupancy b sym [3; 5; 7])].
  cbn [last_hit lines_of].
  change (index [[1; 5; 9]; [3; 5; 7]] 1) with (Ok [3; 5; 7]).
  change (index [[1; 5; 9]; [3; 5; 7]] 0) with (Ok [1; 5; 9]).
  cbv beta iota. destruct (mem m [3; 5; 7]); [reflexivity|].
  destruct (mem m [1; 5; 9]); reflexivity.
Qed.

Lemma fscore_nonneg (b : board) (sym : string) (fam : family) (m : Z) : 0 <= fscore b sym fam m.
Proof.
  unfold fscore. destruct (family_score b sym fam m) as [v|] eqn:E; [|lia].
  destruct (family_score_In b sym fam m v E) as (line & _ & _ & ->). apply occupancy_nonneg.
Qed.

Lemma row_of_move (m : Z) :
  1 <= m <= 9 -> exists line, In line (lines_of Rows) /\ In m line.
Proof.
  intros Hm.
  destruct (move_cases m Hm) as [->|[->|[->|[->|[->|[->|[->|[->| ->]]]]]]]];
    [exists [1; 2; 3] | exists [1; 2; 3] | exists [1; 2; 3]
     | exists [4; 5; 6] | exists [4; 5; 6] | exists [4; 5; 6]
     | exists [7; 8; 9] | exists [7; 8; 9] | exists [7; 8; 9]]; simpl; tauto.
Qed.

Lemma column_of_move (m : Z) :
  1 <= m <= 9 -> exists line, In line (lines_of Columns) /\ In m line.
Proof.
  intros Hm.
  destruct (move_cases m Hm) as [->|[->|[->|[->|[->|[->|[->|[->| ->]]]]]]]];
    [exists [1; 4; 7] | exists [2; 5; 8] | exists [3; 6; 9]
     | exists [1; 4; 7] | exists [2; 5; 8] | exists [3; 6; 9]
     | exists [1; 4; 7] | exists [2; 5; 8] | exists [3; 6; 9]]; simpl; tauto.
Qed.

Lemma priority_dict_lookup (d : dict) (k v : Z) :
  priority_dict d -> lookup k d = Some v -> 0 <= v.
Proof. intros [_ H] Hl. apply (H k). now apply lookup_In. Qed.

Lemma lookup_merge_max (a b : dict) (k : Z) :
  priority_dict a -> priority_dict b ->
  lookup k (get_sorted_moves a b) =
  match lookup k a, lookup k b with
  | None, None => None
  | _, _ => Some (Z.max (get a k 0) (get b k 0))
  end.
Proof.
  intros Ha Hb. rewrite lookup_get_sorted_moves by (apply Ha || apply Hb).
  unfold get.
  destruct (lookup k a) as [va|] eqn:Ea, (lookup k b) as [vb|] eqn:Eb; try reflexivity;
    try (pose proof (priority_dict_lookup a k va Ha Ea));
    try (pose proof (priority_dict_lookup b k vb Hb Eb)); f_equal; lia.
Qed.

Lemma priority_dict_merge (a b : dict) :
  priority_dict a -> priority_dict b -> priority_dict (get_sorted_moves a b).
Proof.
  intros Ha Hb. split; [apply NoDup_get_sorted_moves|].
  intros k v Hin. apply In_lookup in Hin; [|apply NoDup_get_sorted_moves].
  rewrite lookup_merge_max in Hin by assumption. unfold get in Hin.
  destruct (lookup k a) as [va|] eqn:Ea, (lookup k b) as [vb|] eqn:Eb;
    try discriminate; injection Hin as <-;
    try (pose proof (priority_dict_lookup a k va Ha Ea));
    try (pose proof (priority_dict_lookup b k vb Hb Eb)); lia.
Qed.

(** C5 (merge semantics and algebra).  For priority maps [A] and [B],
    [get_sorted_moves A B] has the union of their keys, maps each key to
    [max(A.get(k, 0), B.get(k, 0))], and is a priority map again; as
    mappings, the merge is commutative and associative, so three maps merge
    to the same mapping in any order. *)
Theorem get_sorted_moves_merge_max (A B : dict) :
  priority_dict A -> priority_dict B ->
  (forall k, In k (keys (get_sorted_moves A B)) <-> In k (keys A) \/ In k (keys B))
  /\ (forall k, In k (keys (get_sorted_moves A B)) ->
                lookup k (get_sorted_moves A B) = Some (Z.max (get A k 0) (get B k 0)))
  /\ priority_dict (get_sorted_moves A B)
  /\ (forall k, lookup k (get_sorted_moves A B) = lookup k (get_sorted_moves B A))
  /\ (forall C, priority_dict C ->
                forall k,
                  lookup k (get_sorted_moves (get_sorted_moves A B) C)
                  = lookup k (get_sorted_moves A (get_sorted_moves B C))
                  /\ lookup k (get_sorted_moves (get_sorted_moves A B) C)
                     = lookup k (get_sorted_moves (get_sorted_moves C B) A)).
Proof.
  intros HA HB. split; [intros k; apply In_keys_get_sorted_moves|].
  split.
  { intros k Hin. rewrite lookup_merge_max by assumption.
    apply In_keys_get_sorted_moves in Hin.
    destruct (lookup k A) eqn:Ea, (lookup k B) eqn:Eb; try reflexivity.
    apply lookup_None in Ea. apply lookup_None in Eb. tauto. }
  split; [now apply priority_dict_merge|].
  split.
  { intros k. rewrite !lookup_merge_max by assumption.
    destruct (lookup k A), (lookup k B); try reflexivity; now rewrite Z.max_comm. }
  intros C HC k.
  pose proof (priority_dict_merge A B HA HB) as HAB.
  pose proof (priority_dict_merge B C HB HC) as HBC.
  pose proof (priority_dict_merge C B HC HB) as HCB.
  rewrite !lookup_merge_max by assumption. unfold get.
  rewrite !lookup_merge_max by assumption. unfold get.
  destruct (lookup k A) as [va|] eqn:Ea, (lookup k B) as [vb|] eqn:Eb,
    (lookup k C) as [vc|] eqn:Ec; split; try reflexivity;
    try (pose proof (priority_dict_lookup A k va HA Ea));
    try (pose proof (priority_dict_lookup B k vb HB Eb));
    try (pose proof (priority_dict_lookup C k vc HC Ec)); f_equal; lia.
Qed.

Lemma get_sorted_moves_head_max (a b : dict) (k v : Z) (t : dict) :
  get_sorted_moves a b = (k, v) :: t ->
  forall k' v', lookup k' (get_sorted_moves a b) = Some v' -> v' <= v.
Proof.
  intros Heq k' v' Hl. rewrite get_sorted_moves_unfold in Heq, Hl.
  rewrite sort_dictonary_sorted in Heq, Hl
    by (apply NoDup_merge_into, NoDup_merge_into; constructor).
  apply lookup_In in Hl.
  apply (sorted_by_value_desc_head_max _ (k, v) t Heq (k', v')).
  eapply Permutation_in; [apply sorted_by_value_desc_perm | exact Hl].
Qed.

Lemma lookup_head (k v : Z) (t : dict) : lookup k ((k, v) :: t) = Some v.
Proof. simpl. now rewrite Z.eqb_refl. Qed.

Lemma occupancy_3 (b : board) (sym : string) (x y z : Z) :
  occupancy b sym [x; y; z]
  = (if holds b sym x then 1 else 0) + (if holds b sym y then 1 else 0)
    + (if holds b sym z then 1 else 0).
Proof.
  unfold occupancy. cbn [filter].
  destruct (holds b sym x), (holds b sym y), (holds b sym z); reflexivity.
Qed.

Lemma all_lines_family (line : list Z) :
  In line all_lines <-> exists fam, In line (lines_of fam).
Proof.
  unfold all_lines. rewrite !in_app_iff. split.
  - intros [H|[H|H]]; [exists Rows | exists Columns | exists Diagonals]; exact H.
  - intros [[| |] H]; tauto.
Qed.

Lemma all_lines_shape (line : list Z) :
  In line all_lines -> exists x y z, line = [x; y; z] /\ x <> y /\ x <> z /\ y <> z.
Proof.
  intros H. cbv in H.
  repeat (destruct H as [<-|H]; [do 3 eexists; split; [reflexivity | lia]|]). destruct H.
Qed.

Lemma free_not_holds (b : board) (sym : string) (m : Z) :
  sym = "X"%string \/ sym = "O"%string -> free b m = true -> holds b sym m = false.
Proof.
  unfold free, holds. destruct (cell_at b m) as [c|]; [|reflexivity].
  intros [-> | ->] H; apply andb_prop in H; destruct H as [H1 H2];
    [destruct (String.eqb c "X") | destruct (String.eqb c "O")]; simpl in *; congruence.
Qed.

(** A line through a free move holds at most two stones of a player. *)
Lemma occupancy_free_le_2 (b : board) (sym : string) (line : list Z) (m : Z) :
  sym = "X"%string \/ sym = "O"%string ->
  In line all_lines -> In m line -> free b m = true -> occupancy b sym line <= 2.
Proof.
  intros Hsym Hline Hm Hf. pose proof (free_not_holds b sym m Hsym Hf) as Hh.
  destruct (all_lines_shape line Hline) as (x & y & z & -> & _).
  rewrite occupancy_3. simpl in Hm. destruct Hm as [<-|[<-|[<-|[]]]]; rewrite Hh;
    repeat match goal with |- context [if ?c then _ else _] => destruct c end; lia.
Qed.

(** Two free moves on one line leave room for one stone. *)
Lemma occupancy_two_free (b : board) (sym : string) (line : list Z) (m c : Z) :
  sym = "X"%string \/ sym = "O"%string ->
  In line all_lines -> In m line -> In c line -> m <> c ->
  free b m = true -> free b c = true -> occupancy b sym line <= 1.
Proof.
  intros Hsym Hline Hm Hc Hne Hfm Hfc.
  pose proof (free_not_holds b sym m Hsym Hfm) as Hhm.
  pose proof (free_not_holds b sym c Hsym Hfc) as Hhc.
  destruct (all_lines_shape line Hline) as (x & y & z & -> & _).
  rewrite occupancy_3. simpl in Hm, Hc.
  destruct Hm as [<-|[<-|[<-|[]]]]; destruct Hc as [<-|[<-|[<-|[]]]];
    try congruence; rewrite Hhm, Hhc;
    repeat match goal with |- context [if ?c then _ else _] => destruct c end; lia.
Qed.

(** Except for the centre on the main diagonal, a family scores a move with
    the occupancy of the family's line through it. *)
Lemma family_score_line (b : board) (sym : string) (fam : family) (line : list Z) (m : Z) :
  In line (lines_of fam) -> In m line -> ~ (line = [1; 5; 9] /\ m = 5) ->
  family_score b sym fam m = Some (occupancy b sym line).
Proof.
  intros Hl Hm Hc.
  destruct fam; try (apply family_score_straight; [discriminate | assumption..]).
  rewrite family_score_diagonal. simpl in Hl. destruct Hl as [<-|[<-|[]]]; simpl in Hm;
    repeat (destruct Hm as [<-|Hm]; [first [reflexivity | tauto]|]); destruct Hm.
Qed.

Lemma family_score_le_score (b : board) (sym : string) (fam : family) (m v : Z) :
  family_score b sym fam m = Some v -> v <= score b sym m.
Proof.
  intros H. unfold score.
  pose proof (fscore_nonneg b sym Rows m). pose proof (fscore_nonneg b sym Columns m).
  pose proof (fscore_nonneg b sym Diagonals m).
  assert (fscore b sym fam m = v) by (unfold fscore; now rewrite H).
  destruct fam; lia.
Qed.

(** A bound on the occupancy of every line through a move bounds its score. *)
Lemma score_bound (b : board) (sym : string) (m n : Z) :
  0 <= n ->
  (forall line, In line all_lines -> In m line -> occupancy b sym line <= n) ->
  score b sym m <= n.
Proof.
  intros Hn H.
  assert (G : forall fam, fscore b sym fam m <= n).
  { intros fam. unfold fscore. destruct (family_score b sym fam m) as [v|] eqn:E; [|exact Hn].
    destruct (family_score_In b sym fam m v E) as (line & Hl & Hm & ->).
    apply H; [|assumption]. apply all_lines_family. now exists fam. }
  unfold score. pose proof (G Rows). pose proof (G Columns). pose proof (G Diagonals). lia.
Qed.

(** A score is the occupancy of some line through the move, or 0. *)
Lemma score_line (b : board) (sym : string) (m : Z) :
  0 < score b sym m ->
  exists line, In line all_lines /\ In m line /\ occupancy b sym line = score b sym m.
Proof.
  intros Hpos.
  assert (G : exists fam, fscore b sym fam m = score b sym m).
  { unfold score. destruct (Z.max_spec (fscore b sym Diagonals m) (fscore b sym Columns m))
      as [[_ H1]|[_ H1]];
      destruct (Z.max_spec (Z.max (fscore b sym Diagonals m) (fscore b sym Columns m))
                  (fscore b sym Rows m)) as [[_ H2]|[_ H2]]; rewrite H2;
      solve [now exists Rows | exists Columns; congruence | exists Diagonals; congruence]. }
  destruct G as [fam Hfam]. unfold fscore in Hfam.
  destruct (family_score b sym fam m) as [v|] eqn:E; [|lia].
  destruct (family_score_In b sym fam m v E) as (line & Hl & Hm & Hv).
  exists line. split; [apply all_lines_family; now exists fam|]. split; [assumption|]. congruence.
Qed.

Lemma cell_at_In (b : board) (m : Z) (c : string) :
  cell_at b m = Some c -> exists row, In row b /\ In c row.
Proof.
  unfold cell_at. destruct ((m <? 1) || (m >? 9)); [discriminate|].
  destruct (nth_error b (Z.to_nat ((m - 1) / 3))) as [row|] eqn:E; [|discriminate].
  intros H. exists row. split; eapply nth_error_In; eauto.
Qed.

Lemma free_empty (b : board) (m : Z) :
  valid_cells b -> free b m = true <-> cell_at b m = Some "_"%string.
Proof.
  intros Hv. unfold free. destruct (cell_at b m) as [c|] eqn:E.
  - destruct (cell_at_In b m c E) as (row & Hrow & Hc).
    unfold valid_cells in Hv. rewrite Forall_forall in Hv. specialize (Hv row Hrow).
    rewrite Forall_forall in Hv. specialize (Hv c Hc).
    destruct Hv as [->|[->| ->]]; simpl; split; congruence.
  - split; discriminate.
Qed.

Lemma fully_occupied_free (b : board) (m : Z) : fully_occupied b -> free b m = false.
Proof.
  intros Hv. unfold free. destruct (cell_at b m) as [c|] eqn:E; [|reflexivity].
  destruct (cell_at_In b m c E) as (row & Hrow & Hc).
  unfold fully_occupied in Hv. rewrite Forall_forall in Hv. specialize (Hv row Hrow).
  rewrite Forall_forall in Hv. specialize (Hv c Hc).
  destruct Hv as [->| ->]; reflexivity.
Qed.

(** ** The random loop as a distribution *)

Lemma prob_app {A} (ev : A -> bool) (d1 d2 : dist A) :
  (prob ev (d1 ++ d2) == prob ev d1 + prob ev d2)%Q.
Proof.
  induction d1 as [|[a p] d1 IH]; simpl; [ring|]. rewrite IH. ring.
Qed.

Lemma prob_scale {A} (ev : A -> bool) (p : Q) (d : dist A) :
  (prob ev (map (fun bq => (fst bq, (p * snd bq)%Q)) d) == p * prob ev d)%Q.
Proof.
  induction d as [|[a q] d IH]; simpl; [ring|]. rewrite IH.
  destruct (ev a); ring.
Qed.

Lemma prob_dbind_cons {A B} (ev : B -> bool) (a : A) (p : Q) (d : dist A) (k : A -> dist B) :
  (prob ev (dbind ((a, p) :: d) k) == p * prob ev (k a) + prob ev (dbind d k))%Q.
Proof.
  unfold dbind. simpl. rewrite prob_app, prob_scale. reflexivity.
Qed.

Lemma loop_step (ev : option Z -> bool) (poss : list Z) (n : nat) :
  (prob ev (random_move_loop (S n) poss) ==
   (1 # 9) * (branch_prob ev poss (prob ev (random_move_loop n poss)) 1
    + branch_prob ev poss (prob ev (random_move_loop n poss)) 2
    + branch_prob ev poss (prob ev (random_move_loop n poss)) 3
    + branch_prob ev poss (prob ev (random_move_loop n poss)) 4
    + branch_prob ev poss (prob ev (random_move_loop n poss)) 5
    + branch_prob ev poss (prob ev (random_move_loop n poss)) 6
    + branch_prob ev poss (prob ev (random_move_loop n poss)) 7
    + branch_prob ev poss (prob ev (random_move_loop n poss)) 8
    + branch_prob ev poss (prob ev (random_move_loop n poss)) 9))%Q.
Proof.
  cbn [random_move_loop].
  change (randint 1 9) with
    [(1, (1 / inject_Z 9)%Q); (2, (1 / inject_Z 9)%Q); (3, (1 / inject_Z 9)%Q);
     (4, (1 / inject_Z 9)%Q); (5, (1 / inject_Z 9)%Q); (6, (1 / inject_Z 9)%Q);
     (7, (1 / inject_Z 9)%Q); (8, (1 / inject_Z 9)%Q); (9, (1 / inject_Z 9)%Q)].
  rewrite !prob_dbind_cons. unfold dbind at 1. cbn [flat_map prob].
  unfold branch_prob.
  repeat match goal with
         | |- context [prob ev (if ?c then _ else _)] => destruct c
         end; cbn [prob dret]; field.
Qed.

Lemma loop_step_sum (ev : option Z -> bool) (poss : list Z) (n : nat) :
  (prob ev (random_move_loop (S n) poss) ==
   (1 # 9) * qsum (branch_prob ev poss (prob ev (random_move_loop n poss))) (range 1 10))%Q.
Proof.
  rewrite loop_step. change (range 1 10) with [1; 2; 3; 4; 5; 6; 7; 8; 9].
  cbn [qsum]. ring.
Qed.

Lemma qsum_branch (ev : option Z -> bool) (poss : list Z) (rest : Q) (l : list Z) :
  (qsum (branch_prob ev poss rest) l ==
   qsum (fun r => if mem r poss && ev (Some r) then 1 else 0) l
   + rest * inject_Z (len (filter (fun r => negb (mem r poss)) l)))%Q.
Proof.
  induction l as [|r l IH]; cbn [qsum filter].
  - unfold len. simpl. ring.
  - rewrite IH. unfold branch_prob. destruct (mem r poss); cbn [negb andb].
    + destruct (ev (Some r)); ring.
    + unfold len. cbn [List.length]. rewrite Nat2Z.inj_succ, <- Z.add_1_r, inject_Z_plus. ring.
Qed.

Lemma qsum_zero (f : Z -> Q) (l : list Z) :
  (forall r, In r l -> f r = 0%Q) -> (qsum f l == 0)%Q.
Proof.
  induction l as [|r l IH]; intros H; cbn [qsum]; [reflexivity|].
  rewrite H by now left. rewrite IH; [ring|]. intros r' Hr'. apply H. now right.
Qed.

Lemma qsum_returns (poss : list Z) (m : Z) (l : list Z) :
  NoDup l ->
  (qsum (fun r => if mem r poss && returns m (Some r) then 1 else 0) l
   == if mem m poss && mem m l then 1 else 0)%Q.
Proof.
  induction l as [|r l IH]; intros Hnd; cbn [qsum].
  - rewrite andb_false_r. reflexivity.
  - inversion Hnd as [|? ? Hnotin Hnd']; subst. rewrite (IH Hnd'). clear IH.
    cbn [returns mem existsb]. rewrite (Z.eqb_sym m r). destruct (r =? m) eqn:E.
    + apply Z.eqb_eq in E. subst r. apply mem_false in Hnotin.
      fold (mem m l). rewrite Hnotin. rewrite andb_true_r, andb_false_r. cbn [orb].
      rewrite andb_true_r. destruct (mem m poss); ring.
    + rewrite andb_false_r. cbn [orb]. fold (mem m l). ring.
Qed.

Lemma NoDup_range_1_10 : NoDup (range 1 10).
Proof. cbv. repeat (constructor; [simpl; intuition discriminate|]). constructor. Qed.

Lemma In_range_1_10 (r : Z) : In r (range 1 10) <-> 1 <= r <= 9.
Proof.
  split.
  - cbv. intuition (subst; discriminate).
  - intros H. destruct (move_cases r H) as [->|[->|[->|[->|[->|[->|[->|[->| ->]]]]]]]];
      cbv; tauto.
Qed.

Lemma count_missed (poss : list Z) :
  NoDup poss -> (forall r, In r poss -> 1 <= r <= 9) ->
  len (filter (fun r => negb (mem r poss)) (range 1 10)) = 9 - len poss.
Proof.
  intros Hnd Hr. unfold len.
  pose proof (filter_length (fun r => mem r poss) (range 1 10)) as H.
  assert (Hp : Permutation (filter (fun r => mem r poss) (range 1 10)) poss).
  { apply NoDup_Permutation; [apply NoDup_filter, NoDup_range_1_10 | assumption|].
    intros r. rewrite filter_In, mem_In, In_range_1_10. split; [tauto|].
    intros Hin. split; [now apply Hr | assumption]. }
  apply Permutation_length in Hp. rewrite Hp in H.
  change (List.length (range 1 10)) with 9%nat in H. lia.
Qed.

Section RandomLoop.

Variable poss : list Z.
Hypothesis poss_NoDup : NoDup poss.
Hypothesis poss_range : forall r, In r poss -> 1 <= r <= 9.

Let k : Z := len poss.
Let q : Q := (inject_Z (9 - k) / 9)%Q.

Lemma loop_recurrence (ev : option Z -> bool) (n : nat) :
  (prob ev (random_move_loop (S n) poss) ==
   (1 # 9) * qsum (fun r => if mem r poss && ev (Some r) then 1 else 0) (range 1 10)
   + q * prob ev (random_move_loop n poss))%Q.
Proof.
  rewrite loop_step_sum, qsum_branch, count_missed by assumption.
  unfold q, k. field.
Qed.

Lemma loop_still_looping (n : nat) :
  (prob still_looping (random_move_loop n poss) == qpow q n)%Q.
Proof.
  induction n as [|n IH].
  - simpl. ring.
  - rewrite loop_recurrence, IH, qsum_zero; [cbn [qpow]; ring|].
    intros r _. cbn [still_looping]. now rewrite andb_false_r.
Qed.

Lemma loop_returns_free (m : Z) (n : nat) :
  In m poss ->
  (prob (returns m) (random_move_loop n poss) * inject_Z k == 1 - qpow q n)%Q.
Proof.
  intros Hm.
  assert (Hmm : mem m poss && mem m (range 1 10) = true).
  { apply andb_true_intro. split; apply mem_In; [assumption|].
    apply In_range_1_10. now apply poss_range. }
  induction n as [|n IH].
  - simpl. ring.
  - rewrite loop_recurrence, qsum_returns by apply NoDup_range_1_10.
    rewrite Hmm. cbn [qpow].
    transitivity ((1 # 9) * inject_Z k
                  + q * (prob (returns m) (random_move_loop n poss) * inject_Z k))%Q;
      [ring|].
    rewrite IH. unfold q. unfold Z.sub. rewrite inject_Z_plus, inject_Z_opp. field.
Qed.

Lemma loop_returns_taken (m : Z) (n : nat) :
  ~ In m poss -> (prob (returns m) (random_move_loop n poss) == 0)%Q.
Proof.
  intros Hm. apply mem_false in Hm.
  induction n as [|n IH].
  - simpl. ring.
  - rewrite loop_recurrence, qsum_returns by apply NoDup_range_1_10.
    rewrite Hm, IH. cbn [andb]. ring.
Qed.

End RandomLoop.

Lemma qpow_nonneg (q : Q) (n : nat) : (0 <= q)%Q -> (0 <= qpow q n)%Q.
Proof.
  intros Hq. induction n as [|n IH]; cbn [qpow]; [lra|]. now apply Qmult_le_0_compat.
Qed.

Lemma qpow_decay (q : Q) (n : nat) :
  (0 <= q)%Q -> (q <= 8 # 9)%Q -> (qpow q n * inject_Z (8 + Z.of_nat n) <= 8)%Q.
Proof.
  intros Hq0 Hq1. induction n as [|n IH].
  - cbn [qpow]. change (inject_Z (8 + Z.of_nat 0)) with 8%Q. lra.
  - cbn [qpow]. rewrite Nat2Z.inj_succ, <- Z.add_1_r.
    pose proof (qpow_nonneg q n Hq0) as Hp.
    rewrite !inject_Z_plus in *. 
    assert (Hn : (0 <= inject_Z (Z.of_nat n))%Q).
    { change 0%Q with (inject_Z 0). rewrite <- Zle_Qle. lia. }
    change (inject_Z 8) with 8%Q in *. change (inject_Z 1) with 1%Q.
    nra.
Qed.

Lemma qpow_small (q : Q) :
  (0 <= q)%Q -> (q <= 8 # 9)%Q ->
  forall eps, (0 < eps)%Q -> exists N, forall n, (N <= n)%nat -> (qpow q n < eps)%Q.
Proof.
  intros Hq0 Hq1 eps Heps.
  destruct (Qarchimedean (8 / eps)) as [p Hp].
  exists (Pos.to_nat p). intros n Hn.
  pose proof (qpow_decay q n Hq0 Hq1) as Hd.
  pose proof (qpow_nonneg q n Hq0) as Hnn.
  assert (Hpn : (inject_Z (Z.pos p) <= inject_Z (Z.of_nat n))%Q).
  { rewrite <- Zle_Qle. lia. }
  rewrite inject_Z_plus in Hd. change (inject_Z 8) with 8%Q in Hd.
  assert (H8 : (8 < inject_Z (Z.pos p) * eps)%Q).
  { setoid_replace 8%Q with ((8 / eps) * eps)%Q by (field; lra).
    apply Qmult_lt_r; [exact Heps | exact Hp]. }
  assert (Hp0 : (0 <= inject_Z (Z.pos p))%Q).
  { change 0%Q with (inject_Z 0). rewrite <- Zle_Qle. lia. }
  apply Qnot_le_lt. intros Hle.
  assert (H1 : (0 <= (qpow q n - eps) * (8 + inject_Z (Z.of_nat n)))%Q)
    by (apply Qmult_le_0_compat; lra).
  assert (H2 : (0 <= eps * (inject_Z (Z.of_nat n) - inject_Z (Z.pos p)))%Q)
    by (apply Qmult_le_0_compat; lra).
  nra.
Qed.

Lemma ascending_perm (l : list Z) : Permutation (ascending l) l.
Proof. apply Permutation_refl. Qed.

(** ** The engine, for every iteration order of the set of free moves *)

Section Engine.

(** All that is known of [list(s)]: it lists the members of [s], each once,
    in some order. *)
Variable set_to_list : list Z -> list Z.
Hypothesis set_to_list_perm : forall l, Permutation (set_to_list l) l.

#[local] Abbreviation possible := (get_possible_moves set_to_list).

Lemma In_possible (b : board) (m : Z) :
  is_board b -> In m (possible b) <-> free b m = true.
Proof.
  intros Hb. unfold get_possible_moves.
  assert (Hin : forall l, In m (set_to_list l) <-> In m l).
  { intros l. split; apply Permutation_in;
      [apply set_to_list_perm | symmetry; apply set_to_list_perm]. }
  rewrite Hin, filter_In, mem_app, !mem_get_player_fields by assumption.
  split.
  - intros [Hr Hf]. rewrite free_holds; [exact Hf | exact Hb|].
    cbv in Hr. intuition lia.
  - intros Hf. pose proof (free_range b m Hf) as Hr.
    rewrite free_holds in Hf by assumption. split; [|exact Hf].
    destruct (move_cases m Hr) as [->|[->|[->|[->|[->|[->|[->|[->| ->]]]]]]]]; cbv; tauto.
Qed.

Lemma mem_possible (b : board) (m : Z) : is_board b -> mem m (possible b) = free b m.
Proof.
  intros Hb. destruct (free b m) eqn:E.
  - apply mem_In. now apply In_possible.
  - apply mem_false. rewrite In_possible by assumption. congruence.
Qed.

Lemma NoDup_possible (b : board) : NoDup (possible b).
Proof.
  unfold get_possible_moves.
  eapply Permutation_NoDup; [symmetry; apply set_to_list_perm|].
  apply NoDup_filter. cbv.
  repeat (constructor; [simpl; intuition discriminate|]). constructor.
Qed.

Lemma count_row_occupancy (b : board) (sym a1 a2 a3 : string) (m1 m2 m3 : Z) :
  cell_at b m1 = Some a1 -> cell_at b m2 = Some a2 -> cell_at b m3 = Some a3 ->
  count_row [a1; a2; a3] sym = occupancy b sym [m1; m2; m3].
Proof.
  intros H1 H2 H3. unfold count_row, occupancy, holds. simpl. rewrite H1, H2, H3.
  destruct (String.eqb a1 sym), (String.eqb a2 sym), (String.eqb a3 sym); reflexivity.
Qed.

Lemma NoDup_keys_3 (a b c : Z) : NoDup (keys [(0, a); (1, b); (2, c)]).
Proof. simpl. repeat (constructor; [simpl; intuition discriminate|]). constructor. Qed.

Lemma horizontal_counts_perm (b : board) (sym : string) :
  is_board b ->
  NoDup (keys (get_horizontal_counts b sym))
  /\ Permutation (get_horizontal_counts b sym) (counts_of b sym Rows).
Proof.
  intros Hb. destruct (is_board_inv b Hb) as (c1 & c2 & c3 & c4 & c5 & c6 & c7 & c8 & c9 & ->).
  set (b := [[c1; c2; c3]; [c4; c5; c6]; [c7; c8; c9]]).
  unfold get_horizontal_counts.
  change (count_each_row_from b sym 0 [])
    with [(0, count_row [c1; c2; c3] sym); (1, count_row [c4; c5; c6] sym);
          (2, count_row [c7; c8; c9] sym)].
  rewrite (count_row_occupancy b sym c1 c2 c3 1 2 3),
    (count_row_occupancy b sym c4 c5 c6 4 5 6),
    (count_row_occupancy b sym c7 c8 c9 7 8 9) by reflexivity.
  split; [apply NoDup_sort_dictonary | apply sort_dictonary_perm]; apply NoDup_keys_3.
Qed.

Lemma vertical_counts_perm (b : board) (sym : string) :
  is_board b ->
  exists d, get_vertical_counts b sym = Ok d
            /\ NoDup (keys d) /\ Permutation d (counts_of b sym Columns).
Proof.
  intros Hb. destruct (is_board_inv b Hb) as (c1 & c2 & c3 & c4 & c5 & c6 & c7 & c8 & c9 & ->).
  set (b := [[c1; c2; c3]; [c4; c5; c6]; [c7; c8; c9]]).
  unfold get_vertical_counts.
  change (transposed b) with (Ok [[c1; c4; c7]; [c2; c5; c8]; [c3; c6; c9]]).
  cbn [bind]. eexists. split; [reflexivity|].
  unfold get_horizontal_counts.
  change (count_each_row_from [[c1; c4; c7]; [c2; c5; c8]; [c3; c6; c9]] sym 0 [])
    with [(0, count_row [c1; c4; c7] sym); (1, count_row [c2; c5; c8] sym);
          (2, count_row [c3; c6; c9] sym)].
  rewrite (count_row_occupancy b sym c1 c4 c7 1 4 7),
    (count_row_occupancy b sym c2 c5 c8 2 5 8),
    (count_row_occupancy b sym c3 c6 c9 3 6 9) by reflexivity.
  split; [apply NoDup_sort_dictonary | apply sort_dictonary_perm]; apply NoDup_keys_3.
Qed.

Lemma diagonal_counts_eq (b : board) (sym : string) :
  is_board b -> get_diagonal_counts b sym = Ok (counts_of b sym Diagonals).
Proof.
  intros Hb. destruct (is_board_inv b Hb) as (c1 & c2 & c3 & c4 & c5 & c6 & c7 & c8 & c9 & ->).
  cbv - [String.eqb].
  destruct (String.eqb c1 sym), (String.eqb c5 sym), (String.eqb c9 sym),
    (String.eqb c3 sym), (String.eqb c7 sym); reflexivity.
Qed.

Lemma counts_of_valid (b : board) (sym : string) (fam : family) :
  valid_fields (lines_of fam) (counts_of b sym fam).
Proof.
  intros i c Hin. destruct fam; cbn in Hin;
    repeat (destruct Hin as [Hin|Hin]; [injection Hin as <- <-; eexists; reflexivity|]);
    destruct Hin.
Qed.

Lemma valid_fields_perm (lines : list (list Z)) (f1 f2 : dict) :
  Permutation f1 f2 -> valid_fields lines f2 -> valid_fields lines f1.
Proof.
  intros Hp Hv i c Hin. apply (Hv i c). eapply Permutation_in; [exact Hp | exact Hin].
Qed.

(** A move lies on at most one row and on at most one column. *)
Lemma straight_lines_disjoint (b : board) (sym : string) (fam : family) (m : Z) :
  fam <> Diagonals ->
  forall j1 c1 l1 j2 c2 l2,
    In (j1, c1) (counts_of b sym fam) -> In (j2, c2) (counts_of b sym fam) ->
    index (lines_of fam) j1 = Ok l1 -> index (lines_of fam) j2 = Ok l2 ->
    mem m l1 = true -> mem m l2 = true -> j1 = j2.
Proof.
  intros Hfam j1 c1 l1 j2 c2 l2 H1 H2 Hi1 Hi2 Hm1 Hm2.
  apply mem_In in Hm1. apply mem_In in Hm2.
  destruct fam; [| |congruence]; cbn in H1, H2;
    repeat (destruct H1 as [H1|H1]; [injection H1 as <- <-|]); try destruct H1;
    repeat (destruct H2 as [H2|H2]; [injection H2 as <- <-|]); try destruct H2;
    try reflexivity; exfalso;
    cbv in Hi1, Hi2; injection Hi1 as <-; injection Hi2 as <-;
    simpl in Hm1, Hm2; lia.
Qed.

Lemma score_straight (b : board) (sym : string) (fam : family) (fields : dict) :
  fam <> Diagonals -> NoDup (keys fields) -> Permutation fields (counts_of b sym fam) ->
  is_board b ->
  exists d, score_lines (lines_of fam) fields (possible b) = Ok d
            /\ NoDup (keys d)
            /\ forall m, lookup m d = if free b m then family_score b sym fam m else None.
Proof.
  intros Hfam Hnd Hp Hb.
  destruct (score_lines_spec (lines_of fam) fields (possible b)) as (d & Hd & Hndd & Hl).
  { eapply valid_fields_perm; [exact Hp | apply counts_of_valid]. }
  exists d. repeat split; [exact Hd | exact Hndd|].
  intros m. rewrite Hl, mem_possible by assumption.
  destruct (free b m); [|reflexivity].
  apply last_hit_perm; [assumption | assumption|].
  now apply straight_lines_disjoint.
Qed.

(** Each family's score dictionary, as a mapping on the free moves. *)
Lemma priority_map_spec (b : board) (sym : string) (fam : family) :
  is_board b ->
  exists d, priority_map set_to_list b sym fam = Ok d
            /\ NoDup (keys d)
            /\ forall m, lookup m d = if free b m then family_score b sym fam m else None.
Proof.
  intros Hb. destruct fam; unfold priority_map.
  - destruct (horizontal_counts_perm b sym Hb) as [Hnd Hp].
    apply (score_straight b sym Rows); [discriminate | assumption..].
  - destruct (vertical_counts_perm b sym Hb) as (v & -> & Hnd & Hp). cbn [bind].
    apply (score_straight b sym Columns); [discriminate | assumption..].
  - rewrite (diagonal_counts_eq b sym Hb). cbn [bind].
    unfold get_optimized_diagonal_moves.
    destruct (score_lines_spec (lines_of Diagonals) (counts_of b sym Diagonals) (possible b))
      as (d & Hd & Hnd & Hl); [apply counts_of_valid|].
    change [[1; 5; 9]; [3; 5; 7]] with (lines_of Diagonals). rewrite Hd. cbn [bind].
    eexists. split; [reflexivity|]. split; [now apply NoDup_sort_dictonary|].
    intros m. rewrite lookup_sort_dictonary, Hl, mem_possible by assumption. reflexivity.
Qed.

Lemma calc_optimized_move_unfold (b : board) (sym : string) (dh dv dd : dict) :
  priority_map set_to_list b sym Rows = Ok dh -> priority_map set_to_list b sym Columns = Ok dv ->
  priority_map set_to_list b sym Diagonals = Ok dd ->
  calc_optimized_move set_to_list b sym
  = Ok (get_sorted_moves (get_sorted_moves dd dv) dh).
Proof.
  unfold priority_map, calc_optimized_move. intros Hh Hv Hd.
  destruct (get_vertical_counts b sym) as [v|]; [|discriminate].
  destruct (get_diagonal_counts b sym) as [g|]; [|discriminate].
  cbn [bind] in *. rewrite Hh, Hv, Hd. reflexivity.
Qed.

(** The score dictionary of one symbol, as a mapping. *)
Lemma calc_optimized_move_spec (b : board) (sym : string) :
  is_board b ->
  exists d, calc_optimized_move set_to_list b sym = Ok d
            /\ NoDup (keys d)
            /\ (forall m, lookup m d = if free b m then Some (score b sym m) else None)
            /\ (forall k v t, d = (k, v) :: t ->
                             forall k' v', lookup k' d = Some v' -> v' <= v).
Proof.
  intros Hb.
  destruct (priority_map_spec b sym Rows Hb) as (dh & Hh & Hndh & Hlh).
  destruct (priority_map_spec b sym Columns Hb) as (dv & Hv & Hndv & Hlv).
  destruct (priority_map_spec b sym Diagonals Hb) as (dd & Hd & Hndd & Hld).
  exists (get_sorted_moves (get_sorted_moves dd dv) dh).
  split; [now apply calc_optimized_move_unfold|].
  split; [apply NoDup_get_sorted_moves|]. split.
  - intros m.
    rewrite lookup_get_sorted_moves by (assumption || apply NoDup_get_sorted_moves).
    rewrite lookup_get_sorted_moves by assumption.
    rewrite Hlh, Hlv, Hld. destruct (free b m) eqn:Hf; [|reflexivity].
    pose proof (free_range b m Hf) as Hr.
    destruct (row_of_move m Hr) as (lr & Hlr & Hmr).
    destruct (column_of_move m Hr) as (lc & Hlc & Hmc).
    pose proof (fscore_nonneg b sym Diagonals m) as Hnd.
    unfold score, fscore in *.
    rewrite (family_score_straight b sym Rows m lr), (family_score_straight b sym Columns m lc)
      by (assumption || discriminate).
    pose proof (occupancy_nonneg b sym lr). pose proof (occupancy_nonneg b sym lc).
    destruct (family_score b sym Diagonals m); f_equal; lia.
  - intros k v t Heq. exact (get_sorted_moves_head_max _ _ k v t Heq).
Qed.

(** The selection: both score dictionaries exist, and the result is the
    first key of their merge. *)
Lemma make_smart_move_spec (b : board) (s o : string) :
  is_board b ->
  exists ds do final,
    calc_optimized_move set_to_list b s = Ok ds
    /\ calc_optimized_move set_to_list b o = Ok do
    /\ final = get_sorted_moves ds do
    /\ make_smart_move set_to_list b s o
       = Ok (match keys final with m :: _ => m | [] => -1 end)
    /\ (forall m, lookup m final
                  = if free b m then Some (final_score b s o m) else None).
Proof.
  intros Hb.
  destruct (calc_optimized_move_spec b s Hb) as (ds & Hs & Hnds & Hls & _).
  destruct (calc_optimized_move_spec b o Hb) as (do & Ho & Hndo & Hlo & _).
  exists ds, do, (get_sorted_moves ds do).
  split; [assumption|]. split; [assumption|]. split; [reflexivity|]. split.
  - unfold make_smart_move. rewrite Hs, Ho. reflexivity.
  - intros m. rewrite lookup_get_sorted_moves, Hls, Hlo by assumption.
    destruct (free b m); [|reflexivity].
    assert (0 <= score b s m).
    { unfold score. pose proof (fscore_nonneg b s Rows m). lia. }
    f_equal. unfold final_score. lia.
Qed.

(** The chosen move carries the highest final score. *)
Lemma make_smart_move_max (b : board) (s o : string) :
  is_board b -> (exists m, free b m = true) ->
  exists r, make_smart_move set_to_list b s o = Ok r
            /\ free b r = true
            /\ forall m, free b m = true -> final_score b s o m <= final_score b s o r.
Proof.
  intros Hb [m0 Hm0].
  destruct (make_smart_move_spec b s o Hb) as (ds & do & final & _ & _ & Hf & Hm & Hl).
  rewrite Hm. destruct final as [|[r v] t] eqn:Hfinal.
  - specialize (Hl m0). rewrite Hm0 in Hl. discriminate.
  - exists r. split; [reflexivity|].
    pose proof (Hl r) as Hr. rewrite lookup_head in Hr.
    destruct (free b r); [|discriminate]. injection Hr as ->.
    split; [reflexivity|]. intros m Hfm.
    apply (get_sorted_moves_head_max ds do r (final_score b s o r) t) with (k' := m);
      [now symmetry|].
    rewrite <- Hf, Hl, Hfm. reflexivity.
Qed.

(** The first move of the player's own dictionary is chosen when no free
    move has a higher final score: ties go to the player's own order. *)
Lemma make_smart_move_first (b : board) (s o : string) (c v : Z) (t : dict) :
  is_board b ->
  calc_optimized_move set_to_list b s = Ok ((c, v) :: t) ->
  (forall m, free b m = true -> final_score b s o m <= final_score b s o c) ->
  make_smart_move set_to_list b s o = Ok c.
Proof.
  intros Hb Hs Hmax.
  destruct (make_smart_move_spec b s o Hb) as (ds & do & final & Hs' & Ho & Hf & Hm & Hl).
  rewrite Hs in Hs'. injection Hs' as <-.
  destruct (calc_optimized_move_spec b s Hb) as (ds' & Hs' & Hnds & Hls & _).
  rewrite Hs in Hs'. injection Hs' as <-.
  destruct (calc_optimized_move_spec b o Hb) as (do' & Ho' & Hndo & Hlo & _).
  rewrite Ho in Ho'. injection Ho' as <-.
  rewrite Hm. f_equal.
  set (pre := merge_into (merge_into [] ((c, v) :: t)) do).
  assert (Hndpre : NoDup (keys pre)) by (apply NoDup_merge_into, NoDup_merge_into; constructor).
  assert (Hkeys : keys pre = c :: keys t).
  { unfold pre. rewrite keys_merge_into_incl; [now apply keys_merge_into_nil|].
    rewrite keys_merge_into_nil by assumption.
    intros k Hk. apply In_keys_lookup in Hk. destruct Hk as [w Hw].
    apply (lookup_Some_key k (score b s k)). rewrite Hls.
    rewrite Hlo in Hw. now destruct (free b k). }
  assert (Hfin : final = sort_dictonary pre) by (rewrite Hf; apply get_sorted_moves_unfold).
  assert (Hlpre : forall k, lookup k pre = lookup k final).
  { intros k. rewrite Hfin. symmetry. now apply lookup_sort_dictonary. }
  destruct pre as [|[c' w] pt] eqn:Hpre; [discriminate|].
  simpl in Hkeys. injection Hkeys as -> Hkt.
  assert (Hw : w = final_score b s o c /\ free b c = true).
  { pose proof (Hlpre c) as H. rewrite lookup_head, Hl in H.
    destruct (free b c); [|discriminate]. injection H as ->. now split. }
  destruct Hw as [-> Hfc].
  rewrite Hfin, sort_dictonary_sorted by assumption.
  rewrite sorted_by_value_desc_head; [reflexivity|].
  intros [k w] Hin. simpl.
  assert (Hlk : lookup k ((c, final_score b s o c) :: pt) = Some w).
  { apply In_lookup; [assumption | now right]. }
  rewrite Hlpre, Hl in Hlk. destruct (free b k) eqn:Hfk; [|discriminate].
  injection Hlk as <-. now apply Hmax.
Qed.

(** The player's own dictionary starts with the move whose own score is the
    strict maximum, when there is one. *)
Lemma calc_optimized_move_head (b : board) (s : string) (c : Z) :
  is_board b -> free b c = true ->
  (forall m, free b m = true -> m <> c -> score b s m < score b s c) ->
  exists t, calc_optimized_move set_to_list b s = Ok ((c, score b s c) :: t).
Proof.
  intros Hb Hfc Hmax.
  destruct (calc_optimized_move_spec b s Hb) as (d & Hd & Hnd & Hl & Hhead).
  rewrite Hd. destruct d as [|[k v] t].
  - specialize (Hl c). rewrite Hfc in Hl. discriminate.
  - exists t. pose proof (Hl k) as Hk. rewrite lookup_head in Hk.
    destruct (free b k) eqn:Hfk; [|discriminate]. injection Hk as ->.
    destruct (Z.eq_dec k c) as [->|Hne]; [reflexivity|].
    specialize (Hmax k Hfk Hne).
    assert (score b s c <= score b s k).
    { apply (Hhead k (score b s k) t eq_refl c). now rewrite Hl, Hfc. }
    lia.
Qed.

(** Whatever the symbols, the result is a free move, or -1 when there is none. *)
Lemma make_smart_move_free (b : board) (s o : string) :
  is_board b ->
  exists m, make_smart_move set_to_list b s o = Ok m
            /\ ((m = -1 /\ forall m', free b m' = false) \/ free b m = true).
Proof.
  intros Hb.
  destruct (make_smart_move_spec b s o Hb) as (ds & do & final & _ & _ & _ & Hm & Hl).
  rewrite Hm. eexists. split; [reflexivity|].
  destruct (keys final) as [|m t] eqn:Hk.
  - left. split; [reflexivity|]. intros m'.
    specialize (Hl m'). destruct (free b m'); [|reflexivity].
    apply lookup_Some_key in Hl. rewrite Hk in Hl. destruct Hl.
  - right. assert (Hin : In m (keys final)) by (rewrite Hk; now left).
    apply In_keys_lookup in Hin. destruct Hin as [v Hv].
    rewrite Hl in Hv. now destruct (free b m).
Qed.

(** C4 (legality).  On a 3 by 3 board of cells "_", "X", "O" with at least
    one empty cell, [make_smart_move] returns a move between 1 and 9 whose
    cell on the input board is empty.  This holds for every set iteration
    order and for every pair of symbols, so in particular for "X" and "O". *)
Theorem make_smart_move_legal (b : board) (s o : string) :
  is_board b -> valid_cells b ->
  (exists m0, cell_at b m0 = Some "_"%string) ->
  exists m, make_smart_move set_to_list b s o = Ok m
            /\ 1 <= m <= 9 /\ cell_at b m = Some "_"%string.
Proof.
  intros Hb Hv [m0 Hm0].
  destruct (make_smart_move_free b s o Hb) as (m & Hm & [[_ Hnone]|Hfree]).
  - apply (free_empty b m0 Hv) in Hm0. rewrite Hnone in Hm0. discriminate.
  - exists m. split; [assumption|]. split; [now apply (free_range b)|].
    now apply free_empty.
Qed.

(** C6 (exhaustion sentinel).  On a 3 by 3 board without an empty cell,
    [make_smart_move] returns -1, which is not a move of the range 1..9. *)
Theorem make_smart_move_exhausted (b : board) (s o : string) :
  is_board b -> fully_occupied b ->
  make_smart_move set_to_list b s o = Ok (-1) /\ ~ (1 <= -1 <= 9).
Proof.
  intros Hb Hfull. split; [|lia].
  destruct (make_smart_move_free b s o Hb) as (m & Hm & [[-> _]|Hfree]); [assumption|].
  rewrite fully_occupied_free in Hfree by assumption. discriminate.
Qed.

(** C7, as the code has it.  [make_smart_move] validates nothing: on a 3 by 3
    board it raises no error for any pair of symbols, equal or not, inside
    the alphabet or not; it scores the board and returns a free move, or -1
    when no move is free. *)
Theorem make_smart_move_no_symbol_check (b : board) (s o : string) :
  is_board b ->
  (s = o \/ (s <> "X" /\ s <> "O")%string \/ (o <> "X" /\ o <> "O")%string) ->
  exists m, make_smart_move set_to_list b s o = Ok m
            /\ ((m = -1 /\ forall m', free b m' = false) \/ free b m = true).
Proof. intros Hb _. now apply make_smart_move_free. Qed.

(** C10 (score-map completeness).  On a 3 by 3 board of cells "_", "X", "O",
    the keys of the dictionary returned by [calc_optimized_move], for any
    symbol, are exactly the empty moves of the board, each once. *)
Theorem calc_optimized_move_keys (b : board) (sym : string) :
  is_board b -> valid_cells b ->
  exists d, calc_optimized_move set_to_list b sym = Ok d
            /\ NoDup (keys d)
            /\ forall m, In m (keys d) <-> cell_at b m = Some "_"%string.
Proof.
  intros Hb Hv.
  destruct (calc_optimized_move_spec b sym Hb) as (d & Hd & Hnd & Hl & _).
  exists d. split; [assumption|]. split; [assumption|].
  intros m. rewrite <- free_empty by assumption. split.
  - intros Hin. apply In_keys_lookup in Hin. destruct Hin as [v Hv'].
    rewrite Hl in Hv'. now destruct (free b m).
  - intros Hf. apply (lookup_Some_key m (score b sym m)). now rewrite Hl, Hf.
Qed.

(** C2, as the code has it.  On a 3 by 3 board, for every symbol and family,
    the family's score dictionary gives every free move that lies on a line
    of the family, the centre on the diagonals apart, the occupancy count of
    that line, and that line is the only one of the family through the move.
    (The centre, move 5, lies on both diagonals.) *)
Theorem family_scoring (b : board) (sym : string) (fam : family) :
  is_board b ->
  exists d, priority_map set_to_list b sym fam = Ok d
            /\ forall m line,
                fam <> Diagonals \/ m <> 5 ->
                In m (possible b) -> In line (lines_of fam) -> In m line ->
                lookup m d = Some (occupancy b sym line)
                /\ forall line', In line' (lines_of fam) -> In m line' -> line' = line.
Proof.
  intros Hb. destruct (priority_map_spec b sym fam Hb) as (d & Hd & _ & Hl).
  exists d. split; [exact Hd|].
  intros m line Hcentre Hposs Hline Hm.
  rewrite Hl. apply In_possible in Hposs; [|assumption]. rewrite Hposs. split.
  - destruct fam; try (apply family_score_straight; [discriminate | assumption..]).
    rewrite family_score_diagonal. destruct Hcentre as [?|Hm5]; [congruence|].
    simpl in Hline. destruct Hline as [<-|[<-|[]]]; simpl in Hm;
      repeat (destruct Hm as [<-|Hm]; [first [reflexivity | congruence]|]); destruct Hm.
  - intros line' Hline' Hm'.
    assert (Hm5 : fam = Diagonals -> m <> 5) by (destruct Hcentre; congruence).
    destruct fam; simpl in Hline, Hline';
      repeat (destruct Hline as [<-|Hline]); try destruct Hline;
      repeat (destruct Hline' as [<-|Hline']); try destruct Hline';
      try reflexivity; exfalso; simpl in Hm, Hm'; specialize (Hm5 eq_refl) || clear Hm5; lia.
Qed.

(** Completion preference away from the centre slip.  When one line holds
    two stones of the player and a free move, every other line holds fewer
    than two, and the line is not the main diagonal completed at the centre,
    [make_smart_move] returns the free move of that line. *)
Theorem completion_preference_off_centre (b : board) (s o : string) (L : list Z) (c : Z) :
  is_board b ->
  s = "X"%string \/ s = "O"%string -> o = "X"%string \/ o = "O"%string ->
  In L all_lines -> occupancy b s L = 2 -> In c L -> free b c = true ->
  (forall L', In L' all_lines -> L' <> L -> occupancy b s L' < 2) ->
  ~ (L = [1; 5; 9] /\ c = 5) ->
  make_smart_move set_to_list b s o = Ok c.
Proof.
  intros Hb Hs Ho HL Hocc Hc Hfc Hothers Hcentre.
  assert (Hsc : score b s c = 2).
  { apply Z.le_antisymm.
    - apply score_bound; [lia|]. intros line Hl Hm. now apply (occupancy_free_le_2 b s line c).
    - apply all_lines_family in HL. destruct HL as [fam Hfam].
      rewrite <- Hocc. apply (family_score_le_score b s fam).
      now apply family_score_line. }
  assert (Hsm : forall m, free b m = true -> m <> c -> score b s m <= 1).
  { intros m Hfm Hne. apply score_bound; [lia|]. intros line Hl Hm.
    destruct (list_eq_dec Z.eq_dec line L) as [->|Hneq].
    - now apply (occupancy_two_free b s L m c).
    - specialize (Hothers line Hl Hneq). lia. }
  assert (Hom : forall m, free b m = true -> score b o m <= 2).
  { intros m Hfm. apply score_bound; [lia|]. intros line Hl Hm.
    now apply (occupancy_free_le_2 b o line m). }
  destruct (calc_optimized_move_head b s c Hb Hfc) as [t Ht].
  { intros m Hfm Hne. specialize (Hsm m Hfm Hne). lia. }
  apply (make_smart_move_first b s o c (score b s c) t Hb Ht).
  intros m Hfm. unfold final_score. specialize (Hom m Hfm).
  destruct (Z.eq_dec m c) as [->|Hne]; [lia|]. specialize (Hsm m Hfm Hne). lia.
Qed.

(** Blocking away from the centre slip.  When the opponent has a line with
    two stones and a free move, other than the main diagonal open at the
    centre, and no line through a free move holds two stones of the player,
    [make_smart_move] returns a free move on a line that holds two stones of
    the opponent. *)
Theorem blocking_off_centre (b : board) (s o : string) (L : list Z) (c : Z) :
  is_board b ->
  s = "X"%string \/ s = "O"%string -> o = "X"%string \/ o = "O"%string ->
  In L all_lines -> occupancy b o L = 2 -> In c L -> free b c = true ->
  ~ (L = [1; 5; 9] /\ c = 5) ->
  (forall L' m, In L' all_lines -> In m L' -> free b m = true -> occupancy b s L' < 2) ->
  exists r L', make_smart_move set_to_list b s o = Ok r
               /\ free b r = true /\ In L' all_lines /\ In r L' /\ occupancy b o L' = 2.
Proof.
  intros Hb Hs Ho HL Hocc Hc Hfc Hcentre Hself.
  destruct (make_smart_move_max b s o Hb (ex_intro _ c Hfc)) as (r & Hr & Hfr & Hmax).
  assert (Hoc : 2 <= score b o c).
  { apply all_lines_family in HL. destruct HL as [fam Hfam].
    rewrite <- Hocc. apply (family_score_le_score b o fam). now apply family_score_line. }
  assert (Hsr : score b s r <= 1).
  { apply score_bound; [lia|]. intros line Hl Hm. specialize (Hself line r Hl Hm Hfr). lia. }
  specialize (Hmax c Hfc). unfold final_score in Hmax.
  assert (Hor : 2 <= score b o r) by lia.
  destruct (score_line b o r) as (L' & HL' & HrL' & HoccL'); [lia|].
  exists r, L'. repeat split; try assumption.
  pose proof (occupancy_free_le_2 b o L' r Ho HL' HrL' Hfr). lia.
Qed.

(** C1 at the centre.  With "O" on moves 1 and 9, "X" on 2 and 4 and "O" to
    move, the main diagonal is the only line with two stones of "O", its free
    move is the centre 5, every other line holds fewer than two stones of "O":
    whatever the set iteration order, [make_smart_move] returns a move other
    than 5. *)
Theorem completion_missed_at_centre :
  occupancy own_diagonal_board cO [1; 5; 9] = 2
  /\ free own_diagonal_board 5 = true
  /\ (forall L', In L' all_lines -> L' <> [1; 5; 9] -> occupancy own_diagonal_board cO L' < 2)
  /\ exists r, make_smart_move set_to_list own_diagonal_board cO cX = Ok r /\ r <> 5.
Proof.
  split; [reflexivity|]. split; [reflexivity|]. split.
  { intros L' HL' Hne. cbv in HL'.
    repeat (destruct HL' as [<-|HL']; [first [congruence | vm_compute; reflexivity]|]).
    destruct HL'. }
  assert (Hb : is_board own_diagonal_board) by (split; [reflexivity | repeat constructor]).
  assert (Hfree : forall m, free own_diagonal_board m = true ->
                            m = 3 \/ m = 5 \/ m = 6 \/ m = 7 \/ m = 8).
  { intros m Hf. pose proof (free_range _ _ Hf) as Hr.
    destruct (move_cases m Hr) as [->|[->|[->|[->|[->|[->|[->|[->| ->]]]]]]]];
      first [discriminate Hf | tauto]. }
  assert (Hfin : forall m, free own_diagonal_board m = true ->
                           final_score own_diagonal_board cO cX m = 1).
  { intros m Hf. destruct (Hfree m Hf) as [->|[->|[->|[->| ->]]]]; reflexivity. }
  destruct (calc_optimized_move_spec own_diagonal_board cO Hb) as (d & Hd & Hnd & Hl & Hhead).
  destruct d as [|[k v] t].
  { specialize (Hl 3). discriminate Hl. }
  pose proof (Hl k) as Hk. rewrite lookup_head in Hk.
  destruct (free own_diagonal_board k) eqn:Hfk; [|discriminate]. injection Hk as ->.
  exists k. split.
  - apply (make_smart_move_first own_diagonal_board cO cX k _ t Hb Hd).
    intros m Hf. rewrite (Hfin m Hf), (Hfin k Hfk). lia.
  - intros ->. specialize (Hhead 5 _ t eq_refl 3 1). 
    assert (H : 1 <= score own_diagonal_board cO 5) by (apply Hhead; now rewrite Hl).
    vm_compute in H. now apply H.
Qed.

(** The centre threat with no stone of the player on the board: whatever the
    set iteration order, [make_smart_move] leaves the centre open. *)
Lemma block_missed_on_bare_board :
  exists r, make_smart_move set_to_list bare_diagonal_board cO cX = Ok r /\ r <> 5.
Proof.
  assert (Hb : is_board bare_diagonal_board) by (split; [reflexivity | repeat constructor]).
  destruct (make_smart_move_max bare_diagonal_board cO cX Hb) as (r & Hr & Hfr & Hmax).
  { exists 2. reflexivity. }
  exists r. split; [assumption|]. intros ->.
  specialize (Hmax 2 eq_refl). vm_compute in Hmax. now apply Hmax.
Qed.

Lemma possible_range (b : board) (r : Z) : is_board b -> In r (possible b) -> 1 <= r <= 9.
Proof. intros Hb Hr. apply (free_range b). now apply In_possible. Qed.

(** With no possible move every run is still in the loop, whatever was drawn. *)
Lemma loop_never_returns (n : nat) (r : option Z) (p : Q) :
  In (r, p) (random_move_loop n []) -> r = None.
Proof.
  revert r p. induction n as [|n IH]; intros r p Hin.
  - simpl in Hin. destruct Hin as [[= <- _]|[]]. reflexivity.
  - cbn [random_move_loop] in Hin. unfold dbind in Hin.
    apply in_flat_map in Hin. destruct Hin as ([x px] & _ & Hin).
    cbn [fst snd mem existsb] in Hin. apply in_map_iff in Hin.
    destruct Hin as ([r' p'] & [= <- _] & Hin). now apply (IH r' p').
Qed.

Lemma qpow_one (q : Q) (n : nat) : (q == 1)%Q -> (qpow q n == 1)%Q.
Proof.
  intros Hq. induction n as [|n IH]; cbn [qpow]; [reflexivity|]. rewrite IH, Hq. ring.
Qed.

(** C9 (random move).  [random.randint(1, 9)] is a uniform draw.  On a 3 by 3
    board of cells "_", "X", "O" with [k] empty cells, after at most [n]
    draws [make_random_move] has returned each empty move with probability
    [(1 - ((9 - k) / 9) ^ n) / k], the same for all of them, has returned no
    other move, and is still in its loop with probability [((9 - k) / 9) ^ n].
    With an empty cell that probability falls below every positive bound:
    the loop ends with probability 1, on a uniformly drawn empty move.
    Without an empty cell it is 1 for every [n], and no run has returned:
    the loop never ends. *)
Theorem make_random_move_uniform (b : board) :
  is_board b -> valid_cells b ->
  let k := len (possible b) in
  let q := (inject_Z (9 - k) / 9)%Q in
  (forall m, In m (possible b) <-> cell_at b m = Some "_"%string)
  /\ (forall n m, cell_at b m = Some "_"%string ->
                  (prob (returns m) (make_random_move set_to_list n b)
                   == (1 - qpow q n) / inject_Z k)%Q)
  /\ (forall n m, cell_at b m <> Some "_"%string ->
                  (prob (returns m) (make_random_move set_to_list n b) == 0)%Q)
  /\ (forall n, (prob still_looping (make_random_move set_to_list n b) == qpow q n)%Q)
  /\ ((exists m, cell_at b m = Some "_"%string) ->
      forall eps, (0 < eps)%Q ->
                  exists N, forall n, (N <= n)%nat ->
                    (prob still_looping (make_random_move set_to_list n b) < eps)%Q)
  /\ ((forall m, cell_at b m <> Some "_"%string) ->
      forall n,
        (prob still_looping (make_random_move set_to_list n b) == 1)%Q
        /\ forall r p, In (r, p) (make_random_move set_to_list n b) -> r = None).
Proof.
  intros Hb Hv k q.
  assert (Hnd : NoDup (possible b)) by apply NoDup_possible.
  assert (Hrange : forall r, In r (possible b) -> 1 <= r <= 9)
    by (intros r; now apply possible_range).
  assert (Hempty : forall m, In m (possible b) <-> cell_at b m = Some "_"%string).
  { intros m. rewrite In_possible by assumption. now apply free_empty. }
  assert (Hk9 : 0 <= k <= 9).
  { pose proof (count_missed (possible b) Hnd Hrange) as H. unfold len in H. unfold k, len. lia. }
  assert (Hstill : forall n,
             (prob still_looping (make_random_move set_to_list n b) == qpow q n)%Q).
  { intros n. apply loop_still_looping; assumption. }
  split; [exact Hempty|]. split.
  { intros n m Hm. apply Hempty in Hm.
    assert (Hkpos : (0 < inject_Z k)%Q).
    { change 0%Q with (inject_Z 0). rewrite <- Zlt_Qlt. unfold k, len.
      destruct (possible b); [destruct Hm | simpl; lia]. }
    pose proof (loop_returns_free (possible b) Hnd Hrange m n Hm) as H.
    unfold make_random_move. fold k in H. fold q in H. rewrite <- H. field. lra. }
  split.
  { intros n m Hm. apply loop_returns_taken; try assumption. now rewrite Hempty. }
  split; [exact Hstill|]. split.
  { intros [m Hm] eps Heps. apply Hempty in Hm.
    assert (Hk1 : 1 <= k).
    { unfold k, len. destruct (possible b); [destruct Hm | simpl; lia]. }
    assert (Hq0 : (0 <= q)%Q).
    { unfold q. apply Qle_shift_div_l; [lra|]. rewrite Qmult_0_l.
      change 0%Q with (inject_Z 0). rewrite <- Zle_Qle. lia. }
    assert (Hq1 : (q <= 8 # 9)%Q).
    { unfold q. apply Qle_shift_div_r; [lra|].
      setoid_replace ((8 # 9) * 9)%Q with (inject_Z 8) by reflexivity.
      rewrite <- Zle_Qle. lia. }
    destruct (qpow_small q Hq0 Hq1 eps Heps) as [N HN].
    exists N. intros n Hn. rewrite Hstill. now apply HN. }
  intros Hnone n.
  assert (Hnil : possible b = []).
  { destruct (possible b) as [|m l] eqn:E; [reflexivity|].
    exfalso. apply (Hnone m). apply Hempty. now left. }
  split.
  - rewrite Hstill. apply qpow_one. unfold q, k. rewrite Hnil. reflexivity.
  - unfold make_random_move. rewrite Hnil. apply loop_never_returns.
Qed.

End Engine.

(** C2 as stated fails at the centre: with one "X" in the top-left corner
    the main diagonal 1-5-9 holds one "X", the free move 5 lies on it, and the
    diagonal score dictionary gives move 5 the score 0, the count of the other
    diagonal 3-5-7, on which move 5 lies as well. *)
Lemma centre_on_two_diagonals :
  is_board corner_board
  /\ In 5 (get_possible_moves ascending corner_board)
  /\ In [1; 5; 9] (lines_of Diagonals) /\ In 5 [1; 5; 9]
  /\ occupancy corner_board cX [1; 5; 9] = 1
  /\ (exists d, priority_map ascending corner_board cX Diagonals = Ok d
                /\ lookup 5 d = Some 0)
  /\ In [3; 5; 7] (lines_of Diagonals) /\ In 5 [3; 5; 7] /\ [1; 5; 9] <> [3; 5; 7].
Proof.
  split; [split; [reflexivity | repeat constructor]|].
  split; [vm_compute; tauto|].
  split; [simpl; tauto|]. split; [simpl; tauto|]. split; [reflexivity|].
  split; [eexists; split; vm_compute; reflexivity|].
  split; [simpl; tauto|]. split; [simpl; tauto|]. discriminate.
Qed.

(** C3 at the centre.  With "X" on moves 1 and 9, "O" on move 4 and "O" to
    move, the opponent "X" has two stones on the main diagonal with the centre
    free, no line holds two stones of "O", and the main diagonal is the only
    line with two stones of "X": with the free moves taken in ascending order,
    [make_smart_move] returns move 7, which is not on that diagonal. *)
Theorem block_missed_at_centre :
  occupancy threat_diagonal_board cX [1; 5; 9] = 2
  /\ free threat_diagonal_board 5 = true
  /\ forallb (fun L => occupancy threat_diagonal_board cO L <? 2) all_lines = true
  /\ filter (fun L => occupancy threat_diagonal_board cX L =? 2) all_lines = [[1; 5; 9]]
  /\ make_smart_move ascending threat_diagonal_board cO cX = Ok 7
  /\ ~ In 7 [1; 5; 9].
Proof.
  repeat split; try reflexivity. simpl. intuition discriminate.
Qed.

(** C7 as stated fails: nothing is rejected.  On the empty board, called
    with "X" for both players, [make_smart_move] scores the board and returns
    move 1; called with a symbol "Z" outside the alphabet it does the same. *)
Lemma equal_symbols_not_rejected :
  make_smart_move ascending empty_board cX cX = Ok 1
  /\ make_smart_move ascending empty_board "Z"%string cX = Ok 1.
Proof. split; reflexivity. Qed.

(** ** The theorems at concrete inputs *)

Lemma is_board_example : is_board example_board.
Proof. split; [reflexivity | repeat constructor]. Qed.

Lemma valid_cells_example : valid_cells example_board.
Proof. repeat constructor; cbv; tauto. Qed.

Lemma make_smart_move_legal_witness :
  is_board example_board /\ valid_cells example_board
  /\ (exists m0, cell_at example_board m0 = Some "_"%string)
  /\ exists m, make_smart_move ascending example_board cX cO = Ok m
               /\ 1 <= m <= 9 /\ cell_at example_board m = Some "_"%string.
Proof.
  split; [exact is_board_example|]. split; [exact valid_cells_example|].
  split; [exists 5; reflexivity|].
  apply (make_smart_move_legal ascending ascending_perm example_board cX cO
           is_board_example valid_cells_example).
  exists 5. reflexivity.
Defined.

Lemma make_smart_move_exhausted_witness :
  is_board full_board /\ fully_occupied full_board
  /\ make_smart_move ascending full_board cX cO = Ok (-1) /\ ~ (1 <= -1 <= 9).
Proof.
  assert (Hb : is_board full_board) by (split; [reflexivity | repeat constructor]).
  assert (Hf : fully_occupied full_board) by (repeat constructor; cbv; tauto).
  split; [exact Hb|]. split; [exact Hf|].
  exact (make_smart_move_exhausted ascending ascending_perm full_board cX cO Hb Hf).
Defined.

Lemma make_smart_move_no_symbol_check_witness :
  is_board corner_board /\ cX = cX
  /\ exists m, make_smart_move ascending corner_board cX cX = Ok m
               /\ ((m = -1 /\ forall m', free corner_board m' = false)
                   \/ free corner_board m = true).
Proof.
  assert (Hb : is_board corner_board) by (split; [reflexivity | repeat constructor]).
  split; [exact Hb|]. split; [reflexivity|].
  exact (make_smart_move_no_symbol_check ascending ascending_perm corner_board cX cX Hb
           (or_introl eq_refl)).
Defined.

Lemma calc_optimized_move_keys_witness :
  is_board example_board /\ valid_cells example_board
  /\ exists d, calc_optimized_move ascending example_board cX = Ok d
               /\ NoDup (keys d)
               /\ forall m, In m (keys d) <-> cell_at example_board m = Some "_"%string.
Proof.
  split; [exact is_board_example|]. split; [exact valid_cells_example|].
  exact (calc_optimized_move_keys ascending ascending_perm example_board cX
           is_board_example valid_cells_example).
Defined.

Lemma family_scoring_witness :
  is_board example_board
  /\ exists d, priority_map ascending example_board cX Rows = Ok d
               /\ forall m line,
                   Rows <> Diagonals \/ m <> 5 ->
                   In m (get_possible_moves ascending example_board) ->
                   In line (lines_of Rows) -> In m line ->
                   lookup m d = Some (occupancy example_board cX line)
                   /\ forall line', In line' (lines_of Rows) -> In m line' -> line' = line.
Proof.
  split; [exact is_board_example|].
  exact (family_scoring ascending ascending_perm example_board cX Rows is_board_example).
Defined.

Lemma get_sorted_moves_merge_max_witness :
  priority_dict [(1, 2); (5, 0)] /\ priority_dict [(5, 1); (7, 1)]
  /\ lookup 5 (get_sorted_moves [(1, 2); (5, 0)] [(5, 1); (7, 1)]) = Some 1.
Proof.
  assert (HA : priority_dict [(1, 2); (5, 0)]).
  { split; [repeat constructor; simpl; intuition discriminate|].
    intros k v [H|[H|[]]]; injection H as <- <-; lia. }
  assert (HB : priority_dict [(5, 1); (7, 1)]).
  { split; [repeat constructor; simpl; intuition discriminate|].
    intros k v [H|[H|[]]]; injection H as <- <-; lia. }
  split; [exact HA|]. split; [exact HB|].
  destruct (get_sorted_moves_merge_max [(1, 2); (5, 0)] [(5, 1); (7, 1)] HA HB)
    as (Hkeys & Hval & _).
  apply (Hval 5). apply Hkeys. right. simpl. tauto.
Defined.

Lemma completion_missed_at_centre_witness :
  exists r, make_smart_move ascending own_diagonal_board cO cX = Ok r /\ r <> 5.
Proof.
  exact (proj2 (proj2 (proj2 (completion_missed_at_centre ascending ascending_perm)))).
Defined.

Lemma make_random_move_uniform_witness :
  is_board example_board /\ valid_cells example_board
  /\ (prob (returns 5) (make_random_move ascending 2 example_board)
      == (1 - qpow (inject_Z (9 - 3) / 9) 2) / inject_Z 3)%Q.
Proof.
  split; [exact is_board_example|]. split; [exact valid_cells_example|].
  exact (proj1 (proj2 (make_random_move_uniform ascending ascending_perm example_board
                         is_board_example valid_cells_example)) 2%nat 5 eq_refl).
Defined.

(** ** Transposition *)

Lemma index_of_nat {A : Type} (l : list A) (i : nat) :
  index l (Z.of_nat i) = match nth_error l i with
                         | Some a => Ok a
                         | None => Raise IndexError
                         end.
Proof.
  unfold index.
  assert (H : (Z.of_nat i <? 0) = false) by (apply Z.ltb_ge; lia).
  rewrite H, H, Nat2Z.id. reflexivity.
Qed.

Lemma range_from_seq (s n : nat) : range_from (Z.of_nat s) n = map Z.of_nat (seq s n).
Proof.
  revert s. induction n as [|n IH]; intros s; [reflexivity|].
  simpl. f_equal. rewrite <- IH. f_equal. lia.
Qed.

Lemma range_len {A : Type} (l : list A) : range 0 (len l) = map Z.of_nat (seq 0 (List.length l)).
Proof.
  unfold range, len. rewrite Z.sub_0_r, Nat2Z.id. apply (range_from_seq 0).
Qed.

Lemma mapM_map {A B : Type} (f : A -> res B) (f' : A -> B) (l : list A) :
  (forall a, In a l -> f a = Ok (f' a)) -> mapM f l = Ok (map f' l).
Proof.
  induction l as [|a l IH]; intros H; [reflexivity|].
  simpl. rewrite H by now left. simpl. rewrite IH; [reflexivity|].
  intros a' Ha'. apply H. now right.
Qed.

Lemma column_read_from {A : Type} (pre suf : list (list A)) (i : nat) :
  Forall (fun row => (i < List.length row)%nat) suf ->
  mapM (fun j => row <- index (pre ++ suf) j ;; index row (Z.of_nat i))
       (map Z.of_nat (seq (List.length pre) (List.length suf)))
  = Ok (column suf i).
Proof.
  revert pre. induction suf as [|row suf IH]; intros pre Hall; [reflexivity|].
  inversion Hall as [|? ? Hrow Hall']; subst.
  cbn [List.length seq map mapM].
  rewrite index_of_nat, nth_error_app2, Nat.sub_diag by lia. cbn [nth_error bind].
  rewrite index_of_nat.
  destruct (nth_error row i) as [a|] eqn:E.
  - cbn [bind].
    replace (pre ++ row :: suf) with ((pre ++ [row]) ++ suf) by now rewrite <- app_assoc.
    replace (S (List.length pre)) with (List.length (pre ++ [row]))
      by (rewrite length_app; simpl; lia).
    rewrite IH by assumption. cbn [bind column flat_map]. rewrite E. reflexivity.
  - apply nth_error_None in E. lia.
Qed.

Lemma column_length {A : Type} (g : list (list A)) (i : nat) :
  Forall (fun row => (i < List.length row)%nat) g -> List.length (column g i) = List.length g.
Proof.
  induction 1 as [|row g Hrow _ IH]; [reflexivity|].
  cbn [column flat_map]. destruct (nth_error row i) eqn:E.
  - simpl. f_equal. exact IH.
  - apply nth_error_None in E. lia.
Qed.

Lemma column_nth {A : Type} (g : list (list A)) (i j : nat) :
  Forall (fun row => (i < List.length row)%nat) g ->
  nth_error (column g i) j = grid_cell g j i.
Proof.
  intros Hall. revert j. induction Hall as [|row g Hrow _ IH]; intros j.
  - unfold grid_cell. simpl. now rewrite !nth_error_nil.
  - cbn [column flat_map]. destruct (nth_error row i) as [a|] eqn:E.
    + destruct j as [|j]; [unfold grid_cell; simpl; now rewrite E|].
      simpl. rewrite IH. reflexivity.
    + apply nth_error_None in E. lia.
Qed.

(** [transposed] of a rectangular grid is its matrix transpose. *)
Lemma transposed_rectangular {A : Type} (g : list (list A)) (m : nat) :
  g <> [] -> Forall (fun row => List.length row = m) g ->
  exists t, transposed g = Ok t
            /\ List.length t = m
            /\ Forall (fun col => List.length col = List.length g) t
            /\ forall i j, grid_cell t i j = grid_cell g j i.
Proof.
  intros Hne Hrect.
  destruct g as [|row0 g']; [congruence|]. set (g := row0 :: g') in *.
  assert (Hm : List.length row0 = m) by now inversion Hrect.
  assert (Hcol : forall i, (i < m)%nat -> Forall (fun row => (i < List.length row)%nat) g).
  { intros i Hi. eapply Forall_impl; [|exact Hrect]. simpl. intros row Hrow. lia. }
  exists (map (column g) (seq 0 m)).
  split.
  { unfold transposed. change (index g 0) with (Ok row0). cbn [bind].
    rewrite !range_len, Hm.
    rewrite (mapM_map _ (fun z => column g (Z.to_nat z))).
    - rewrite map_map. f_equal. apply map_ext. intros i. now rewrite Nat2Z.id.
    - intros a Ha. apply in_map_iff in Ha. destruct Ha as (i & <- & Hi).
      apply in_seq in Hi. rewrite Nat2Z.id.
      apply (column_read_from [] g i). apply Hcol. lia. }
  split; [now rewrite length_map, length_seq|].
  split.
  { apply Forall_forall. intros col Hin. apply in_map_iff in Hin.
    destruct Hin as (i & <- & Hi). apply in_seq in Hi. apply column_length, Hcol. lia. }
  intros i j. unfold grid_cell at 1. rewrite nth_error_map.
  destruct (Nat.lt_ge_cases i m) as [Hi|Hi].
  - rewrite nth_error_seq. destruct (Nat.ltb_spec i m) as [_|]; [|lia].
    cbn [option_map Nat.add]. apply column_nth, Hcol, Hi.
  - rewrite (proj2 (nth_error_None (seq 0 m) i)) by (rewrite length_seq; lia).
    cbn [option_map]. unfold grid_cell. destruct (nth_error g j) as [row|] eqn:E; [|reflexivity].
    symmetry. apply nth_error_None.
    apply nth_error_In in E. rewrite Forall_forall in Hrect. rewrite (Hrect row E). lia.
Qed.

(** ** The engine on the heap only reads and allocates *)

Module HeapFacts.
Import Heap.
Local Open Scope heap_scope.

Lemma preserves_ret {A : Type} (a : A) : preserves (ret a).
Proof. intros h. exists []. simpl. now rewrite app_nil_r. Qed.

Lemma preserves_lift {A : Type} (r : res A) : preserves (lift r).
Proof. intros h. exists []. simpl. now rewrite app_nil_r. Qed.

Lemma preserves_load (v : value) : preserves (load v).
Proof.
  intros h. exists []. rewrite app_nil_r. unfold load.
  destruct v as [s|l]; [reflexivity|]. now destruct (lookup h l).
Qed.

Lemma preserves_alloc (o : list value) : preserves (alloc o).
Proof. intros h. now exists [o]. Qed.

Lemma preserves_bind {A B : Type} (c : M A) (k : A -> M B) :
  preserves c -> (forall a, preserves (k a)) -> preserves (bind c k).
Proof.
  intros Hc Hk h. unfold bind. destruct (Hc h) as [f1 H1].
  destruct (c h) as [[a|e] h']; simpl in H1; subst h'.
  - destruct (Hk a (h ++ f1)) as [f2 H2]. exists (f1 ++ f2). now rewrite H2, app_assoc.
  - now exists f1.
Qed.

Lemma preserves_foldM {A S : Type} (body : S -> A -> M S) (l : list A) (s : S) :
  (forall s a, preserves (body s a)) -> preserves (foldM body s l).
Proof.
  intros Hb. revert s. induction l as [|a l IH]; intros s; simpl.
  - apply preserves_ret.
  - apply preserves_bind; [apply Hb | intros s'; apply IH].
Qed.

Lemma preserves_mapM {A B : Type} (f : A -> M B) (l : list A) :
  (forall a, preserves (f a)) -> preserves (mapM f l).
Proof.
  intros Hf. induction l as [|a l IH]; simpl.
  - apply preserves_ret.
  - apply preserves_bind; [apply Hf | intros b].
    apply preserves_bind; [apply IH | intros bs; apply preserves_ret].
Qed.

Lemma preserves_let_pair {A B C : Type} (p : A * B) (k : A -> B -> M C) :
  (forall a b, preserves (k a b)) -> preserves (let (a, b) := p in k a b).
Proof. intros H. destruct p. apply H. Qed.

Ltac preserve :=
  repeat first
    [ apply preserves_ret | apply preserves_lift | apply preserves_load
    | apply preserves_alloc
    | apply preserves_bind; [|intros ?]
    | apply preserves_foldM; intros ? ?
    | apply preserves_mapM; intros ?
    | apply preserves_let_pair; intros ? ? ].

Lemma preserves_getitem (v : value) (i : Z) : preserves (getitem v i).
Proof. unfold getitem. preserve. Qed.

Lemma preserves_len_of (v : value) : preserves (len_of v).
Proof. unfold len_of. preserve. Qed.

Lemma preserves_get_player_fields (g : value) (s : string) : preserves (get_player_fields g s).
Proof. unfold get_player_fields, getitem, len_of. preserve. Qed.

Lemma preserves_get_horizontal_counts (g : value) (s : string) :
  preserves (get_horizontal_counts g s).
Proof. unfold get_horizontal_counts, getitem, len_of. preserve. Qed.

Lemma preserves_get_diagonal_counts (g : value) (s : string) :
  preserves (get_diagonal_counts g s).
Proof. unfold get_diagonal_counts, getitem, len_of. preserve. Qed.

Lemma preserves_transposed (g : value) : preserves (transposed g).
Proof. unfold transposed, getitem, len_of. preserve. Qed.

Lemma preserves_get_vertical_counts (g : value) (s : string) :
  preserves (get_vertical_counts g s).
Proof.
  unfold get_vertical_counts.
  preserve; first [apply preserves_transposed | apply preserves_get_horizontal_counts].
Qed.

Lemma preserves_get_possible_moves (f : list Z -> list Z) (g : value) :
  preserves (get_possible_moves f g).
Proof. unfold get_possible_moves. preserve; apply preserves_get_player_fields. Qed.

Lemma preserves_calc_optimized_move (f : list Z -> list Z) (g : value) (s : string) :
  preserves (calc_optimized_move f g s).
Proof.
  unfold calc_optimized_move.
  preserve; first [ apply preserves_get_possible_moves | apply preserves_get_horizontal_counts
                  | apply preserves_get_vertical_counts | apply preserves_get_diagonal_counts ].
Qed.

Lemma preserves_make_smart_move (f : list Z -> list Z) (g : value) (s o : string) :
  preserves (make_smart_move f g s o).
Proof. unfold make_smart_move. preserve; apply preserves_calc_optimized_move. Qed.

End HeapFacts.

Lemma lookup_ext (h fresh : Heap.heap) (l : nat) (o : list Heap.value) :
  Heap.lookup h l = Some o -> Heap.lookup (h ++ fresh) l = Some o.
Proof.
  unfold Heap.lookup. intros H. rewrite nth_error_app1; [assumption|].
  apply nth_error_Some. congruence.
Qed.

Lemma lookup_extend (h : Heap.heap) (o' : list Heap.value) (l : nat) (o : list Heap.value) :
  Heap.lookup h l = Some o -> Heap.lookup (Heap.extend h o') l = Some o.
Proof. apply lookup_ext. Qed.

Lemma lookup_new (h : Heap.heap) (o : list Heap.value) :
  Heap.lookup (Heap.extend h o) (Heap.size h) = Some o.
Proof.
  unfold Heap.lookup, Heap.extend, Heap.size.
  rewrite nth_error_app2, Nat.sub_diag by lia. reflexivity.
Qed.

Lemma is_grid_ext (h fresh : Heap.heap) (g : Heap.value) (b : board) :
  is_grid h g b -> is_grid (h ++ fresh) g b.
Proof.
  intros (l & rows & -> & Hl & Hrows). exists l, rows.
  split; [reflexivity|]. split; [now apply lookup_ext|].
  clear Hl. induction Hrows as [|r row rows b Hr Hrows IH].
  - constructor.
  - constructor; [now apply lookup_ext | exact IH].
Qed.

Lemma is_grid_3 (h : Heap.heap) (g : Heap.value) (b : board) :
  is_grid h g b -> is_board b ->
  exists l r0 r1 r2 c1 c2 c3 c4 c5 c6 c7 c8 c9,
    g = Heap.VRef l /\ b = [[c1; c2; c3]; [c4; c5; c6]; [c7; c8; c9]]
    /\ Heap.lookup h l = Some [Heap.VRef r0; Heap.VRef r1; Heap.VRef r2]
    /\ Heap.lookup h r0 = Some [Heap.VStr c1; Heap.VStr c2; Heap.VStr c3]
    /\ Heap.lookup h r1 = Some [Heap.VStr c4; Heap.VStr c5; Heap.VStr c6]
    /\ Heap.lookup h r2 = Some [Heap.VStr c7; Heap.VStr c8; Heap.VStr c9].
Proof.
  intros (l & rows & -> & Hl & Hrows) Hb.
  destruct (is_board_inv b Hb) as (c1 & c2 & c3 & c4 & c5 & c6 & c7 & c8 & c9 & ->).
  inversion Hrows as [|r0 ? rows1 ? H0 Hrows1]; subst.
  inversion Hrows1 as [|r1 ? rows2 ? H1 Hrows2]; subst.
  inversion Hrows2 as [|r2 ? rows3 ? H2 Hrows3]; subst.
  inversion Hrows3; subst.
  exists l, r0, r1, r2, c1, c2, c3, c4, c5, c6, c7, c8, c9. simpl in *. auto 10.
Qed.

Lemma load_known (h : Heap.heap) (l : nat) (o : list Heap.value) :
  Heap.lookup h l = Some o -> Heap.load (Heap.VRef l) h = (Ok o, h).
Proof. intros H. unfold Heap.load. now rewrite H. Qed.

Lemma getitem_known (h : Heap.heap) (l : nat) (o : list Heap.value) (i : Z) :
  Heap.lookup h l = Some o -> Heap.getitem (Heap.VRef l) i h = (index o i, h).
Proof. intros H. unfold Heap.getitem, Heap.bind. rewrite (load_known h l o H). reflexivity. Qed.

Lemma len_of_known (h : Heap.heap) (l : nat) (o : list Heap.value) :
  Heap.lookup h l = Some o -> Heap.len_of (Heap.VRef l) h = (Ok (len o), h).
Proof. intros H. unfold Heap.len_of, Heap.bind. rewrite (load_known h l o H). reflexivity. Qed.

Lemma bind_run {A B : Type} (c : Heap.M A) (k : A -> Heap.M B) (h h' : Heap.heap) (a : A) :
  c h = (Ok a, h') -> Heap.bind c k h = k a h'.
Proof. intros H. unfold Heap.bind. now rewrite H. Qed.

(** Running the reads of a 3 by 3 grid whose four objects are known. *)
Ltac run_reads Hl H0 H1 H2 :=
  let rhs := fresh "rhs" in
  let Hrhs := fresh "Hrhs" in
  match goal with |- _ = ?R => remember R as rhs eqn:Hrhs end;
  cbv - [Heap.lookup Heap.size Heap.extend String.eqb sort_dictonary];
  repeat (progress (rewrite ?Hl, ?H0, ?H1, ?H2,
                      ?(lookup_extend _ _ _ _ Hl), ?(lookup_extend _ _ _ _ H0),
                      ?(lookup_extend _ _ _ _ H1), ?(lookup_extend _ _ _ _ H2),
                      ?(lookup_extend _ _ _ _ (lookup_extend _ _ _ _ Hl)),
                      ?(lookup_extend _ _ _ _ (lookup_extend _ _ _ _ H0)),
                      ?(lookup_extend _ _ _ _ (lookup_extend _ _ _ _ H1)),
                      ?(lookup_extend _ _ _ _ (lookup_extend _ _ _ _ H2)));
          cbv - [Heap.lookup Heap.size Heap.extend String.eqb sort_dictonary]);
  subst rhs.

Ltac split_cells sym :=
  repeat match goal with
         | |- context [String.eqb ?c sym] => destruct (String.eqb c sym)
         end.

Lemma get_player_fields_refines (h : Heap.heap) (g : Heap.value) (b : board) (sym : string) :
  is_grid h g b -> is_board b ->
  Heap.get_player_fields g sym h = (Ok (get_player_fields b sym), h).
Proof.
  intros Hg Hb.
  destruct (is_grid_3 h g b Hg Hb)
    as (l & r0 & r1 & r2 & c1 & c2 & c3 & c4 & c5 & c6 & c7 & c8 & c9
        & -> & -> & Hl & H0 & H1 & H2).
  run_reads Hl H0 H1 H2. cbv - [String.eqb sort_dictonary]. split_cells sym; reflexivity.
Qed.

Lemma get_horizontal_counts_refines (h : Heap.heap) (g : Heap.value) (b : board)
    (sym : string) :
  is_grid h g b -> is_board b ->
  Heap.get_horizontal_counts g sym h = (Ok (get_horizontal_counts b sym), h).
Proof.
  intros Hg Hb.
  destruct (is_grid_3 h g b Hg Hb)
    as (l & r0 & r1 & r2 & c1 & c2 & c3 & c4 & c5 & c6 & c7 & c8 & c9
        & -> & -> & Hl & H0 & H1 & H2).
  run_reads Hl H0 H1 H2. cbv - [String.eqb sort_dictonary]. split_cells sym; reflexivity.
Qed.

Lemma get_diagonal_counts_refines (h : Heap.heap) (g : Heap.value) (b : board)
    (sym : string) :
  is_grid h g b -> is_board b ->
  Heap.get_diagonal_counts g sym h = (get_diagonal_counts b sym, h).
Proof.
  intros Hg Hb.
  destruct (is_grid_3 h g b Hg Hb)
    as (l & r0 & r1 & r2 & c1 & c2 & c3 & c4 & c5 & c6 & c7 & c8 & c9
        & -> & -> & Hl & H0 & H1 & H2).
  run_reads Hl H0 H1 H2. cbv - [String.eqb sort_dictonary]. split_cells sym; reflexivity.
Qed.

(** [transposed] allocates the three columns and then the list of them. *)
Lemma transposed_run (h : Heap.heap) (l r0 r1 r2 : nat) (c1 c2 c3 c4 c5 c6 c7 c8 c9 : string) :
  Heap.lookup h l = Some [Heap.VRef r0; Heap.VRef r1; Heap.VRef r2] ->
  Heap.lookup h r0 = Some [Heap.VStr c1; Heap.VStr c2; Heap.VStr c3] ->
  Heap.lookup h r1 = Some [Heap.VStr c4; Heap.VStr c5; Heap.VStr c6] ->
  Heap.lookup h r2 = Some [Heap.VStr c7; Heap.VStr c8; Heap.VStr c9] ->
  Heap.transposed (Heap.VRef l) h
  = (Ok (Heap.VRef (3 + List.length h)),
     h ++ [[Heap.VStr c1; Heap.VStr c4; Heap.VStr c7];
           [Heap.VStr c2; Heap.VStr c5; Heap.VStr c8];
           [Heap.VStr c3; Heap.VStr c6; Heap.VStr c9];
           [Heap.VRef (List.length h); Heap.VRef (1 + List.length h);
            Heap.VRef (2 + List.length h)]]).
Proof.
  intros Hl H0 H1 H2. run_reads Hl H0 H1 H2.
  unfold Heap.extend, Heap.size. rewrite !length_app, <- !app_assoc. cbn [List.length app].
  replace (List.length h + 1 + 1 + 1)%nat with (3 + List.length h)%nat by lia.
  replace (List.length h + 1 + 1)%nat with (2 + List.length h)%nat by lia.
  replace (List.length h + 1)%nat with (1 + List.length h)%nat by lia.
  reflexivity.
Qed.

Lemma is_board_transposed (c1 c2 c3 c4 c5 c6 c7 c8 c9 : string) :
  is_board [[c1; c4; c7]; [c2; c5; c8]; [c3; c6; c9]].
Proof. split; [reflexivity | repeat constructor]. Qed.

(** On a 3 by 3 grid [transposed] builds four new list objects, the columns
    and the list of them, holding the matrix transpose. *)
Lemma transposed_refines (h : Heap.heap) (g : Heap.value) (b : board) :
  is_grid h g b -> is_board b ->
  exists l' rows' fresh t,
    Heap.transposed g h = (Ok (Heap.VRef l'), h ++ fresh)
    /\ transposed b = Ok t /\ is_board t
    /\ Heap.lookup (h ++ fresh) l' = Some (map Heap.VRef rows')
    /\ Forall2 (fun r row => Heap.lookup (h ++ fresh) r = Some (map Heap.VStr row)) rows' t
    /\ (List.length h <= l')%nat /\ Forall (fun r => (List.length h <= r)%nat) rows'
    /\ (forall i j, grid_cell t i j = grid_cell b j i).
Proof.
  intros Hg Hb.
  destruct (is_grid_3 h g b Hg Hb)
    as (l & r0 & r1 & r2 & c1 & c2 & c3 & c4 & c5 & c6 & c7 & c8 & c9
        & -> & -> & Hl & H0 & H1 & H2).
  exists (3 + List.length h)%nat,
    [List.length h; (1 + List.length h)%nat; (2 + List.length h)%nat],
    [[Heap.VStr c1; Heap.VStr c4; Heap.VStr c7];
     [Heap.VStr c2; Heap.VStr c5; Heap.VStr c8];
     [Heap.VStr c3; Heap.VStr c6; Heap.VStr c9];
     [Heap.VRef (List.length h); Heap.VRef (1 + List.length h);
      Heap.VRef (2 + List.length h)]],
    [[c1; c4; c7]; [c2; c5; c8]; [c3; c6; c9]].
  split; [now apply transposed_run with (r0 := r0) (r1 := r1) (r2 := r2)|].
  split; [reflexivity|]. split; [apply is_board_transposed|].
  assert (Hnew : forall k o,
             nth_error [[Heap.VStr c1; Heap.VStr c4; Heap.VStr c7];
                        [Heap.VStr c2; Heap.VStr c5; Heap.VStr c8];
                        [Heap.VStr c3; Heap.VStr c6; Heap.VStr c9];
                        [Heap.VRef (List.length h); Heap.VRef (1 + List.length h);
                         Heap.VRef (2 + List.length h)]] k = Some o ->
             Heap.lookup (h ++ [[Heap.VStr c1; Heap.VStr c4; Heap.VStr c7];
                                [Heap.VStr c2; Heap.VStr c5; Heap.VStr c8];
                                [Heap.VStr c3; Heap.VStr c6; Heap.VStr c9];
                                [Heap.VRef (List.length h); Heap.VRef (1 + List.length h);
                                 Heap.VRef (2 + List.length h)]]) (k + List.length h) = Some o).
  { intros k o Hk. unfold Heap.lookup. rewrite nth_error_app2 by lia.
    now replace (k + List.length h - List.length h)%nat with k by lia. }
  split; [apply (Hnew 3%nat); reflexivity|].
  split; [repeat constructor;
          [apply (Hnew 0%nat) | apply (Hnew 1%nat) | apply (Hnew 2%nat)]; reflexivity|].
  split; [lia|]. split; [repeat constructor; lia|].
  intros i j. unfold grid_cell.
  destruct i as [|[|[|i]]], j as [|[|[|j]]]; cbn [nth_error];
    rewrite ?nth_error_nil; reflexivity.
Qed.

Lemma get_vertical_counts_refines (h : Heap.heap) (g : Heap.value) (b : board)
    (sym : string) :
  is_grid h g b -> is_board b ->
  exists fresh,
    Heap.get_vertical_counts g sym h = (get_vertical_counts b sym, h ++ fresh).
Proof.
  intros Hg Hb.
  destruct (transposed_refines h g b Hg Hb)
    as (l' & rows' & fresh & t & Hrun & Ht & Hbt & Hl' & Hrows' & _).
  exists fresh. unfold Heap.get_vertical_counts, get_vertical_counts.
  rewrite (bind_run _ _ _ _ _ Hrun), Ht. cbn [bind].
  apply get_horizontal_counts_refines; [|exact Hbt].
  exists l', rows'. auto.
Qed.

Section HeapEngine.

Variable set_to_list : list Z -> list Z.

Lemma get_possible_moves_refines (h : Heap.heap) (g : Heap.value) (b : board) :
  is_grid h g b -> is_board b ->
  Heap.get_possible_moves set_to_list g h = (Ok (get_possible_moves set_to_list b), h).
Proof.
  intros Hg Hb. unfold Heap.get_possible_moves.
  rewrite (bind_run _ _ _ _ _ (get_player_fields_refines h g b "X" Hg Hb)).
  rewrite (bind_run _ _ _ _ _ (get_player_fields_refines h g b "O" Hg Hb)).
  reflexivity.
Qed.

Lemma calc_optimized_move_refines (h : Heap.heap) (g : Heap.value) (b : board)
    (sym : string) :
  is_grid h g b -> is_board b ->
  exists fresh,
    Heap.calc_optimized_move set_to_list g sym h
    = (calc_optimized_move set_to_list b sym, h ++ fresh).
Proof.
  intros Hg Hb.
  destruct (get_vertical_counts_refines h g b sym Hg Hb) as [fresh Hvert].
  destruct (vertical_counts_perm b sym Hb) as (v & Hv & _).
  exists fresh. unfold Heap.calc_optimized_move, calc_optimized_move.
  rewrite (bind_run _ _ _ _ _ (get_possible_moves_refines h g b Hg Hb)).
  rewrite (bind_run _ _ _ _ _ (get_horizontal_counts_refines h g b sym Hg Hb)).
  rewrite Hv in Hvert |- *. rewrite (bind_run _ _ _ _ _ Hvert).
  pose proof (get_diagonal_counts_refines (h ++ fresh) g b sym
                (is_grid_ext h fresh g b Hg) Hb) as Hdiag.
  rewrite (diagonal_counts_eq b sym Hb) in Hdiag |- *.
  rewrite (bind_run _ _ _ _ _ Hdiag). cbn [bind].
  unfold Heap.bind, Heap.lift, Heap.ret.
  destruct (get_optimized_straight_moves (get_horizontal_counts b sym)
              (get_possible_moves set_to_list b) true); [|reflexivity].
  destruct (get_optimized_straight_moves v (get_possible_moves set_to_list b) false);
    [|reflexivity].
  destruct (get_optimized_diagonal_moves (counts_of b sym Diagonals)
              (get_possible_moves set_to_list b)); reflexivity.
Qed.

(** The engine on the heap returns what the engine on the board value
    returns, and only adds objects to the heap. *)
Lemma make_smart_move_refines (h : Heap.heap) (g : Heap.value) (b : board) (s o : string) :
  is_grid h g b -> is_board b ->
  exists fresh,
    Heap.make_smart_move set_to_list g s o h
    = (make_smart_move set_to_list b s o, h ++ fresh).
Proof.
  intros Hg Hb.
  destruct (calc_optimized_move_refines h g b s Hg Hb) as [f1 H1].
  destruct (calc_optimized_move_refines (h ++ f1) g b o (is_grid_ext h f1 g b Hg) Hb)
    as [f2 H2].
  unfold Heap.make_smart_move, make_smart_move.
  unfold Heap.bind at 1. rewrite H1.
  destruct (calc_optimized_move set_to_list b s) as [ds|e]; cbn [bind];
    [|now exists f1].
  exists (f1 ++ f2). unfold Heap.bind at 1. rewrite H2, app_assoc.
  destruct (calc_optimized_move set_to_list b o) as [do|e]; reflexivity.
Qed.

End HeapEngine.

(** The assignment of [board.make_move] is not of that kind: it changes a
    row object of the heap it starts from. *)
Lemma set_cell_mutates :
  ~ Heap.preserves (Heap.set_cell (Heap.VRef 1) 0 0 "X").
Proof.
  intros H.
  destruct (H [[Heap.VStr "_"]; [Heap.VRef 0]]) as [fresh Hf].
  cbv in Hf. discriminate Hf.
Qed.

(** C8 (no mutation of the board).  Every function of the engine that
    receives the board leaves each object of the heap it starts from as it
    is, whatever the heap and the reference: the final heap is the initial
    one followed by new objects.  [transposed] of a rectangular grid is its
    matrix transpose.  When the reference is to a 3 by 3 board,
    [make_smart_move] returns what it returns on the board value and the
    board is still there; [transposed] returns a reference to a new list of
    new rows that hold the matrix transpose, the input grid still in place. *)
Theorem board_not_mutated (set_to_list : list Z -> list Z) (g : Heap.value) (s o : string) :
  Heap.preserves (Heap.make_smart_move set_to_list g s o)
  /\ Heap.preserves (Heap.calc_optimized_move set_to_list g s)
  /\ Heap.preserves (Heap.get_possible_moves set_to_list g)
  /\ Heap.preserves (Heap.get_player_fields g s)
  /\ Heap.preserves (Heap.get_horizontal_counts g s)
  /\ Heap.preserves (Heap.get_vertical_counts g s)
  /\ Heap.preserves (Heap.get_diagonal_counts g s)
  /\ Heap.preserves (Heap.transposed g)
  /\ (forall (A : Type) (grid : list (list A)) (m : nat),
         grid <> [] -> Forall (fun row => List.length row = m) grid ->
         exists t, transposed grid = Ok t
                   /\ List.length t = m
                   /\ Forall (fun col => List.length col = List.length grid) t
                   /\ forall i j, grid_cell t i j = grid_cell grid j i)
  /\ forall h b,
      is_grid h g b -> is_board b ->
      (exists fresh,
          Heap.make_smart_move set_to_list g s o h
          = (make_smart_move set_to_list b s o, h ++ fresh)
          /\ is_grid (h ++ fresh) g b)
      /\ (exists l' rows' fresh t,
             Heap.transposed g h = (Ok (Heap.VRef l'), h ++ fresh)
             /\ transposed b = Ok t
             /\ Heap.lookup (h ++ fresh) l' = Some (map Heap.VRef rows')
             /\ Forall2 (fun r row => Heap.lookup (h ++ fresh) r = Some (map Heap.VStr row))
                        rows' t
             /\ (List.length h <= l')%nat /\ Forall (fun r => (List.length h <= r)%nat) rows'
             /\ (forall i j, grid_cell t i j = grid_cell b j i)
             /\ is_grid (h ++ fresh) g b).
Proof.
  split; [apply HeapFacts.preserves_make_smart_move|].
  split; [apply HeapFacts.preserves_calc_optimized_move|].
  split; [apply HeapFacts.preserves_get_possible_moves|].
  split; [apply HeapFacts.preserves_get_player_fields|].
  split; [apply HeapFacts.preserves_get_horizontal_counts|].
  split; [apply HeapFacts.preserves_get_vertical_counts|].
  split; [apply HeapFacts.preserves_get_diagonal_counts|].
  split; [apply HeapFacts.preserves_transposed|].
  split; [intros A grid m; apply transposed_rectangular|].
  intros h b Hg Hb. split.
  - destruct (make_smart_move_refines set_to_list h g b s o Hg Hb) as [fresh Hrun].
    exists fresh. split; [exact Hrun | now apply is_grid_ext].
  - destruct (transposed_refines h g b Hg Hb)
      as (l' & rows' & fresh & t & Hrun & Ht & _ & Hl' & Hrows' & Hnew & Hnews & Hcells).
    exists l', rows', fresh, t. repeat split; try assumption. now apply is_grid_ext.
Qed.

Lemma example_heap_grid : is_grid example_heap (Heap.VRef 3) example_board.
Proof. exists 3%nat, [0; 1; 2]%nat. repeat constructor. Qed.

Lemma example_heap_run :
  Heap.make_smart_move ascending (Heap.VRef 3) cX cO example_heap
  = (Ok 9,
     example_heap
     ++ [[Heap.VStr "O"; Heap.VStr "X"; Heap.VStr "_"];
         [Heap.VStr "O"; Heap.VStr "_"; Heap.VStr "O"];
         [Heap.VStr "X"; Heap.VStr "X"; Heap.VStr "_"];
         [Heap.VRef 4; Heap.VRef 5; Heap.VRef 6];
         [Heap.VStr "O"; Heap.VStr "X"; Heap.VStr "_"];
         [Heap.VStr "O"; Heap.VStr "_"; Heap.VStr "O"];
         [Heap.VStr "X"; Heap.VStr "X"; Heap.VStr "_"];
         [Heap.VRef 8; Heap.VRef 9; Heap.VRef 10]]).
Proof. vm_compute. reflexivity. Qed.

Lemma board_not_mutated_witness :
  is_grid example_heap (Heap.VRef 3) example_board /\ is_board example_board
  /\ exists fresh,
      Heap.make_smart_move ascending (Heap.VRef 3) cX cO example_heap
      = (make_smart_move ascending example_board cX cO, example_heap ++ fresh)
      /\ is_grid (example_heap ++ fresh) (Heap.VRef 3) example_board.
Proof.
  split; [exact example_heap_grid|]. split; [exact is_board_example|].
  destruct (board_not_mutated ascending (Heap.VRef 3) cX cO)
    as (_ & _ & _ & _ & _ & _ & _ & _ & _ & H).
  exact (proj1 (H example_heap example_board example_heap_grid is_board_example)).
Defined.

(** ** The board of [board.py] *)

Ltac board_shape b Hb :=
  let c1 := fresh "c1" in let c2 := fresh "c2" in let c3 := fresh "c3" in
  let c4 := fresh "c4" in let c5 := fresh "c5" in let c6 := fresh "c6" in
  let c7 := fresh "c7" in let c8 := fresh "c8" in let c9 := fresh "c9" in
  destruct (is_board_inv b Hb) as (c1 & c2 & c3 & c4 & c5 & c6 & c7 & c8 & c9 & ->).

Ltac each_move m Hm :=
  destruct (move_cases m Hm) as [->|[->|[->|[->|[->|[->|[->|[->| ->]]]]]]]].

Lemma get_cell_cell_at (b : board) (m : Z) :
  is_board b -> 1 <= m <= 9 ->
  exists c, get_cell b ((m - 1) / 3) ((m - 1) mod 3) = Ok c /\ cell_at b m = Some c.
Proof.
  intros Hb Hm. board_shape b Hb. each_move m Hm; eexists; split; reflexivity.
Qed.

Lemma cell_at_out (b : board) (m : Z) : ~ (1 <= m <= 9) -> cell_at b m = None.
Proof.
  intros H. unfold cell_at.
  destruct (m <? 1) eqn:E1; [reflexivity|]. destruct (m >? 9) eqn:E2; [reflexivity|].
  apply Z.ltb_ge in E1. rewrite Z.gtb_ltb in E2. apply Z.ltb_ge in E2. lia.
Qed.

Lemma set_cell_placed (b : board) (m : Z) (sym : string) :
  is_board b -> 1 <= m <= 9 ->
  exists b', set_cell b ((m - 1) / 3) ((m - 1) mod 3) sym = Ok b' /\ placed b m sym b'.
Proof.
  intros Hb Hm. board_shape b Hb.
  each_move m Hm; eexists; (split; [reflexivity|]);
    (split; [apply is_board_transposed|]); (split; [reflexivity|]);
    intros m' Hm';
    (destruct (Z_le_dec 1 m') as [H1|H1];
     [destruct (Z_le_dec m' 9) as [H9|H9]|]);
    try (rewrite !cell_at_out by lia; reflexivity);
    each_move m' (conj H1 H9); try reflexivity; now contradiction Hm'.
Qed.

Lemma valid_cells_cell_at (b : board) :
  is_board b ->
  valid_cells b <->
  forall m c, cell_at b m = Some c -> c = "_"%string \/ c = "X"%string \/ c = "O"%string.
Proof.
  intros Hb. split.
  - intros Hv m c Hc. destruct (cell_at_In b m c Hc) as (row & Hrow & Hin).
    unfold valid_cells in Hv. rewrite Forall_forall in Hv. specialize (Hv row Hrow).
    rewrite Forall_forall in Hv. exact (Hv c Hin).
  - intros H. board_shape b Hb.
    repeat (apply Forall_cons || apply Forall_nil);
      [apply (H 1)|apply (H 2)|apply (H 3)|apply (H 4)|apply (H 5)
       |apply (H 6)|apply (H 7)|apply (H 8)|apply (H 9)]; reflexivity.
Qed.

Lemma fully_occupied_cell_at (b : board) :
  is_board b ->
  fully_occupied b <->
  forall m c, cell_at b m = Some c -> c = "X"%string \/ c = "O"%string.
Proof.
  intros Hb. split.
  - intros Hv m c Hc. destruct (cell_at_In b m c Hc) as (row & Hrow & Hin).
    unfold fully_occupied in Hv. rewrite Forall_forall in Hv. specialize (Hv row Hrow).
    rewrite Forall_forall in Hv. exact (Hv c Hin).
  - intros H. board_shape b Hb.
    repeat (apply Forall_cons || apply Forall_nil);
      [apply (H 1)|apply (H 2)|apply (H 3)|apply (H 4)|apply (H 5)
       |apply (H 6)|apply (H 7)|apply (H 8)|apply (H 9)]; reflexivity.
Qed.

Lemma placed_valid (b b' : board) (m : Z) (sym : string) :
  is_board b -> valid_cells b -> sym = "X"%string \/ sym = "O"%string ->
  placed b m sym b' -> valid_cells b'.
Proof.
  intros Hb Hv Hs (Hb' & Hm & Hrest).
  apply (valid_cells_cell_at b' Hb'). intros m' c Hc.
  destruct (Z.eq_dec m' m) as [->|Hne].
  - rewrite Hm in Hc. injection Hc as <-. tauto.
  - rewrite (Hrest m' Hne) in Hc.
    exact (proj1 (valid_cells_cell_at b Hb) Hv m' c Hc).
Qed.

Lemma In_empty_cells (b : board) (m : Z) :
  In m (empty_cells b) <-> cell_at b m = Some "_"%string.
Proof.
  unfold empty_cells. rewrite filter_In, In_range_1_10. split.
  - intros [_ H]. destruct (cell_at b m) as [c|]; [|discriminate].
    apply String.eqb_eq in H. now subst.
  - intros H. split; [eapply cell_at_range; eauto|]. rewrite H. reflexivity.
Qed.

Lemma filter_length_drop {A : Type} (f g : A -> bool) (x : A) (l : list A) :
  NoDup l -> In x l -> f x = true -> g x = false ->
  (forall y, y <> x -> g y = f y) ->
  List.length (filter f l) = S (List.length (filter g l)).
Proof.
  intros Hnd Hin Hf Hg Hother. induction l as [|a l IH]; [contradiction|].
  inversion Hnd as [|? ? Hna Hnd']; subst. destruct Hin as [->|Hin].
  - simpl. rewrite Hf, Hg. simpl. f_equal. f_equal.
    apply filter_ext_in. intros y Hy. symmetry. apply Hother. intros ->. contradiction.
  - simpl. rewrite (Hother a) by (intros ->; contradiction).
    destruct (f a); simpl; rewrite (IH Hnd' Hin); reflexivity.
Qed.

Lemma placed_empty_cells (b b' : board) (m : Z) (sym : string) :
  cell_at b m = Some "_"%string -> sym <> "_"%string -> placed b m sym b' ->
  List.length (empty_cells b) = S (List.length (empty_cells b')).
Proof.
  intros Hm Hs (_ & Hm' & Hrest). unfold empty_cells.
  apply filter_length_drop with (x := m).
  - apply NoDup_range_1_10.
  - apply In_range_1_10. eapply cell_at_range; eauto.
  - rewrite Hm. reflexivity.
  - rewrite Hm'. apply String.eqb_neq. exact Hs.
  - intros y Hy. rewrite (Hrest y Hy). reflexivity.
Qed.

Lemma check_win_has_line (b : board) (p : player) :
  is_board b -> check_win b p = Ok (has_line b (symbol p)).
Proof.
  intros Hb. board_shape b Hb. unfold check_win. generalize (symbol p). intros sym.
  cbv - [String.eqb]. split_cells sym; reflexivity.
Qed.

Lemma check_draw_empty_cells (b : board) :
  is_board b -> check_draw b = true <-> empty_cells b = [].
Proof.
  intros Hb. board_shape b Hb. cbv - [String.eqb].
  repeat match goal with
         | |- context [String.eqb ?c "_"] => destruct (String.eqb c "_")
         end; split; congruence.
Qed.

(** ** Moves on the board *)

Lemma random_move_from_skip (skipped : list Z) (m : Z) (rest poss : list Z) :
  Forall (fun r => mem r poss = false) skipped -> mem m poss = true ->
  random_move_from (skipped ++ m :: rest) poss = Returned (m, rest).
Proof.
  intros Hs Hm. induction Hs as [|r skipped Hr _ IH]; simpl.
  - now rewrite Hm.
  - now rewrite Hr.
Qed.

Lemma random_move_from_cases (draws poss : list Z) :
  random_move_from draws poss = StillRunning
  \/ exists used m rest,
       draws = used ++ m :: rest /\ mem m poss = true
       /\ random_move_from draws poss = Returned (m, rest).
Proof.
  induction draws as [|r draws IH]; simpl; [now left|].
  destruct (mem r poss) eqn:E.
  - right. exists [], r, draws. auto.
  - destruct IH as [IH|(used & m & rest & -> & Hm & IH)]; [now left|].
    right. exists (r :: used), m, rest. auto.
Qed.

Section GameFacts.

Variable set_to_list : list Z -> list Z.
Hypothesis set_to_list_perm : forall l, Permutation (set_to_list l) l.

#[local] Abbreviation possible := (get_possible_moves set_to_list).
#[local] Abbreviation move := (make_move set_to_list).

Lemma mem_possible_empty (b : board) (m : Z) :
  is_board b -> valid_cells b ->
  mem m (possible b) = true <-> cell_at b m = Some "_"%string.
Proof.
  intros Hb Hv. rewrite (mem_possible set_to_list set_to_list_perm b m Hb).
  apply free_empty. exact Hv.
Qed.

Lemma possible_nil (b : board) :
  is_board b -> (forall m, free b m = false) -> possible b = [].
Proof.
  intros Hb Hfull. destruct (possible b) as [|m l] eqn:E; [reflexivity|].
  assert (Hin : In m (possible b)) by (rewrite E; now left).
  apply (In_possible set_to_list set_to_list_perm b m Hb) in Hin.
  rewrite Hfull in Hin. discriminate.
Qed.

(** The last part of a pass of [make_move], from the range check on. *)
Lemma make_move_write (fuel : nat) (draws draws' : list Z) (p q : player) (b : board) (m : Z) :
  is_board b -> cell_at b m = Some "_"%string ->
  (if String.eqb (IQ p) "dumb"
   then random_move_from draws (possible b)
   else if String.eqb (IQ p) "smart"
        then match make_smart_move set_to_list b (symbol p) (symbol q) with
             | Ok m => Returned (m, draws)
             | Raise e => Failed (Raised e)
             end
        else Failed UnboundLocalError) = Returned (m, draws') ->
  exists b', move (S fuel) draws p b q = Returned (b', draws') /\ placed b m (symbol p) b'.
Proof.
  intros Hb Hm Hchosen. pose proof (cell_at_range b m _ Hm) as Hr.
  destruct (get_cell_cell_at b m Hb Hr) as (c & Hget & Hc).
  rewrite Hm in Hc. injection Hc as <-.
  destruct (set_cell_placed b m (symbol p) Hb Hr) as (b' & Hset & Hp).
  exists b'. split; [|exact Hp].
  cbn [make_move]. rewrite Hchosen. unfold isdigit_of_int.
  replace (0 <=? m) with true by (symmetry; apply Z.leb_le; lia).
  replace (m <? 1) with false by (symmetry; apply Z.ltb_ge; lia).
  replace (m >? 9) with false by (symmetry; rewrite Z.gtb_ltb; apply Z.ltb_ge; lia).
  cbn [negb orb]. rewrite Hget. cbn [String.eqb Ascii.eqb Bool.eqb negb]. rewrite Hset. reflexivity.
Qed.

Lemma make_move_smart_placed (fuel : nat) (draws : list Z) (p q : player) (b : board) :
  is_board b -> valid_cells b -> (exists m0, cell_at b m0 = Some "_"%string) ->
  IQ p = "smart"%string ->
  exists m b',
    make_smart_move set_to_list b (symbol p) (symbol q) = Ok m
    /\ cell_at b m = Some "_"%string
    /\ move (S fuel) draws p b q = Returned (b', draws)
    /\ placed b m (symbol p) b'.
Proof.
  intros Hb Hv [m0 Hm0] HIQ.
  destruct (make_smart_move_free set_to_list set_to_list_perm b (symbol p) (symbol q) Hb)
    as (m & Hm & [[_ Hnone]|Hfree]).
  - apply (free_empty b m0 Hv) in Hm0. rewrite Hnone in Hm0. discriminate.
  - apply (free_empty b m Hv) in Hfree.
    destruct (make_move_write fuel draws draws p q b m Hb Hfree) as (b' & Hmove & Hp).
    + rewrite HIQ, Hm. reflexivity.
    + exists m, b'. auto.
Qed.

Lemma make_move_dumb_placed (fuel : nat) (skipped : list Z) (m : Z) (rest : list Z)
    (p q : player) (b : board) :
  is_board b -> valid_cells b -> IQ p = "dumb"%string ->
  Forall (fun r => cell_at b r <> Some "_"%string) skipped ->
  cell_at b m = Some "_"%string ->
  exists b', move (S fuel) (skipped ++ m :: rest) p b q = Returned (b', rest)
             /\ placed b m (symbol p) b'.
Proof.
  intros Hb Hv HIQ Hs Hm.
  apply (make_move_write fuel _ rest p q b m Hb Hm).
  rewrite HIQ. cbn [String.eqb Ascii.eqb Bool.eqb].
  apply random_move_from_skip.
  - eapply Forall_impl; [|exact Hs]. intros r Hr. cbv beta in Hr.
    destruct (mem r (possible b)) eqn:E; [|reflexivity].
    apply (mem_possible_empty b r Hb Hv) in E. contradiction.
  - now apply (mem_possible_empty b m Hb Hv).
Qed.

Lemma make_move_full (fuel : nat) (draws : list Z) (p q : player) (b : board) :
  is_board b -> (forall m, free b m = false) ->
  IQ p = "dumb"%string \/ IQ p = "smart"%string ->
  move fuel draws p b q = StillRunning.
Proof.
  intros Hb Hfull HIQ. induction fuel as [|fuel IH]; [reflexivity|].
  cbn [make_move]. destruct HIQ as [HIQ|HIQ]; rewrite HIQ; cbn [String.eqb Ascii.eqb Bool.eqb].
  - rewrite (possible_nil b Hb Hfull).
    clear. induction draws as [|r draws IHd]; [reflexivity|exact IHd].
  - destruct (make_smart_move_free set_to_list set_to_list_perm b (symbol p) (symbol q) Hb)
      as (m & Hm & [[-> _]|Hfree]).
    + rewrite Hm. cbn. exact IH.
    + rewrite Hfull in Hfree. discriminate.
Qed.

(** What [make_move] can do on a 3 by 3 board: it does not fail, and when
    it returns it has put the player's symbol on an empty cell. *)
Lemma make_move_cases (fuel : nat) (draws : list Z) (p q : player) (b : board) :
  is_board b -> IQ p = "dumb"%string \/ IQ p = "smart"%string ->
  move fuel draws p b q = StillRunning
  \/ exists m b' used rest,
       move fuel draws p b q = Returned (b', rest)
       /\ draws = used ++ rest
       /\ cell_at b m = Some "_"%string /\ placed b m (symbol p) b'.
Proof.
  intros Hb HIQ. revert draws. induction fuel as [|fuel IH]; intros draws; [now left|].
  assert (Hchosen :
    (if String.eqb (IQ p) "dumb"
     then random_move_from draws (possible b)
     else if String.eqb (IQ p) "smart"
          then match make_smart_move set_to_list b (symbol p) (symbol q) with
               | Ok m => Returned (m, draws)
               | Raise e => Failed (Raised e)
               end
          else Failed UnboundLocalError) = StillRunning
    \/ exists m used rest,
         draws = used ++ rest
         /\ (if String.eqb (IQ p) "dumb"
             then random_move_from draws (possible b)
             else if String.eqb (IQ p) "smart"
                  then match make_smart_move set_to_list b (symbol p) (symbol q) with
                       | Ok m => Returned (m, draws)
                       | Raise e => Failed (Raised e)
                       end
                  else Failed UnboundLocalError) = Returned (m, rest)).
  { destruct HIQ as [HIQ|HIQ]; rewrite HIQ; cbn [String.eqb Ascii.eqb Bool.eqb].
    - destruct (random_move_from_cases draws (possible b))
        as [H|(used & m & rest & -> & _ & H)]; [now left|].
      right. exists m, (used ++ [m]), rest. rewrite <- app_assoc. auto.
    - destruct (make_smart_move_free set_to_list set_to_list_perm b (symbol p) (symbol q) Hb)
        as (m & Hm & _).
      right. exists m, [], draws. rewrite Hm. auto. }
  destruct Hchosen as [Hchosen|(m & used & rest & -> & Hchosen)].
  { left. cbn [make_move]. now rewrite Hchosen. }
  assert (Hagain : move (S fuel) (used ++ rest) p b q = move fuel rest p b q ->
                   move (S fuel) (used ++ rest) p b q = StillRunning
                   \/ exists m b' used' rest',
                        move (S fuel) (used ++ rest) p b q = Returned (b', rest')
                        /\ used ++ rest = used' ++ rest'
                        /\ cell_at b m = Some "_"%string /\ placed b m (symbol p) b').
  { intros ->. destruct (IH rest) as [H|(m' & b' & used' & rest' & H & -> & Hc & Hp)];
      [now left|].
    right. exists m', b', (used ++ used'), rest'. rewrite app_assoc. auto. }
  destruct (cell_at b m) as [c|] eqn:Hc.
  - destruct (String.eqb c "_") eqn:Ec.
    + apply String.eqb_eq in Ec. subst c.
      destruct (make_move_write fuel (used ++ rest) rest p q b m Hb Hc Hchosen)
        as (b' & Hmove & Hp).
      right. exists m, b', used, rest. auto.
    + apply Hagain. pose proof (cell_at_range b m _ Hc) as Hr.
      destruct (get_cell_cell_at b m Hb Hr) as (c' & Hget & Hc').
      rewrite Hc in Hc'. injection Hc' as <-.
      cbn [make_move]. rewrite Hchosen. unfold isdigit_of_int.
      replace (0 <=? m) with true by (symmetry; apply Z.leb_le; lia).
      replace (m <? 1) with false by (symmetry; apply Z.ltb_ge; lia).
      replace (m >? 9) with false by (symmetry; rewrite Z.gtb_ltb; apply Z.ltb_ge; lia).
      cbn [negb orb]. rewrite Hget, Ec. reflexivity.
  - apply Hagain. cbn [make_move]. rewrite Hchosen. unfold isdigit_of_int.
    destruct (0 <=? m) eqn:E0; [|reflexivity]. cbn [negb].
    destruct ((m <? 1) || (m >? 9)) eqn:E1; [reflexivity|].
    unfold cell_at in Hc. rewrite E1 in Hc.
    apply orb_false_elim in E1. destruct E1 as [E1 E2].
    apply Z.ltb_ge in E1. rewrite Z.gtb_ltb in E2. apply Z.ltb_ge in E2.
    destruct (cell_at_some b m Hb (conj E1 E2)) as [c Hc'].
    unfold cell_at in Hc'.
    replace (m <? 1) with false in Hc' by (symmetry; apply Z.ltb_ge; lia).
    replace (m >? 9) with false in Hc' by (symmetry; rewrite Z.gtb_ltb; apply Z.ltb_ge; lia).
    cbn [orb] in Hc'. congruence.
Qed.

End GameFacts.

(** ** Rounds *)

Lemma extends_refl (b : board) : is_board b -> extends b b.
Proof. intros Hb. split; auto. Qed.

Lemma placed_extends (b b' : board) (m : Z) (sym : string) :
  cell_at b m = Some "_"%string -> placed b m sym b' -> extends b b'.
Proof.
  intros Hm (Hb' & _ & Hrest). split; [exact Hb'|]. intros m' c Hc Hne.
  destruct (Z.eq_dec m' m) as [->|Hm']; [congruence|]. now rewrite (Hrest m' Hm').
Qed.

Lemma extends_trans (b1 b2 b3 : board) : extends b1 b2 -> extends b2 b3 -> extends b1 b3.
Proof. intros [_ H12] [Hb3 H23]. split; [exact Hb3|]. intros m c Hc Hne. auto. Qed.

Lemma round_ok_swap (p1 p2 : player) (b b' : board) (e : round_end) :
  extends b b' -> round_ok p2 p1 b' e -> round_ok p1 p2 b e.
Proof.
  intros Hext. destruct e as [w l b''|a c b'']; simpl.
  - intros (Hwl & Hext' & Hline).
    split; [tauto|]. split; [exact (extends_trans _ _ _ Hext Hext')|exact Hline].
  - intros (Hac & Hext' & Hfull & Hline).
    split; [tauto|]. split; [exact (extends_trans _ _ _ Hext Hext')|auto].
Qed.

Section RoundFacts.

Variable set_to_list : list Z -> list Z.
Hypothesis set_to_list_perm : forall l, Permutation (set_to_list l) l.

#[local] Abbreviation round := (play_round set_to_list).

Lemma play_round_cases (moves fuel : nat) (draws : list Z) (p1 p2 : player) (b : board) :
  is_board b ->
  IQ p1 = "dumb"%string \/ IQ p1 = "smart"%string ->
  IQ p2 = "dumb"%string \/ IQ p2 = "smart"%string ->
  round moves fuel draws p1 p2 b = StillRunning
  \/ exists e used rest,
       round moves fuel draws p1 p2 b = Returned (e, rest)
       /\ draws = used ++ rest /\ round_ok p1 p2 b e.
Proof.
  revert draws p1 p2 b. induction moves as [|moves IH]; intros draws p1 p2 b Hb H1 H2;
    [now left|].
  cbn [play_round].
  destruct (make_move_cases set_to_list set_to_list_perm fuel draws p1 p2 b Hb H1)
    as [Hm|(m & b' & used & rest & Hm & -> & Hc & Hp)]; rewrite Hm; [now left|].
  pose proof (placed_extends b b' m (symbol p1) Hc Hp) as Hext.
  pose proof (proj1 Hp) as Hb'.
  rewrite (check_win_has_line b' p1 Hb').
  destruct (has_line b' (symbol p1)) eqn:Hline.
  { right. exists (Won (print_winner p1) p2 b'), used, rest. simpl. auto 6. }
  destruct (check_draw b') eqn:Hdraw.
  { right. exists (Drawn p1 p2 b'), used, rest. simpl.
    apply (check_draw_empty_cells b' Hb') in Hdraw. auto 7. }
  destruct (IH rest p2 p1 b' Hb' H2 H1) as [H|(e & used' & rest' & H & -> & Hok)];
    [now left|].
  right. exists e, (used ++ used'), rest'. rewrite app_assoc.
  split; [exact H|]. split; [reflexivity|].
  eapply round_ok_swap; eauto.
Qed.

Lemma play_round_smart_returns (moves fuel : nat) (draws : list Z) (p1 p2 : player)
    (b : board) :
  is_board b -> valid_cells b ->
  IQ p1 = "smart"%string -> IQ p2 = "smart"%string ->
  symbol p1 = "X"%string \/ symbol p1 = "O"%string ->
  symbol p2 = "X"%string \/ symbol p2 = "O"%string ->
  empty_cells b <> [] -> (List.length (empty_cells b) <= moves)%nat ->
  exists e, round moves (S fuel) draws p1 p2 b = Returned (e, draws).
Proof.
  revert p1 p2 b. induction moves as [|moves IH]; intros p1 p2 b Hb Hv H1 H2 Hs1 Hs2 Hne Hlen.
  { destruct (empty_cells b); [contradiction|simpl in Hlen; lia]. }
  assert (Hex : exists m0, cell_at b m0 = Some "_"%string).
  { destruct (empty_cells b) as [|m0 l] eqn:E; [contradiction|].
    exists m0. apply In_empty_cells. rewrite E. now left. }
  destruct (make_move_smart_placed set_to_list set_to_list_perm fuel draws p1 p2 b Hb Hv Hex H1)
    as (m & b' & _ & Hc & Hm & Hp).
  cbn [play_round]. rewrite Hm. pose proof (proj1 Hp) as Hb'.
  rewrite (check_win_has_line b' p1 Hb').
  destruct (has_line b' (symbol p1)); [eauto|].
  destruct (check_draw b') eqn:Hdraw; [eauto|].
  assert (Hv' : valid_cells b') by exact (placed_valid b b' m (symbol p1) Hb Hv Hs1 Hp).
  assert (Hne' : empty_cells b' <> []).
  { intros Hnil. apply (check_draw_empty_cells b' Hb') in Hnil. congruence. }
  assert (Hsym : symbol p1 <> "_"%string) by (destruct Hs1 as [-> | ->]; discriminate).
  pose proof (placed_empty_cells b b' m (symbol p1) Hc Hsym Hp) as Hdrop.
  apply (IH p2 p1 b' Hb' Hv' H2 H1 Hs2 Hs1 Hne'). lia.
Qed.

End RoundFacts.

(** ** The rounds of [main.py] *)

Lemma init_board_reset (b : board) : is_board b -> init_board b = Ok tic_tac_toe_board.
Proof. intros Hb. board_shape b Hb. reflexivity. Qed.

Lemma get_board_copy (b : board) : get_board b = b.
Proof. apply map_id. Qed.

Lemma same_bot_refl (p : player) : same_bot p p.
Proof. unfold same_bot. repeat split; lia. Qed.

Lemma same_bot_winner (p a : player) : same_bot (print_winner p) a -> same_bot p a.
Proof. unfold same_bot. simpl. intuition lia. Qed.

Section MainFacts.

Variable set_to_list : list Z -> list Z.
Hypothesis set_to_list_perm : forall l, Permutation (set_to_list l) l.

Lemma play_rounds_cases (rounds moves fuel : nat) (draws : list Z) (p1 p2 : player) :
  IQ p1 = "dumb"%string \/ IQ p1 = "smart"%string ->
  IQ p2 = "dumb"%string \/ IQ p2 = "smart"%string ->
  play_rounds set_to_list rounds moves fuel draws p1 p2 = StillRunning
  \/ exists a c rest,
       play_rounds set_to_list rounds moves fuel draws p1 p2 = Returned (a, c, rest)
       /\ ((same_bot p1 a /\ same_bot p2 c) \/ (same_bot p2 a /\ same_bot p1 c))
       /\ wins a + wins c <= wins p1 + wins p2 + Z.of_nat rounds.
Proof.
  revert draws p1 p2. induction rounds as [|rounds IH]; intros draws p1 p2 H1 H2.
  { right. exists p1, p2, draws. split; [reflexivity|]. split; [|simpl; lia].
    left. split; apply same_bot_refl. }
  cbn [play_rounds]. rewrite get_board_copy.
  assert (Hb : is_board tic_tac_toe_board) by (apply is_board_transposed).
  rewrite (init_board_reset _ Hb).
  destruct (play_round_cases set_to_list set_to_list_perm moves fuel draws p1 p2
              tic_tac_toe_board Hb H1 H2)
    as [H|(e & used & rest & H & _ & Hok)]; rewrite H; [now left|].
  destruct e as [w l b'|a c b']; simpl in Hok.
  - destruct Hok as (Hwl & _ & _).
    assert (HIQ : (IQ w = "dumb"%string \/ IQ w = "smart"%string)
                  /\ (IQ l = "dumb"%string \/ IQ l = "smart"%string)).
    { destruct Hwl as [[-> ->]|[-> ->]]; simpl; auto. }
    destruct (IH rest w l (proj1 HIQ) (proj2 HIQ))
      as [Hr|(a & c & rest' & Hr & Hsame & Hwins)]; [now left|].
    right. exists a, c, rest'. split; [exact Hr|].
    destruct Hwl as [[-> ->]|[-> ->]]; simpl in Hwins;
      (split; [|lia]); destruct Hsame as [[Ha Hc]|[Ha Hc]];
      try apply same_bot_winner in Ha; try apply same_bot_winner in Hc; tauto.
  - destruct Hok as (Hac & _ & _).
    assert (HIQ : (IQ a = "dumb"%string \/ IQ a = "smart"%string)
                  /\ (IQ c = "dumb"%string \/ IQ c = "smart"%string)).
    { destruct Hac as [[-> ->]|[-> ->]]; auto. }
    destruct (IH rest a c (proj1 HIQ) (proj2 HIQ))
      as [Hr|(a' & c' & rest' & Hr & Hsame & Hwins)]; [now left|].
    right. exists a', c', rest'. split; [exact Hr|].
    destruct Hac as [[-> ->]|[-> ->]]; (split; [tauto|lia]).
Qed.

End MainFacts.

(** ** Sorting a dictionary *)

Lemma insert_desc_sorted (x : Z * Z) (l : list (Z * Z)) :
  StronglySorted by_count_desc l -> StronglySorted by_count_desc (insert_desc x l).
Proof.
  induction 1 as [|a l Hs IH Ha]; simpl.
  - repeat constructor.
  - destruct (snd x <? snd a) eqn:E.
    + apply Z.ltb_lt in E. constructor; [exact IH|].
      apply (Permutation_Forall (Permutation_sym (insert_desc_perm x l))).
      constructor; [unfold by_count_desc; lia|exact Ha].
    + apply Z.ltb_ge in E. constructor; [now constructor|].
      constructor; [exact E|].
      eapply Forall_impl; [|exact Ha]. unfold by_count_desc. intros y Hy. lia.
Qed.

Lemma sorted_by_value_desc_sorted (l : list (Z * Z)) :
  StronglySorted by_count_desc (sorted_by_value_desc l).
Proof. induction l as [|x l IH]; simpl; [constructor|now apply insert_desc_sorted]. Qed.

Lemma insert_desc_with_count (v : Z) (x : Z * Z) (l : list (Z * Z)) :
  with_count v (insert_desc x l) = with_count v (x :: l).
Proof.
  unfold with_count. induction l as [|a l IH]; [reflexivity|].
  simpl. destruct (snd x <? snd a) eqn:E; [|reflexivity].
  apply Z.ltb_lt in E. simpl. rewrite IH. simpl.
  destruct (snd x =? v) eqn:Ex; [|reflexivity].
  apply Z.eqb_eq in Ex.
  replace (snd a =? v) with false by (symmetry; apply Z.eqb_neq; lia). reflexivity.
Qed.

Lemma sorted_by_value_desc_with_count (v : Z) (l : list (Z * Z)) :
  with_count v (sorted_by_value_desc l) = with_count v l.
Proof.
  induction l as [|x l IH]; [reflexivity|].
  simpl. rewrite insert_desc_with_count. unfold with_count in *. simpl. now rewrite IH.
Qed.

Lemma sort_dictonary_descending (d : dict) :
  NoDup (keys d) -> StronglySorted by_count_desc (sort_dictonary d).
Proof. intros Hnd. rewrite (sort_dictonary_sorted d Hnd). apply sorted_by_value_desc_sorted. Qed.

(** X1: [sort_dictonary] returns the items of the dictionary with the counts
    from high to low, and keeps items of equal count in the order they had. *)
Theorem sort_dictonary_stable_descending (d : dict) :
  NoDup (keys d) ->
  Permutation (sort_dictonary d) d
  /\ StronglySorted by_count_desc (sort_dictonary d)
  /\ forall v, with_count v (sort_dictonary d) = with_count v d.
Proof.
  intros Hnd. split; [now apply sort_dictonary_perm|].
  split; [now apply sort_dictonary_descending|].
  intros v. rewrite (sort_dictonary_sorted d Hnd). apply sorted_by_value_desc_with_count.
Qed.

Lemma sort_dictonary_stable_descending_witness :
  Permutation (sort_dictonary [(0, 1); (1, 2); (2, 1)]) [(0, 1); (1, 2); (2, 1)]
  /\ StronglySorted by_count_desc (sort_dictonary [(0, 1); (1, 2); (2, 1)])
  /\ forall v, with_count v (sort_dictonary [(0, 1); (1, 2); (2, 1)])
               = with_count v [(0, 1); (1, 2); (2, 1)].
Proof.
  apply (sort_dictonary_stable_descending [(0, 1); (1, 2); (2, 1)]).
  repeat constructor; simpl; intuition discriminate.
Defined.

(** ** The numbering of the cells *)

Lemma player_fields_row_In (row : list string) (sym : string) (ri pr ci m : Z) :
  In m (player_fields_row row sym ri pr ci) <->
  exists j, nth_error row j = Some sym /\ m = ri + pr + (ci + Z.of_nat j) + 1.
Proof.
  revert ci. induction row as [|c row IH]; intros ci; simpl.
  - split; [contradiction|]. intros (j & Hj & _). destruct j; discriminate.
  - rewrite in_app_iff, IH. split.
    + intros [H|(j & Hj & ->)].
      * destruct (String.eqb c sym) eqn:E; [|contradiction].
        apply String.eqb_eq in E. subst c. destruct H as [<-|[]].
        exists 0%nat. split; [reflexivity|lia].
      * exists (S j). split; [exact Hj|lia].
    + intros ([|j] & Hj & ->).
      * left. simpl in Hj. injection Hj as ->. rewrite String.eqb_refl. left. lia.
      * right. exists j. split; [exact Hj|lia].
Qed.

Lemma player_fields_rows_In (rows : list (list string)) (sym : string) (ri pr m : Z) :
  In m (player_fields_rows rows sym ri pr) <->
  exists i j, grid_cell rows i j = Some sym
              /\ m = (ri + Z.of_nat i) + (pr + 2 * Z.of_nat i) + Z.of_nat j + 1.
Proof.
  revert ri pr. induction rows as [|row rows IH]; intros ri pr; cbn [player_fields_rows].
  - split; [contradiction|]. intros (i & j & H & _). destruct i; discriminate.
  - rewrite in_app_iff, player_fields_row_In, IH. split.
    + intros [(j & Hj & ->)|(i & j & Hij & ->)].
      * exists 0%nat, j. split; [exact Hj|lia].
      * exists (S i), j. split; [exact Hij|lia].
    + intros ([|i] & j & Hij & ->).
      * left. exists j. split; [exact Hij|lia].
      * right. exists i, j. split; [exact Hij|lia].
Qed.

Lemma In_get_player_fields (b : board) (sym : string) (m : Z) :
  In m (get_player_fields b sym) <->
  exists i j, grid_cell b i j = Some sym /\ m = 3 * Z.of_nat i + Z.of_nat j + 1.
Proof.
  unfold get_player_fields. rewrite player_fields_rows_In.
  split; intros (i & j & H & ->); exists i, j; (split; [exact H|lia]).
Qed.

Lemma get_player_fields_filter (b : board) (sym : string) :
  is_board b -> get_player_fields b sym = filter (holds b sym) (range 1 10).
Proof.
  intros Hb. board_shape b Hb. cbv - [String.eqb]. split_cells sym; reflexivity.
Qed.

(** X2: [get_player_fields] numbers the cell in row [i] and column [j] as
    [3 * i + j + 1] on a grid of any shape, and lists exactly the numbers of
    the cells that hold the symbol; on a 3 by 3 board these are the moves of
    the player in ascending order, each once. *)
Theorem get_player_fields_numbering (b : board) (sym : string) :
  (forall m, In m (get_player_fields b sym) <->
             exists i j, grid_cell b i j = Some sym
                         /\ m = 3 * Z.of_nat i + Z.of_nat j + 1)
  /\ (is_board b -> get_player_fields b sym = filter (holds b sym) (range 1 10)).
Proof.
  split; [intros m; apply In_get_player_fields|apply get_player_fields_filter].
Qed.

Lemma get_player_fields_numbering_witness :
  get_player_fields example_board cX = filter (holds example_board cX) (range 1 10).
Proof.
  apply (proj2 (get_player_fields_numbering example_board cX)).
  apply is_board_transposed.
Defined.

(** ** Possible moves and counts *)

Lemma filter_partition {A : Type} (f g : A -> bool) (l : list A) :
  (forall x, In x l -> f x && g x = false) ->
  (List.length (filter f l) + List.length (filter g l)
   + List.length (filter (fun x => negb (f x || g x)) l))%nat = List.length l.
Proof.
  induction l as [|a l IH]; intros H; [reflexivity|].
  assert (IH' := IH (fun x Hx => H x (or_intror Hx))).
  specialize (H a (or_introl eq_refl)).
  simpl. destruct (f a), (g a); try discriminate; simpl; lia.
Qed.

Lemma total_perm (d d' : dict) : Permutation d d' -> total d = total d'.
Proof.
  induction 1 as [|x l l' _ IH|x y l|l l' l'' _ IH1 _ IH2]; simpl; lia.
Qed.

Lemma holds_disjoint (b : board) (m : Z) : holds b "X" m && holds b "O" m = false.
Proof.
  unfold holds. destruct (cell_at b m) as [c|]; [|reflexivity].
  destruct (String.eqb c "X") eqn:E; [|reflexivity].
  apply String.eqb_eq in E. now subst.
Qed.

Section BoardFacts.

Variable set_to_list : list Z -> list Z.
Hypothesis set_to_list_perm : forall l, Permutation (set_to_list l) l.

#[local] Abbreviation possible := (get_possible_moves set_to_list).

Lemma In_possible_fields (b : board) (m : Z) :
  In m (possible b) <->
  1 <= m <= 9 /\ ~ In m (get_player_fields b "X") /\ ~ In m (get_player_fields b "O").
Proof.
  unfold get_possible_moves. split.
  - intros H. apply (Permutation_in _ (set_to_list_perm _)) in H.
    apply filter_In in H. destruct H as [Hr H]. apply In_range_1_10 in Hr.
    apply negb_true_iff, mem_false in H. rewrite in_app_iff in H. tauto.
  - intros (Hr & HX & HO).
    apply (Permutation_in _ (Permutation_sym (set_to_list_perm _))).
    apply filter_In. split; [now apply In_range_1_10|].
    apply negb_true_iff, mem_false. rewrite in_app_iff. tauto.
Qed.

(** X3: on a grid of any shape [get_possible_moves] returns, each once, the
    numbers from 1 to 9 that are not the number [3 * i + j + 1] of a cell
    holding "X" or "O". *)
Theorem get_possible_moves_complement (b : board) :
  NoDup (possible b)
  /\ forall m, In m (possible b) <->
               1 <= m <= 9
               /\ forall i j c, grid_cell b i j = Some c ->
                                m = 3 * Z.of_nat i + Z.of_nat j + 1 ->
                                c <> "X"%string /\ c <> "O"%string.
Proof.
  split; [apply (NoDup_possible set_to_list set_to_list_perm)|].
  intros m. rewrite In_possible_fields, !In_get_player_fields. split.
  - intros (Hr & HX & HO). split; [exact Hr|]. intros i j c Hc Hm.
    split; intros ->; [apply HX|apply HO]; eauto.
  - intros (Hr & H). split; [exact Hr|].
    split; intros (i & j & Hc & Hm); destruct (H i j _ Hc Hm); congruence.
Qed.

Lemma possible_count (b : board) :
  is_board b ->
  len (get_player_fields b "X") + len (get_player_fields b "O") + len (possible b) = 9.
Proof.
  intros Hb. rewrite !(get_player_fields_filter b _ Hb).
  unfold get_possible_moves, len.
  rewrite (Permutation_length (set_to_list_perm _)).
  rewrite (filter_ext (fun m => negb (mem m (get_player_fields b "X" ++ get_player_fields b "O")))
             (fun m => negb (holds b "X" m || holds b "O" m))).
  2: { intros m. now rewrite mem_app, !(mem_get_player_fields b _ m Hb). }
  pose proof (filter_partition (holds b "X") (holds b "O") (range 1 10)
                (fun m _ => holds_disjoint b m)) as H.
  change (List.length (range 1 10)) with 9%nat in H. lia.
Qed.

(** X4: on a 3 by 3 board the fields of "X", the fields of "O" and the
    possible moves are nine together, and no move is in two of the lists. *)
Theorem fields_and_possible_moves_partition (b : board) :
  is_board b ->
  len (get_player_fields b "X") + len (get_player_fields b "O") + len (possible b) = 9
  /\ (forall m, In m (get_player_fields b "X") -> ~ In m (get_player_fields b "O"))
  /\ (forall m, In m (possible b) ->
                ~ In m (get_player_fields b "X") /\ ~ In m (get_player_fields b "O")).
Proof.
  intros Hb. split; [now apply possible_count|]. split.
  - intros m HX HO. apply mem_In in HX, HO.
    rewrite (mem_get_player_fields b _ m Hb) in HX. rewrite (mem_get_player_fields b _ m Hb) in HO.
    pose proof (holds_disjoint b m) as H. rewrite HX, HO in H. discriminate.
  - intros m H. apply In_possible_fields in H. tauto.
Qed.

End BoardFacts.

Lemma fields_and_possible_moves_partition_witness :
  len (get_player_fields example_board "X") + len (get_player_fields example_board "O")
  + len (get_possible_moves ascending example_board) = 9.
Proof.
  apply (fields_and_possible_moves_partition ascending ascending_perm example_board).
  apply is_board_transposed.
Defined.

Lemma get_possible_moves_complement_witness :
  NoDup (get_possible_moves ascending example_board).
Proof.
  apply (get_possible_moves_complement ascending ascending_perm example_board).
Defined.

Lemma counts_total (b : board) (sym : string) (fam : family) :
  is_board b -> fam <> Diagonals ->
  total (counts_of b sym fam) = len (get_player_fields b sym).
Proof.
  intros Hb Hfam. board_shape b Hb.
  destruct fam; [| |congruence]; cbv - [String.eqb]; split_cells sym; reflexivity.
Qed.

(** X5: on a 3 by 3 board the counts of the rows add up to the number of
    fields of the player, and so do the counts of the columns. *)
Theorem straight_counts_total (b : board) (sym : string) :
  is_board b ->
  total (get_horizontal_counts b sym) = len (get_player_fields b sym)
  /\ exists d, get_vertical_counts b sym = Ok d
               /\ total d = len (get_player_fields b sym).
Proof.
  intros Hb. split.
  - destruct (horizontal_counts_perm b sym Hb) as [_ Hp].
    rewrite (total_perm _ _ Hp). apply counts_total; [exact Hb|discriminate].
  - destruct (vertical_counts_perm b sym Hb) as (d & Hd & _ & Hp).
    exists d. split; [exact Hd|].
    rewrite (total_perm _ _ Hp). apply counts_total; [exact Hb|discriminate].
Qed.

Lemma straight_counts_total_witness :
  total (get_horizontal_counts example_board cX) = len (get_player_fields example_board cX)
  /\ exists d, get_vertical_counts example_board cX = Ok d
               /\ total d = len (get_player_fields example_board cX).
Proof. apply (straight_counts_total example_board cX). apply is_board_transposed. Defined.

(** ** Boards of other shapes *)

Lemma get_diagonal_counts_unreadable (b : board) (sym : string) :
  diagonals_readable b = false -> get_diagonal_counts b sym = Raise IndexError.
Proof.
  destruct b as [|r0 [|r1 [|r2 rest]]];
    [intros _; reflexivity
    |intros _; destruct r0 as [|a0 [|a1 [|a2 t0]]]; cbv - [String.eqb];
     repeat match goal with
            | |- context [String.eqb ?c sym] => destruct (String.eqb c sym)
            end; reflexivity
    |intros _; destruct r0 as [|a0 [|a1 [|a2 t0]]]; destruct r1 as [|b0 [|b1 t1]];
     cbv - [String.eqb];
     repeat match goal with
            | |- context [String.eqb ?c sym] => destruct (String.eqb c sym)
            end; reflexivity
    |].
  destruct r0 as [|a0 [|a1 [|a2 t0]]]; destruct r1 as [|b0 [|b1 t1]];
    destruct r2 as [|c0 [|c1 [|c2 t2]]];
    cbv - [String.eqb]; intros H; try discriminate H;
    repeat match goal with
           | |- context [String.eqb ?c sym] => destruct (String.eqb c sym)
           end; reflexivity.
Qed.

Lemma get_diagonal_counts_readable (b : board) (sym : string) :
  diagonals_readable b = true ->
  exists c1 c2, get_diagonal_counts b sym = Ok [(0, c1); (1, c2)]
                /\ 0 <= c1 <= 3 /\ 0 <= c2 <= 3.
Proof.
  destruct b as [|r0 [|r1 [|r2 rest]]]; try discriminate.
  destruct r0 as [|a0 [|a1 [|a2 t0]]]; try discriminate.
  destruct r1 as [|b0 [|b1 t1]]; try discriminate.
  destruct r2 as [|c0 [|c1 [|c2 t2]]]; try discriminate.
  intros _. cbv - [String.eqb Z.le].
  repeat match goal with
         | |- context [String.eqb ?c sym] => destruct (String.eqb c sym)
         end; do 2 eexists; (split; [reflexivity|lia]).
Qed.

(** X6: [get_diagonal_counts] returns the two counts, each between 0 and
    3, exactly when the grid has three rows with three, two and three cells
    at least; on every other grid it raises [IndexError]. *)
Theorem get_diagonal_counts_defined (b : board) (sym : string) :
  if diagonals_readable b
  then exists c1 c2, get_diagonal_counts b sym = Ok [(0, c1); (1, c2)]
                     /\ 0 <= c1 <= 3 /\ 0 <= c2 <= 3
  else get_diagonal_counts b sym = Raise IndexError.
Proof.
  destruct (diagonals_readable b) eqn:E.
  - now apply get_diagonal_counts_readable.
  - now apply get_diagonal_counts_unreadable.
Qed.

Lemma index_raise {A : Type} (l : list A) (i : Z) (e : exn) :
  index l i = Raise e -> e = IndexError.
Proof.
  unfold index. destruct (_ <? 0); [congruence|].
  destruct (nth_error l _); congruence.
Qed.

Lemma mapM_raise {A B : Type} (f : A -> res B) (l : list A) (e : exn) :
  mapM f l = Raise e -> exists a, In a l /\ f a = Raise e.
Proof.
  induction l as [|a l IH]; simpl; [discriminate|].
  destruct (f a) as [b|e'] eqn:E; simpl.
  - destruct (mapM f l) as [bs|e'']; simpl; [discriminate|].
    intros H. injection H as ->. destruct (IH eq_refl) as (a' & Ha' & Hf). eauto.
  - intros H. injection H as ->. eauto.
Qed.

Lemma transposed_raise {A : Type} (g : list (list A)) (e : exn) :
  transposed g = Raise e -> e = IndexError.
Proof.
  unfold transposed. destruct (index g 0) as [row0|e'] eqn:E0; simpl.
  - intros H. apply mapM_raise in H. destruct H as (i & _ & H).
    apply mapM_raise in H. destruct H as (j & _ & H).
    destruct (index g j) as [row|e''] eqn:Ej; simpl in H.
    + eapply index_raise; eauto.
    + injection H as <-. eapply index_raise; eauto.
  - intros H. injection H as <-. eapply index_raise; eauto.
Qed.

Lemma calc_optimized_move_unreadable (set_to_list : list Z -> list Z) (b : board)
    (sym : string) :
  diagonals_readable b = false ->
  calc_optimized_move set_to_list b sym = Raise IndexError.
Proof.
  intros H. unfold calc_optimized_move, get_vertical_counts.
  destruct (transposed b) as [t|e] eqn:Et; simpl.
  - now rewrite (get_diagonal_counts_unreadable b sym H).
  - now rewrite (transposed_raise b e Et).
Qed.

(** X7: on a grid without the three rows of three, two and three cells that
    the diagonal counts need, in particular on one with fewer than three
    rows, [make_smart_move] raises [IndexError] and returns no move. *)
Theorem make_smart_move_small_board (set_to_list : list Z -> list Z) (b : board)
    (s o : string) :
  diagonals_readable b = false ->
  make_smart_move set_to_list b s o = Raise IndexError.
Proof.
  intros H. unfold make_smart_move.
  now rewrite (calc_optimized_move_unreadable set_to_list b s H).
Qed.

Lemma make_smart_move_small_board_witness :
  make_smart_move ascending [[cX; c_; c_]; [c_; cO; c_]] cO cX = Raise IndexError.
Proof. apply make_smart_move_small_board. reflexivity. Defined.

(** ** Transposition twice *)

Lemma grid_ext {A : Type} (g1 g2 : list (list A)) :
  List.length g1 = List.length g2 ->
  (forall i j, grid_cell g1 i j = grid_cell g2 i j) -> g1 = g2.
Proof.
  revert g2. induction g1 as [|r1 g1 IH]; intros [|r2 g2] Hlen H; try discriminate.
  - reflexivity.
  - f_equal.
    + apply nth_error_ext. intros j. exact (H 0%nat j).
    + apply IH; [simpl in Hlen; lia|]. intros i j. exact (H (S i) j).
Qed.

(** X8: transposing twice gives the grid back, for every rectangular grid
    with at least one row and one column. *)
Theorem transposed_involutive {A : Type} (g : list (list A)) (m : nat) :
  g <> [] -> (0 < m)%nat -> Forall (fun row => List.length row = m) g ->
  exists t, transposed g = Ok t /\ transposed t = Ok g.
Proof.
  intros Hne Hm Hrect.
  destruct (transposed_rectangular g m Hne Hrect) as (t & Ht & Hlen & Hcols & Hcell).
  assert (Hne' : t <> []) by (intros ->; simpl in Hlen; lia).
  destruct (transposed_rectangular t (List.length g) Hne' Hcols)
    as (t' & Ht' & Hlen' & _ & Hcell').
  exists t. split; [exact Ht|]. rewrite Ht'. f_equal.
  apply grid_ext; [exact Hlen'|]. intros i j. now rewrite Hcell', Hcell.
Qed.

Lemma transposed_involutive_witness :
  exists t, transposed example_board = Ok t /\ transposed t = Ok example_board.
Proof.
  apply (transposed_involutive example_board 3); [discriminate|lia|repeat constructor].
Defined.

Lemma mapM_Ok {A B : Type} (f : A -> res B) (l : list A) (bs : list B) :
  mapM f l = Ok bs -> forall a, In a l -> exists b, f a = Ok b.
Proof.
  revert bs. induction l as [|a l IH]; intros bs H a' Ha'; [contradiction|].
  simpl in H. destruct (f a) as [b|e] eqn:E; [|discriminate]. simpl in H.
  destruct (mapM f l) as [bs'|e]; [|discriminate].
  destruct Ha' as [<-|Ha']; [eauto|]. eapply IH; eauto.
Qed.

Lemma transposed_wide_enough {A : Type} (row0 : list A) (rest : list (list A)) :
  Forall (fun row => (List.length row0 <= List.length row)%nat) rest ->
  transposed (row0 :: rest)
  = Ok (map (column (row0 :: rest)) (seq 0 (List.length row0))).
Proof.
  intros Hall. set (g := row0 :: rest).
  unfold transposed. change (index g 0) with (Ok row0). cbn [bind].
  rewrite !range_len.
  rewrite (mapM_map _ (fun z => column g (Z.to_nat z))).
  - rewrite map_map. f_equal. apply map_ext. intros i. now rewrite Nat2Z.id.
  - intros a Ha. apply in_map_iff in Ha. destruct Ha as (i & <- & Hi).
    apply in_seq in Hi. rewrite Nat2Z.id.
    apply (column_read_from [] g i). constructor; [lia|].
    eapply Forall_impl; [|exact Hall]. simpl. intros row Hrow. lia.
Qed.

Lemma transposed_Ok_wide {A : Type} (g t : list (list A)) :
  transposed g = Ok t ->
  exists row0 rest, g = row0 :: rest
    /\ Forall (fun row => (List.length row0 <= List.length row)%nat) rest.
Proof.
  destruct g as [|row0 rest]; [discriminate|]. intros H. exists row0, rest.
  split; [reflexivity|]. set (g := row0 :: rest) in *.
  unfold transposed in H. change (index g 0) with (Ok row0) in H. cbn [bind] in H.
  destruct (List.length row0) as [|w] eqn:Ew.
  { apply Forall_forall. intros; lia. }
  rewrite !range_len, Ew in H.
  destruct (mapM_Ok _ _ _ H (Z.of_nat w)) as [col Hcol].
  { apply in_map, in_seq. lia. }
  apply Forall_forall. intros row Hrow.
  destruct (In_nth_error _ _ Hrow) as [j Hj].
  assert (Hjlt : (j < List.length rest)%nat) by (apply nth_error_Some; congruence).
  destruct (mapM_Ok _ _ _ Hcol (Z.of_nat (S j))) as [c Hc].
  { apply in_map, in_seq. simpl. lia. }
  rewrite index_of_nat in Hc. unfold g in Hc. cbn [nth_error] in Hc.
  rewrite Hj in Hc. cbn [bind] in Hc. rewrite index_of_nat in Hc.
  destruct (nth_error row w) eqn:E; [|discriminate].
  assert (w < List.length row)%nat by (apply nth_error_Some; congruence). lia.
Qed.

(** X9: [transposed] returns a grid exactly when the grid has a first row
    and no row is shorter than it; the result then has one row per cell of
    the first row, made of the cells of that column, and what longer rows
    hold beyond the width of the first is dropped.  On every other grid it
    raises [IndexError]. *)
Theorem transposed_defined {A : Type} (g : list (list A)) :
  (forall row0 rest,
      g = row0 :: rest ->
      Forall (fun row => (List.length row0 <= List.length row)%nat) rest ->
      transposed g = Ok (map (column g) (seq 0 (List.length row0))))
  /\ (forall t, transposed g = Ok t ->
                exists row0 rest,
                  g = row0 :: rest
                  /\ Forall (fun row => (List.length row0 <= List.length row)%nat) rest)
  /\ (forall e, transposed g = Raise e -> e = IndexError).
Proof.
  split; [|split].
  - intros row0 rest -> Hall. now apply transposed_wide_enough.
  - apply transposed_Ok_wide.
  - apply transposed_raise.
Qed.

Lemma transposed_defined_witness :
  transposed [[1; 2]; [3; 4; 5]] = Ok [[1; 3]; [2; 4]]
  /\ transposed [[1; 2; 3]; [4; 5]] = Raise IndexError.
Proof.
  split.
  - apply (proj1 (transposed_defined [[1; 2]; [3; 4; 5]]) [1; 2] [[3; 4; 5]] eq_refl).
    repeat constructor.
  - destruct (transposed [[1; 2; 3]; [4; 5]]) as [t|e] eqn:E; [discriminate|].
    f_equal. exact (proj2 (proj2 (transposed_defined [[1; 2; 3]; [4; 5]])) e E).
Defined.

(** ** The ranking of the moves *)

Lemma get_sorted_moves_descending (a b : dict) :
  StronglySorted by_count_desc (get_sorted_moves a b).
Proof.
  rewrite get_sorted_moves_unfold. apply sort_dictonary_descending.
  apply NoDup_merge_into, NoDup_merge_into. constructor.
Qed.

Lemma score_range (b : board) (sym : string) (m : Z) :
  sym = "X"%string \/ sym = "O"%string -> free b m = true -> 0 <= score b sym m <= 2.
Proof.
  intros Hs Hf. split.
  - unfold score. pose proof (fscore_nonneg b sym Rows m). lia.
  - apply score_bound; [lia|]. intros line Hl Hm.
    now apply (occupancy_free_le_2 b sym line m).
Qed.

Section Ranking.

Variable set_to_list : list Z -> list Z.
Hypothesis set_to_list_perm : forall l, Permutation (set_to_list l) l.

(** X10: for a player "X" or "O" on a 3 by 3 board [calc_optimized_move]
    returns the free moves ranked from the highest score to the lowest; the
    score of a move is the one of its lines, and lies between 0 and 2. *)
Theorem calc_optimized_move_ranked (b : board) (sym : string) :
  is_board b -> sym = "X"%string \/ sym = "O"%string ->
  exists d, calc_optimized_move set_to_list b sym = Ok d
            /\ StronglySorted by_count_desc d
            /\ forall k v, In (k, v) d ->
                           free b k = true /\ v = score b sym k /\ 0 <= v <= 2.
Proof.
  intros Hb Hs.
  destruct (calc_optimized_move_spec set_to_list set_to_list_perm b sym Hb)
    as (d & Hd & Hnd & Hlook & _).
  exists d. split; [exact Hd|]. split.
  - destruct (priority_map_spec set_to_list set_to_list_perm b sym Rows Hb) as (dh & Hh & _).
    destruct (priority_map_spec set_to_list set_to_list_perm b sym Columns Hb) as (dv & Hv & _).
    destruct (priority_map_spec set_to_list set_to_list_perm b sym Diagonals Hb)
      as (dd & Hdd & _).
    rewrite (calc_optimized_move_unfold set_to_list b sym dh dv dd Hh Hv Hdd) in Hd.
    injection Hd as <-. apply get_sorted_moves_descending.
  - intros k v Hin. apply (In_lookup k v d Hnd) in Hin. rewrite Hlook in Hin.
    destruct (free b k) eqn:Hf; [|discriminate]. injection Hin as <-.
    split; [reflexivity|]. split; [reflexivity|]. now apply score_range.
Qed.

(** X11: when a 3 by 3 board has a cell that holds neither "X" nor "O",
    [make_smart_move] returns such a cell, and no such cell has a higher
    final score: the larger of the player's and the opponent's score. *)
Theorem make_smart_move_maximal (b : board) (s o : string) :
  is_board b -> (exists m, free b m = true) ->
  exists r, make_smart_move set_to_list b s o = Ok r
            /\ free b r = true
            /\ final_score b s o r = Z.max (score b s r) (score b o r)
            /\ forall m, free b m = true -> final_score b s o m <= final_score b s o r.
Proof.
  intros Hb Hex.
  destruct (make_smart_move_max set_to_list set_to_list_perm b s o Hb Hex)
    as (r & Hr & Hf & Hmax).
  exists r. auto.
Qed.

End Ranking.

Lemma calc_optimized_move_ranked_witness :
  exists d, calc_optimized_move ascending example_board cX = Ok d
            /\ StronglySorted by_count_desc d
            /\ forall k v, In (k, v) d ->
                           free example_board k = true
                           /\ v = score example_board cX k /\ 0 <= v <= 2.
Proof.
  apply (calc_optimized_move_ranked ascending ascending_perm example_board cX);
    [exact is_board_example|left; reflexivity].
Defined.

Lemma make_smart_move_maximal_witness :
  exists r, make_smart_move ascending example_board cX cO = Ok r
            /\ free example_board r = true
            /\ final_score example_board cX cO r
               = Z.max (score example_board cX r) (score example_board cO r)
            /\ forall m, free example_board m = true ->
                         final_score example_board cX cO m <= final_score example_board cX cO r.
Proof.
  apply (make_smart_move_maximal ascending ascending_perm example_board cX cO);
    [exact is_board_example|exists 5; reflexivity].
Defined.

Lemma is_board_threat : is_board threat_board.
Proof. apply is_board_transposed. Qed.

(** ** Resetting the board *)

Lemma setitem_nat {A : Type} (l : list A) (j : nat) (v : A) :
  (j < List.length l)%nat ->
  setitem l (Z.of_nat j) v = Ok (firstn j l ++ v :: skipn (S j) l).
Proof.
  intros H. unfold setitem, len.
  assert (E : (Z.of_nat j <? 0) = false) by (apply Z.ltb_ge; lia).
  rewrite E. cbv zeta. rewrite E.
  replace (Z.of_nat (List.length l) <=? Z.of_nat j) with false
    by (symmetry; apply Z.leb_gt; lia).
  cbn [orb]. now rewrite Nat2Z.id.
Qed.

Lemma setitem_short {A : Type} (l : list A) (j : nat) (v : A) :
  (List.length l <= j)%nat -> setitem l (Z.of_nat j) v = Raise IndexError.
Proof.
  intros H. unfold setitem, len.
  assert (E : (Z.of_nat j <? 0) = false) by (apply Z.ltb_ge; lia).
  rewrite E. cbv zeta. rewrite E.
  replace (Z.of_nat (List.length l) <=? Z.of_nat j) with true
    by (symmetry; apply Z.leb_le; lia).
  reflexivity.
Qed.

(** One assignment of [init_board], the row and the column as numerals. *)
Ltac set_cell_step :=
  first
    [ rewrite (setitem_nat _ 0) by (cbn [List.length]; lia)
    | rewrite (setitem_nat _ 1) by (cbn [List.length]; lia)
    | rewrite (setitem_nat _ 2) by (cbn [List.length]; lia)
    | rewrite (setitem_short _ 0) by (cbn [List.length]; lia)
    | rewrite (setitem_short _ 1) by (cbn [List.length]; lia)
    | rewrite (setitem_short _ 2) by (cbn [List.length]; lia) ];
  cbn [bind firstn skipn app].

Ltac init_board_run :=
  unfold init_board; change (range 0 3) with [0; 1; 2];
  change 0 with (Z.of_nat 0); change 1 with (Z.of_nat 1); change 2 with (Z.of_nat 2);
  cbn [foldM]; unfold set_cell; rewrite ?index_of_nat; cbn [nth_error bind];
  repeat (set_cell_step; rewrite ?index_of_nat; cbn [nth_error bind]).

Lemma init_board_resettable (b : board) :
  resettable b = true ->
  init_board b = Ok (map reset_row (firstn 3 b) ++ skipn 3 b).
Proof.
  destruct b as [|r0 [|r1 [|r2 rest]]]; try discriminate.
  destruct r0 as [|a0 [|a1 [|a2 t0]]]; try discriminate.
  destruct r1 as [|b0 [|b1 [|b2 t1]]]; try discriminate.
  destruct r2 as [|c0 [|c1 [|c2 t2]]]; try discriminate.
  intros _. init_board_run. reflexivity.
Qed.

Lemma init_board_not_resettable (b : board) :
  resettable b = false -> init_board b = Raise IndexError.
Proof.
  destruct b as [|r0 [|r1 [|r2 rest]]];
    [intros _; reflexivity
    |intros _; destruct r0 as [|a0 [|a1 [|a2 t0]]]; init_board_run; reflexivity
    |intros _; destruct r0 as [|a0 [|a1 [|a2 t0]]]; destruct r1 as [|b0 [|b1 [|b2 t1]]];
     init_board_run; reflexivity
    |].
  destruct r0 as [|a0 [|a1 [|a2 t0]]]; destruct r1 as [|b0 [|b1 [|b2 t1]]];
    destruct r2 as [|c0 [|c1 [|c2 t2]]];
    intros H; try discriminate H; init_board_run; reflexivity.
Qed.

(** X13: [init_board] empties the first three cells of the first three rows
    and leaves every other cell as it is; on a grid that lacks one of these
    nine cells it raises [IndexError].  A 3 by 3 board becomes the empty
    board. *)
Theorem init_board_defined (b : board) :
  (if resettable b
   then init_board b = Ok (map reset_row (firstn 3 b) ++ skipn 3 b)
   else init_board b = Raise IndexError)
  /\ (is_board b -> init_board b = Ok tic_tac_toe_board).
Proof.
  split.
  - destruct (resettable b) eqn:E.
    + now apply init_board_resettable.
    + now apply init_board_not_resettable.
  - apply init_board_reset.
Qed.

Lemma init_board_defined_witness : init_board example_board = Ok tic_tac_toe_board.
Proof. apply (proj2 (init_board_defined example_board)). exact is_board_example. Defined.

(** ** The game: statements *)

Lemma holds_cell_at (b : board) (sym : string) (m : Z) :
  holds b sym m = true <-> cell_at b m = Some sym.
Proof.
  unfold holds. destruct (cell_at b m) as [c|]; [|split; discriminate].
  rewrite String.eqb_eq. split; congruence.
Qed.

Lemma occupancy_full (b : board) (sym : string) (line : list Z) :
  In line all_lines ->
  occupancy b sym line = 3 <-> forall m, In m line -> cell_at b m = Some sym.
Proof.
  intros Hl. destruct (all_lines_shape line Hl) as (x & y & z & -> & _).
  rewrite occupancy_3. split.
  - intros H m Hm. apply holds_cell_at.
    destruct (holds b sym x) eqn:Ex, (holds b sym y) eqn:Ey, (holds b sym z) eqn:Ez;
      try lia.
    destruct Hm as [<-|[<-|[<-|[]]]]; assumption.
  - intros H.
    rewrite (proj2 (holds_cell_at b sym x)), (proj2 (holds_cell_at b sym y)),
      (proj2 (holds_cell_at b sym z)); [reflexivity| | |]; apply H; simpl; auto.
Qed.

Lemma has_line_spec (b : board) (sym : string) :
  has_line b sym = true <->
  exists line, In line all_lines /\ forall m, In m line -> cell_at b m = Some sym.
Proof.
  unfold has_line. rewrite existsb_exists. split.
  - intros (line & Hl & H). apply Z.eqb_eq in H. exists line. split; [exact Hl|].
    now apply occupancy_full.
  - intros (line & Hl & H). exists line. split; [exact Hl|].
    apply Z.eqb_eq. now apply occupancy_full.
Qed.

(** X14: on a 3 by 3 board [check_win] raises nothing, and answers [True]
    exactly when the three cells of a row, a column or a diagonal, the lines
    the engine scores, all hold the symbol of the player. *)
Theorem check_win_lines (b : board) (p : player) :
  is_board b ->
  exists w, check_win b p = Ok w
            /\ (w = true <->
                exists line, In line all_lines
                             /\ forall m, In m line -> cell_at b m = Some (symbol p)).
Proof.
  intros Hb. exists (has_line b (symbol p)).
  split; [now apply check_win_has_line|apply has_line_spec].
Qed.

Lemma check_win_lines_witness :
  exists w, check_win full_board spock = Ok w
            /\ (w = true <->
                exists line, In line all_lines
                             /\ forall m, In m line -> cell_at full_board m = Some (symbol spock)).
Proof.
  apply (check_win_lines full_board spock). apply is_board_transposed.
Defined.

Lemma placed_completes (b b' : board) (sym : string) (line : list Z) (c : Z) :
  In line all_lines -> occupancy b sym line = 2 -> In c line -> holds b sym c = false ->
  placed b c sym b' -> has_line b' sym = true.
Proof.
  intros Hl Hocc Hc Hfree (_ & Hc' & Hrest).
  unfold has_line. apply existsb_exists. exists line. split; [exact Hl|].
  apply Z.eqb_eq.
  assert (Hh : forall m, holds b' sym m = if m =? c then true else holds b sym m).
  { intros m. destruct (Z.eqb_spec m c) as [->|Hne].
    - now apply holds_cell_at.
    - unfold holds. now rewrite (Hrest m Hne). }
  destruct (all_lines_shape line Hl) as (x & y & z & -> & Hxy & Hxz & Hyz).
  rewrite occupancy_3 in *. rewrite !Hh.
  destruct Hc as [<-|[<-|[<-|[]]]]; rewrite Hfree in Hocc; rewrite Z.eqb_refl;
    repeat match goal with
           | |- context [?u =? ?v] =>
               replace (u =? v) with false by (symmetry; apply Z.eqb_neq; congruence)
           end;
    destruct (holds b sym x), (holds b sym y), (holds b sym z); lia.
Qed.

Section GameTheorems.

Variable set_to_list : list Z -> list Z.
Hypothesis set_to_list_perm : forall l, Permutation (set_to_list l) l.

#[local] Abbreviation possible := (get_possible_moves set_to_list).
#[local] Abbreviation move := (make_move set_to_list).
#[local] Abbreviation round := (play_round set_to_list).

(** X15: on a 3 by 3 board of cells "_", "X" and "O", [check_draw] answers
    [True] exactly when [get_possible_moves] has no move left. *)
Theorem check_draw_no_possible_moves (b : board) :
  is_board b -> valid_cells b -> check_draw b = true <-> possible b = [].
Proof.
  intros Hb Hv. rewrite (check_draw_empty_cells b Hb). split.
  - intros Hnil. destruct (possible b) as [|m l] eqn:E; [reflexivity|].
    assert (Hin : mem m (possible b) = true) by (apply mem_In; rewrite E; now left).
    apply (mem_possible_empty set_to_list set_to_list_perm b m Hb Hv) in Hin.
    apply In_empty_cells in Hin. rewrite Hnil in Hin. contradiction.
  - intros Hnil. destruct (empty_cells b) as [|m l] eqn:E; [reflexivity|].
    assert (Hin : In m (empty_cells b)) by (rewrite E; now left).
    apply In_empty_cells in Hin.
    apply (mem_possible_empty set_to_list set_to_list_perm b m Hb Hv) in Hin.
    rewrite Hnil in Hin. discriminate.
Qed.

(** X16: a smart player on a 3 by 3 board of cells "_", "X" and "O" with an
    empty cell: [make_move] returns in its first pass, draws nothing, and
    has put the symbol of the player on the empty cell that [make_smart_move]
    names; every other cell is as before. *)
Theorem make_move_smart (fuel : nat) (draws : list Z) (p q : player) (b : board) :
  is_board b -> valid_cells b -> (exists m0, cell_at b m0 = Some "_"%string) ->
  IQ p = "smart"%string ->
  exists m b',
    make_smart_move set_to_list b (symbol p) (symbol q) = Ok m
    /\ cell_at b m = Some "_"%string
    /\ move (S fuel) draws p b q = Returned (b', draws)
    /\ placed b m (symbol p) b'.
Proof. apply make_move_smart_placed. exact set_to_list_perm. Qed.

(** X17: a dumb player on a 3 by 3 board of cells "_", "X" and "O":
    [make_move] passes over the draws that name no empty cell, puts the
    symbol of the player on the first empty cell drawn, and leaves the draws
    after it. *)
Theorem make_move_dumb (fuel : nat) (skipped : list Z) (m : Z) (rest : list Z)
    (p q : player) (b : board) :
  is_board b -> valid_cells b -> IQ p = "dumb"%string ->
  Forall (fun r => cell_at b r <> Some "_"%string) skipped ->
  cell_at b m = Some "_"%string ->
  exists b', move (S fuel) (skipped ++ m :: rest) p b q = Returned (b', rest)
             /\ placed b m (symbol p) b'.
Proof. apply make_move_dumb_placed. exact set_to_list_perm. Qed.

(** X18: on a 3 by 3 board whose cells are all taken by "X" or "O",
    [make_move] never returns and never raises, for a dumb and for a smart
    player: the smart move -1 fails the digit test in every pass, and no
    draw is a possible move. *)
Theorem make_move_full_board (fuel : nat) (draws : list Z) (p q : player) (b : board) :
  is_board b -> fully_occupied b ->
  IQ p = "dumb"%string \/ IQ p = "smart"%string ->
  move fuel draws p b q = StillRunning
  /\ make_smart_move set_to_list b (symbol p) (symbol q) = Ok (-1)
  /\ isdigit_of_int (-1) = false.
Proof.
  intros Hb Hfull HIQ.
  assert (Hfree : forall m, free b m = false) by (intros m; now apply fully_occupied_free).
  split; [now apply make_move_full|]. split; [|reflexivity].
  destruct (make_smart_move_free set_to_list set_to_list_perm b (symbol p) (symbol q) Hb)
    as (m & Hm & [[-> _]|Hf]); [exact Hm|].
  rewrite Hfree in Hf. discriminate.
Qed.

(** X19: on a 3 by 3 board, whatever its cells hold, [make_move] for a dumb
    or a smart player raises nothing; when it returns it has put the symbol
    of the player on a cell that was empty, changed no other cell, and used
    up a first part of the draws. *)
Theorem make_move_safe (fuel : nat) (draws : list Z) (p q : player) (b : board) :
  is_board b -> IQ p = "dumb"%string \/ IQ p = "smart"%string ->
  match move fuel draws p b q with
  | Returned (b', rest) =>
      exists m used, draws = used ++ rest
                     /\ cell_at b m = Some "_"%string /\ placed b m (symbol p) b'
  | Failed _ => False
  | StillRunning => True
  end.
Proof.
  intros Hb HIQ.
  destruct (make_move_cases set_to_list set_to_list_perm fuel draws p q b Hb HIQ)
    as [H|(m & b' & used & rest & H & Hd & Hc & Hp)]; rewrite H; [exact I|].
  exists m, used. auto.
Qed.

(** X20: a round between dumb or smart players on a 3 by 3 board raises
    nothing.  When it ends with a winner, the symbol of the winner fills a
    line and the winner alone has one win more; when it ends in a draw, no
    cell is empty and the player who moved last has no line.  Either way
    every stone that was on the board at the start is still in place. *)
Theorem play_round_safe (moves fuel : nat) (draws : list Z) (p1 p2 : player) (b : board) :
  is_board b ->
  IQ p1 = "dumb"%string \/ IQ p1 = "smart"%string ->
  IQ p2 = "dumb"%string \/ IQ p2 = "smart"%string ->
  match round moves fuel draws p1 p2 b with
  | Returned (e, rest) => round_ok p1 p2 b e /\ exists used, draws = used ++ rest
  | Failed _ => False
  | StillRunning => True
  end.
Proof.
  intros Hb H1 H2.
  destruct (play_round_cases set_to_list set_to_list_perm moves fuel draws p1 p2 b Hb H1 H2)
    as [H|(e & used & rest & H & Hd & Hok)]; rewrite H; [exact I|].
  split; [exact Hok|]. exists used. exact Hd.
Qed.

(** X21: two smart players with the symbols "X" and "O" on a 3 by 3 board
    of cells "_", "X" and "O" with an empty cell: the round ends, with a
    winner or in a draw, after at most as many moves as there are empty
    cells, each move made in the first pass of [make_move]. *)
Theorem play_round_smart_ends (moves fuel : nat) (draws : list Z) (p1 p2 : player)
    (b : board) :
  is_board b -> valid_cells b ->
  IQ p1 = "smart"%string -> IQ p2 = "smart"%string ->
  symbol p1 = "X"%string \/ symbol p1 = "O"%string ->
  symbol p2 = "X"%string \/ symbol p2 = "O"%string ->
  empty_cells b <> [] -> (List.length (empty_cells b) <= moves)%nat ->
  exists e, round moves (S fuel) draws p1 p2 b = Returned (e, draws)
            /\ round_ok p1 p2 b e.
Proof.
  intros Hb Hv H1 H2 Hs1 Hs2 Hne Hlen.
  destruct (play_round_smart_returns set_to_list set_to_list_perm moves fuel draws p1 p2 b
              Hb Hv H1 H2 Hs1 Hs2 Hne Hlen) as [e He].
  exists e. split; [exact He|].
  destruct (play_round_cases set_to_list set_to_list_perm moves (S fuel) draws p1 p2 b Hb
              (or_intror H1) (or_intror H2))
    as [H|(e' & used & rest & H & _ & Hok)]; rewrite He in H; [discriminate|].
  injection H as <- _. exact Hok.
Qed.

(** X23: a smart player who has two stones and an empty cell on exactly one
    line, the empty cell not being the centre of the main diagonal, puts the
    third stone there, and the round ends at once with that player as the
    winner. *)
Theorem smart_player_takes_the_win (moves fuel : nat) (draws : list Z) (p q : player)
    (b : board) (line : list Z) (c : Z) :
  is_board b -> valid_cells b -> IQ p = "smart"%string ->
  symbol p = "X"%string \/ symbol p = "O"%string ->
  symbol q = "X"%string \/ symbol q = "O"%string ->
  In line all_lines -> occupancy b (symbol p) line = 2 -> In c line ->
  cell_at b c = Some "_"%string ->
  (forall line', In line' all_lines -> line' <> line -> occupancy b (symbol p) line' < 2) ->
  ~ (line = [1; 5; 9] /\ c = 5) ->
  exists b', round (S moves) (S fuel) draws p q b
             = Returned (Won (print_winner p) q b', draws)
             /\ placed b c (symbol p) b'.
Proof.
  intros Hb Hv HIQ Hsp Hsq Hl Hocc Hc Hempty Honly Hcentre.
  assert (Hfree : free b c = true) by now apply (free_empty b c Hv).
  pose proof (completion_preference_off_centre set_to_list set_to_list_perm b
                (symbol p) (symbol q) line c Hb Hsp Hsq Hl Hocc Hc Hfree Honly Hcentre)
    as Hsmart.
  destruct (make_move_write set_to_list fuel draws draws p q b c Hb Hempty) as (b' & Hm & Hp).
  { rewrite HIQ, Hsmart. reflexivity. }
  exists b'. split; [|exact Hp].
  cbn [play_round]. rewrite Hm, (check_win_has_line b' p (proj1 Hp)).
  rewrite (placed_completes b b' (symbol p) line c Hl Hocc Hc); [reflexivity| |exact Hp].
  now apply free_not_holds.
Qed.

End GameTheorems.

(** ** Blocking *)

Lemma placed_blocks (b b' : board) (s o : string) (line : list Z) (r : Z) :
  s = "X"%string \/ s = "O"%string -> o = "X"%string \/ o = "O"%string ->
  In line all_lines -> occupancy b o line = 2 -> In r line -> free b r = true ->
  placed b r s b' ->
  forall m, In m line -> cell_at b' m <> Some "_"%string.
Proof.
  intros Hs Ho Hl Hocc Hr Hfree (_ & Hr' & Hrest) m Hm.
  destruct (Z.eq_dec m r) as [->|Hne].
  { rewrite Hr'. destruct Hs as [-> | ->]; discriminate. }
  rewrite (Hrest m Hne).
  assert (Hh : holds b o m = true).
  { pose proof (free_not_holds b o r Ho Hfree) as Hnr.
    destruct (all_lines_shape line Hl) as (x & y & z & -> & Hxy & Hxz & Hyz).
    rewrite occupancy_3 in Hocc.
    destruct Hr as [<-|[<-|[<-|[]]]]; destruct Hm as [<-|[<-|[<-|[]]]];
      try congruence; rewrite Hnr in Hocc;
      destruct (holds b o x), (holds b o y), (holds b o z); try reflexivity; lia. }
  apply holds_cell_at in Hh. rewrite Hh. destruct Ho as [-> | ->]; discriminate.
Qed.

Section Blocking.

Variable set_to_list : list Z -> list Z.
Hypothesis set_to_list_perm : forall l, Permutation (set_to_list l) l.

(** X12: when the opponent has two stones and an empty cell on a line, not
    the main diagonal open at the centre, and no line through an empty cell
    holds two stones of the smart player, [make_move] puts the stone of the
    smart player on a line that holds two stones of the opponent; after the
    move that line has no empty cell. *)
Theorem smart_player_blocks (fuel : nat) (draws : list Z) (p q : player) (b : board)
    (line : list Z) (c : Z) :
  is_board b -> valid_cells b -> IQ p = "smart"%string ->
  symbol p = "X"%string \/ symbol p = "O"%string ->
  symbol q = "X"%string \/ symbol q = "O"%string ->
  In line all_lines -> occupancy b (symbol q) line = 2 -> In c line ->
  cell_at b c = Some "_"%string ->
  ~ (line = [1; 5; 9] /\ c = 5) ->
  (forall line' m, In line' all_lines -> In m line' -> cell_at b m = Some "_"%string ->
                   occupancy b (symbol p) line' < 2) ->
  exists r line' b',
    make_move set_to_list (S fuel) draws p b q = Returned (b', draws)
    /\ placed b r (symbol p) b'
    /\ In line' all_lines /\ In r line' /\ occupancy b (symbol q) line' = 2
    /\ forall m, In m line' -> cell_at b' m <> Some "_"%string.
Proof.
  intros Hb Hv HIQ Hsp Hsq Hl Hocc Hc Hempty Hcentre Hown.
  assert (Hfree : free b c = true) by now apply (free_empty b c Hv).
  destruct (blocking_off_centre set_to_list set_to_list_perm b (symbol p) (symbol q) line c
              Hb Hsp Hsq Hl Hocc Hc Hfree Hcentre)
    as (r & line' & Hr & Hfr & Hl' & Hrl' & Hocc').
  { intros L' m HL' Hm Hfm. apply (Hown L' m HL' Hm). now apply (free_empty b m Hv). }
  pose proof (proj1 (free_empty b r Hv) Hfr) as Hre.
  destruct (make_move_write set_to_list fuel draws draws p q b r Hb Hre) as (b' & Hm & Hp).
  { rewrite HIQ, Hr. reflexivity. }
  exists r, line', b'.
  split; [exact Hm|]. split; [exact Hp|]. split; [exact Hl'|]. split; [exact Hrl'|].
  split; [exact Hocc'|].
  exact (placed_blocks b b' (symbol p) (symbol q) line' r Hsp Hsq Hl' Hocc' Hrl' Hfr Hp).
Qed.

End Blocking.

Lemma valid_cells_threat : valid_cells threat_board.
Proof. unfold valid_cells. repeat (apply Forall_cons || apply Forall_nil); cbv; tauto. Qed.

Lemma smart_player_blocks_witness :
  exists r line' b',
    make_move ascending 1 [] spock threat_board patric_star = Returned (b', [])
    /\ placed threat_board r (symbol spock) b'
    /\ In line' all_lines /\ In r line' /\ occupancy threat_board (symbol patric_star) line' = 2
    /\ forall m, In m line' -> cell_at b' m <> Some "_"%string.
Proof.
  apply (smart_player_blocks ascending ascending_perm 0 [] spock patric_star threat_board
           [1; 2; 3] 3 is_board_threat valid_cells_threat).
  - reflexivity.
  - right. reflexivity.
  - left. reflexivity.
  - simpl. tauto.
  - reflexivity.
  - simpl. tauto.
  - reflexivity.
  - intros [H _]. discriminate H.
  - intros line' m Hl _ _. simpl in Hl.
    repeat (destruct Hl as [<-|Hl]; [vm_compute; reflexivity|]). contradiction.
Defined.

(** ** The rounds of [main.py]: statement *)

Section MainTheorem.

Variable set_to_list : list Z -> list Z.
Hypothesis set_to_list_perm : forall l, Permutation (set_to_list l) l.

(** X22: [main.py] raises nothing, whatever the draws.  When its rounds are
    over, the players are still the two it started with, the reported winner
    has at least as many wins as the loser, and the wins of both together
    are at most the number of rounds, so that the number of draws it reports
    is not negative. *)
Theorem main_safe (round_limit moves fuel : nat) (draws : list Z) :
  match main set_to_list round_limit moves fuel draws with
  | Returned (winner, loser, d) =>
      ((same_bot patric_star winner /\ same_bot spock loser)
       \/ (same_bot spock winner /\ same_bot patric_star loser))
      /\ wins loser <= wins winner
      /\ d = Z.of_nat round_limit - wins winner - wins loser
      /\ 0 <= d
  | Failed _ => False
  | StillRunning => True
  end.
Proof.
  unfold main.
  destruct (play_rounds_cases set_to_list set_to_list_perm round_limit moves fuel draws
              (initialize_bot 0 "Patric Star" "X" "dumb")
              (initialize_bot 1 "Spock" "O" "smart")
              (or_introl eq_refl) (or_intror eq_refl))
    as [H|(a & c & rest & H & Hsame & Hwins)]; rewrite H; [exact I|].
  change (initialize_bot 0 "Patric Star" "X" "dumb") with patric_star in *.
  change (initialize_bot 1 "Spock" "O" "smart") with spock in *.
  change (wins patric_star + wins spock + Z.of_nat round_limit)
    with (Z.of_nat round_limit) in Hwins.
  unfold get_winners. cbn [sorted_by_desc insert_by].
  destruct (wins a <? wins c) eqn:E;
    [apply Z.ltb_lt in E|apply Z.ltb_ge in E];
    (split; [tauto|]); (split; [lia|]); split; lia.
Qed.

End MainTheorem.

(** ** The game at concrete inputs *)

Lemma is_board_full : is_board full_board.
Proof. apply is_board_transposed. Qed.

Lemma valid_cells_full : valid_cells full_board.
Proof. unfold valid_cells. repeat (apply Forall_cons || apply Forall_nil); cbv; tauto. Qed.

Lemma fully_occupied_full : fully_occupied full_board.
Proof. unfold fully_occupied. repeat (apply Forall_cons || apply Forall_nil); cbv; tauto. Qed.

Lemma is_board_start : is_board tic_tac_toe_board.
Proof. apply is_board_transposed. Qed.

Lemma valid_cells_start : valid_cells tic_tac_toe_board.
Proof. unfold valid_cells. repeat (apply Forall_cons || apply Forall_nil); cbv; tauto. Qed.

Lemma is_board_winning : is_board winning_board.
Proof. apply is_board_transposed. Qed.

Lemma valid_cells_winning : valid_cells winning_board.
Proof. unfold valid_cells. repeat (apply Forall_cons || apply Forall_nil); cbv; tauto. Qed.

Lemma check_draw_no_possible_moves_witness :
  check_draw full_board = true <-> get_possible_moves ascending full_board = [].
Proof.
  apply (check_draw_no_possible_moves ascending ascending_perm full_board
           is_board_full valid_cells_full).
Defined.

Lemma make_move_smart_witness :
  exists m b',
    make_smart_move ascending example_board (symbol spock) (symbol patric_star) = Ok m
    /\ cell_at example_board m = Some "_"%string
    /\ make_move ascending 1 [] spock example_board patric_star = Returned (b', [])
    /\ placed example_board m (symbol spock) b'.
Proof.
  apply (make_move_smart ascending ascending_perm 0 [] spock patric_star example_board
           is_board_example valid_cells_example).
  - exists 5. reflexivity.
  - reflexivity.
Defined.

Lemma make_move_dumb_witness :
  exists b', make_move ascending 1 ([1; 2] ++ 5 :: [4]) patric_star example_board spock
             = Returned (b', [4])
             /\ placed example_board 5 (symbol patric_star) b'.
Proof.
  apply (make_move_dumb ascending ascending_perm 0 [1; 2] 5 [4] patric_star spock
           example_board is_board_example valid_cells_example).
  - reflexivity.
  - repeat constructor; intros H; vm_compute in H; discriminate H.
  - reflexivity.
Defined.

Lemma make_move_full_board_witness :
  make_move ascending 5 cycling_draws spock full_board patric_star = StillRunning
  /\ make_smart_move ascending full_board (symbol spock) (symbol patric_star) = Ok (-1)
  /\ isdigit_of_int (-1) = false.
Proof.
  apply (make_move_full_board ascending ascending_perm 5 cycling_draws spock patric_star
           full_board is_board_full fully_occupied_full).
  right. reflexivity.
Defined.

Lemma make_move_safe_witness :
  match make_move ascending 1 cycling_draws patric_star example_board spock with
  | Returned (b', rest) =>
      exists m used, cycling_draws = used ++ rest
                     /\ cell_at example_board m = Some "_"%string
                     /\ placed example_board m (symbol patric_star) b'
  | Failed _ => False
  | StillRunning => True
  end.
Proof.
  apply (make_move_safe ascending ascending_perm 1 cycling_draws patric_star spock
           example_board is_board_example).
  left. reflexivity.
Defined.

Lemma play_round_safe_witness :
  match play_round ascending 9 1 cycling_draws patric_star spock tic_tac_toe_board with
  | Returned (e, rest) =>
      round_ok patric_star spock tic_tac_toe_board e
      /\ exists used, cycling_draws = used ++ rest
  | Failed _ => False
  | StillRunning => True
  end.
Proof.
  apply (play_round_safe ascending ascending_perm 9 1 cycling_draws patric_star spock
           tic_tac_toe_board is_board_start).
  - left. reflexivity.
  - right. reflexivity.
Defined.

Lemma play_round_smart_ends_witness :
  exists e, play_round ascending 9 1 [] smart_x spock tic_tac_toe_board = Returned (e, [])
            /\ round_ok smart_x spock tic_tac_toe_board e.
Proof.
  apply (play_round_smart_ends ascending ascending_perm 9 0 [] smart_x spock
           tic_tac_toe_board is_board_start valid_cells_start).
  - reflexivity.
  - reflexivity.
  - left. reflexivity.
  - right. reflexivity.
  - intros H. vm_compute in H. discriminate H.
  - vm_compute. lia.
Defined.

Lemma main_safe_witness :
  match main ascending 2 9 1 cycling_draws with
  | Returned (winner, loser, d) =>
      ((same_bot patric_star winner /\ same_bot spock loser)
       \/ (same_bot spock winner /\ same_bot patric_star loser))
      /\ wins loser <= wins winner
      /\ d = Z.of_nat 2 - wins winner - wins loser
      /\ 0 <= d
  | Failed _ => False
  | StillRunning => True
  end.
Proof. apply (main_safe ascending ascending_perm 2 9 1 cycling_draws). Defined.

Lemma smart_player_takes_the_win_witness :
  exists b', play_round ascending 1 1 [] spock patric_star winning_board
             = Returned (Won (print_winner spock) patric_star b', [])
             /\ placed winning_board 3 (symbol spock) b'.
Proof.
  apply (smart_player_takes_the_win ascending ascending_perm 0 0 [] spock patric_star
           winning_board [1; 2; 3] 3 is_board_winning valid_cells_winning).
  - reflexivity.
  - right. reflexivity.
  - left. reflexivity.
  - simpl. tauto.
  - reflexivity.
  - simpl. tauto.
  - reflexivity.
  - intros line' Hl Hne. simpl in Hl.
    destruct Hl as [<-|Hl]; [now contradiction Hne|].
    repeat (destruct Hl as [<-|Hl]; [vm_compute; reflexivity|]). contradiction.
  - intros [_ H]. discriminate H.
Defined.

(** ** [get_board] hands out a copy *)

Lemma copy_known (h : Heap.heap) (r : nat) (o : list Heap.value) :
  Heap.lookup h r = Some o ->
  BoardHeap.copy (Heap.VRef r) h = (Ok (Heap.VRef (List.length h)), h ++ [o]).
Proof.
  intros H. unfold BoardHeap.copy, Heap.bind. now rewrite (load_known h r o H).
Qed.

Lemma copy_rows (h0 : Heap.heap) (rows : list nat) (b : board) :
  Forall2 (fun r row => Heap.lookup h0 r = Some (map Heap.VStr row)) rows b ->
  forall ext,
    Heap.mapM BoardHeap.copy (map Heap.VRef rows) (h0 ++ ext)
    = (Ok (map Heap.VRef (seq (List.length (h0 ++ ext)) (List.length rows))),
       (h0 ++ ext) ++ map (map Heap.VStr) b).
Proof.
  induction 1 as [|r row rows b Hr _ IH]; intros ext.
  - simpl. now rewrite app_nil_r.
  - cbn [map Heap.mapM]. unfold Heap.bind at 1.
    rewrite (copy_known _ r _ (lookup_ext h0 ext r _ Hr)).
    rewrite <- app_assoc. unfold Heap.bind at 1. rewrite (IH (ext ++ [map Heap.VStr row])).
    unfold Heap.ret. cbn [List.length seq map]. f_equal.
    + f_equal. f_equal. f_equal. rewrite !length_app. simpl. f_equal. lia.
    + rewrite <- !app_assoc. reflexivity.
Qed.

Lemma lookup_fresh (h fresh : Heap.heap) (k : nat) :
  Heap.lookup (h ++ fresh) (List.length h + k) = nth_error fresh k.
Proof.
  unfold Heap.lookup. rewrite nth_error_app2 by lia. f_equal. lia.
Qed.

Lemma copies_grid (h : Heap.heap) (b : board) (tail : Heap.heap) (k : nat) (pre : Heap.heap) :
  List.length pre = k ->
  Forall2 (fun r row => Heap.lookup (h ++ pre ++ map (map Heap.VStr) b ++ tail) r
                        = Some (map Heap.VStr row))
          (seq (List.length h + k) (List.length b)) b.
Proof.
  revert k pre. induction b as [|row b IH]; intros k pre Hk; [constructor|].
  cbn [List.length seq map]. constructor.
  - rewrite lookup_fresh. rewrite nth_error_app2 by lia.
    rewrite Hk, Nat.sub_diag. reflexivity.
  - replace (S (List.length h + k)) with (List.length h + S k)%nat by lia.
    replace (pre ++ (map Heap.VStr row :: map (map Heap.VStr) b) ++ tail)
      with ((pre ++ [map Heap.VStr row]) ++ map (map Heap.VStr) b ++ tail)
      by (rewrite <- !app_assoc; reflexivity).
    apply IH. rewrite length_app. simpl. lia.
Qed.

Lemma lookup_store (H : Heap.heap) (r l : nat) (o : list Heap.value) :
  l <> r -> (r < List.length H)%nat ->
  Heap.lookup (firstn r H ++ o :: skipn (S r) H) l = Heap.lookup H l.
Proof.
  intros Hne Hr. unfold Heap.lookup.
  rewrite <- (firstn_skipn r H) at 3.
  assert (Hf : List.length (firstn r H) = r) by (rewrite length_firstn; lia).
  destruct (Nat.lt_ge_cases l r) as [Hlt|Hge].
  - rewrite !nth_error_app1 by lia. reflexivity.
  - rewrite !nth_error_app2 by lia. rewrite Hf.
    destruct (l - r)%nat as [|k] eqn:E; [lia|]. cbn [nth_error].
    destruct (skipn r H) as [|x t] eqn:Es.
    + assert (List.length (skipn r H) = 0%nat) by now rewrite Es.
      rewrite length_skipn in *. lia.
    + cbn [nth_error].
      replace (skipn (S r) H) with t; [reflexivity|].
      change (S r) with (1 + r)%nat. rewrite <- skipn_skipn, Es. reflexivity.
Qed.

(** An assignment through a grid whose rows are new objects leaves the
    objects that were there before, and the list of the rows, as they are. *)
Lemma set_cell_fresh (h fresh : Heap.heap) (l : nat) (rows : list nat) (row col : Z)
    (sym : string) (v : res unit) (h' : Heap.heap) :
  Heap.lookup (h ++ fresh) l = Some (map Heap.VRef rows) ->
  Forall (fun r => (List.length h <= r)%nat) rows -> ~ In l rows ->
  Heap.set_cell (Heap.VRef l) row col sym (h ++ fresh) = (v, h') ->
  exists fresh', h' = h ++ fresh'
                 /\ Heap.lookup (h ++ fresh') l = Some (map Heap.VRef rows).
Proof.
  intros Hl Hrows Hnl. unfold Heap.set_cell. unfold Heap.bind at 1.
  rewrite (getitem_known _ l _ row Hl).
  destruct (index (map Heap.VRef rows) row) as [r|e] eqn:Er.
  2: { intros H. injection H as _ <-. eauto. }
  assert (Hr : exists r', r = Heap.VRef r' /\ (List.length h <= r')%nat /\ l <> r').
  { unfold index in Er. destruct (_ <? 0); [discriminate|].
    destruct (nth_error (map Heap.VRef rows) _) as [x|] eqn:En; [|discriminate].
    injection Er as ->. apply nth_error_In, in_map_iff in En.
    destruct En as (r' & <- & Hin). exists r'. split; [reflexivity|].
    rewrite Forall_forall in Hrows. split; [now apply Hrows|]. intros ->. contradiction. }
  destruct Hr as (r' & -> & Hr' & Hne).
  unfold Heap.bind at 1. unfold Heap.load.
  destruct (Heap.lookup (h ++ fresh) r') as [cells|] eqn:Ec.
  2: { intros H. injection H as _ <-. eauto. }
  unfold Heap.bind at 1. unfold Heap.lift.
  destruct (index cells col) as [c|e].
  2: { intros H. injection H as _ <-. eauto. }
  assert (Hlt : (r' < List.length (h ++ fresh))%nat).
  { apply nth_error_Some. unfold Heap.lookup in Ec. congruence. }
  set (o := firstn (Z.to_nat col) cells ++ Heap.VStr sym :: skipn (S (Z.to_nat col)) cells).
  pose proof (lookup_store (h ++ fresh) r' l o Hne Hlt) as Hsame.
  rewrite Hl in Hsame.
  assert (Heq : firstn r' (h ++ fresh) ++ o :: skipn (S r') (h ++ fresh)
                = h ++ firstn (r' - List.length h) fresh ++ o :: skipn (S r') (h ++ fresh)).
  { rewrite firstn_app, firstn_all2 by lia. now rewrite <- app_assoc. }
  unfold Heap.store. rewrite Ec, Heq. intros H.
  exists (firstn (r' - List.length h) fresh ++ o :: skipn (S r') (h ++ fresh)).
  split; [congruence|]. now rewrite <- Heq.
Qed.

Lemma set_cells_fresh (h : Heap.heap) (l : nat) (rows : list nat)
    (writes : list (Z * Z * string)) :
  Forall (fun r => (List.length h <= r)%nat) rows -> ~ In l rows ->
  forall fresh v h',
    Heap.lookup (h ++ fresh) l = Some (map Heap.VRef rows) ->
    BoardHeap.set_cells (Heap.VRef l) writes (h ++ fresh) = (v, h') ->
    exists fresh', h' = h ++ fresh'.
Proof.
  intros Hrows Hnl. induction writes as [|[[row col] sym] writes IH]; intros fresh v h' Hl.
  - intros H. injection H as _ <-. eauto.
  - cbn [BoardHeap.set_cells]. unfold Heap.bind at 1.
    destruct (Heap.set_cell (Heap.VRef l) row col sym (h ++ fresh)) as [v1 h1] eqn:E1.
    destruct (set_cell_fresh h fresh l rows row col sym v1 h1 Hl Hrows Hnl E1)
      as (fresh1 & -> & Hl1).
    destruct v1 as [[]|e].
    + apply IH. exact Hl1.
    + intros H. injection H as _ <-. eauto.
Qed.

(** X24: [get_board] leaves every object of the heap as it is and returns a
    new grid with the same cells whose rows are new objects too, so that no
    sequence of assignments to cells of the copy, as [init_board] and the
    moves of a round make them, changes the board it was copied from. *)
Theorem get_board_copies (h : Heap.heap) (g : Heap.value) (b : board) :
  is_grid h g b ->
  exists g' fresh,
    BoardHeap.get_board g h = (Ok g', h ++ fresh)
    /\ is_grid (h ++ fresh) g b
    /\ is_grid (h ++ fresh) g' b
    /\ forall writes v h',
         BoardHeap.set_cells g' writes (h ++ fresh) = (v, h') -> is_grid h' g b.
Proof.
  intros Hg. pose proof Hg as (l & rows & -> & Hl & Hrows).
  set (copies := map Heap.VRef (seq (List.length h) (List.length rows))).
  set (fresh := map (map Heap.VStr) b ++ [copies]).
  assert (Hlen : List.length rows = List.length b) by (eapply Forall2_length; eauto).
  exists (Heap.VRef (List.length h + List.length b)), fresh.
  assert (Hnew : Heap.lookup (h ++ fresh) (List.length h + List.length b)
                 = Some (map Heap.VRef (seq (List.length h) (List.length b)))).
  { rewrite lookup_fresh. unfold fresh.
    rewrite nth_error_app2 by (rewrite length_map; lia).
    rewrite length_map, Nat.sub_diag. unfold copies. now rewrite Hlen. }
  split; [|split; [now apply is_grid_ext|split]].
  - unfold BoardHeap.get_board. unfold Heap.bind at 1. rewrite (load_known h l _ Hl).
    unfold Heap.bind at 1.
    pose proof (copy_rows h rows b Hrows []) as Hcopy. rewrite app_nil_r in Hcopy.
    rewrite Hcopy. unfold Heap.alloc, Heap.size, Heap.extend.
    rewrite length_app, length_map, <- app_assoc. reflexivity.
  - exists (List.length h + List.length b)%nat, (seq (List.length h) (List.length b)).
    split; [reflexivity|]. split; [exact Hnew|].
    pose proof (copies_grid h b [copies] 0 [] eq_refl) as H.
    rewrite Nat.add_0_r in H. exact H.
  - intros writes v h' Hset.
    destruct (set_cells_fresh h (List.length h + List.length b)
                (seq (List.length h) (List.length b)) writes) with (3 := Hnew) (4 := Hset)
      as [fresh' ->].
    + apply Forall_forall. intros r Hr. apply in_seq in Hr. lia.
    + intros Hin. apply in_seq in Hin. lia.
    + now apply is_grid_ext.
Qed.

Lemma get_board_copies_witness :
  exists g' fresh,
    BoardHeap.get_board (Heap.VRef 3) example_heap = (Ok g', example_heap ++ fresh)
    /\ is_grid (example_heap ++ fresh) (Heap.VRef 3) example_board
    /\ is_grid (example_heap ++ fresh) g' example_board
    /\ forall writes v h',
         BoardHeap.set_cells g' writes (example_heap ++ fresh) = (v, h') ->
         is_grid h' (Heap.VRef 3) example_board.
Proof. apply (get_board_copies example_heap (Heap.VRef 3) example_board example_heap_grid). Defined.
